(** * Open-addressing hash table (include/hash_table.h, include/policy.h)

    A shallow embedding of the [HashTable] engine and of its two probing
    policies, and the properties of its operations.

    Conventions of the embedding:
    - [std::size_t] is a 64-bit unsigned integer: a [Z] in [0, 2^64) with
      the wrap-around written out ([wrap]);
    - [float] values are represented by the rational they denote; the
      conversion of a [size_t] to [float] rounds to 24 significant bits
      ([float_of_size]); multiplying or dividing by [0.5f] is exact;
    - undefined behaviour (out-of-range indexing, null dereference, division
      by zero, out-of-range float conversion) is the outcome [Undefined];
    - unbounded loops take a fuel argument and give [OutOfFuel] when it is
      exhausted; a loop that never terminates gives [OutOfFuel] for every
      fuel;
    - an iterator into the slot array is the index of its slot; [end()] is
      the length of the array. *)

From Stdlib Require Import String.
From Stdlib Require Import ZArith QArith Qround Lia Bool List Permutation.
From stdpp Require Import base list.

Local Open Scope Z_scope.

(** ** Machine integers and floats *)

Definition size_t_modulus : Z := 2 ^ 64.

Definition wrap (n : Z) : Z := n mod size_t_modulus.

(** Conversion [size_t -> float] (IEEE binary32, round to nearest, ties to
    even): integers below [2^24] are exact, larger ones keep their 24
    leading bits. *)
Definition float_of_size (n : Z) : Q :=
  if n <? 2 ^ 24 then inject_Z n
  else
    let e := Z.log2 n - 23 in
    let q := Z.shiftr n e in
    let r := Z.land n (Z.ones e) in
    let half := Z.shiftl 1 (e - 1) in
    let q' := if (half <? r) || ((r =? half) && Z.odd q) then q + 1 else q in
    inject_Z (Z.shiftl q' e).

Definition Qgtb (x y : Q) : bool := negb (Qle_bool x y).
Definition Qltb (x y : Q) : bool := negb (Qle_bool y x).

(** ** Outcomes *)

Inductive result (A : Type) : Type :=
| Done (a : A)
| Undefined
| OutOfFuel.

Arguments Done {A} a.
Arguments Undefined {A}.
Arguments OutOfFuel {A}.

Definition rbind {A B : Type} (m : result A) (f : A -> result B) : result B :=
  match m with
  | Done a => f a
  | Undefined => Undefined
  | OutOfFuel => OutOfFuel
  end.

Declare Scope result_scope.
Delimit Scope result_scope with result.
Notation "x <- m ;; k" := (rbind m (fun x => k))
  (at level 100, m at next level, right associativity) : result_scope.
Local Open Scope result_scope.

(** Conversion [float -> size_t]: truncation; undefined when the value does
    not fit. (All floats converted here are non-negative.) *)
Definition size_of_float (x : Q) : result Z :=
  let z := Qfloor x in
  if (0 <=? z) && (z <? size_t_modulus) then Done z else Undefined.

(** ** Probing policies (policy.h) *)

Class CollisionPolicy (P : Type) : Type := {
  policy_make : Z -> Z -> P;          (* P(size, start) *)
  policy_deref : P -> result Z;       (* operator*  *)
  policy_next : P -> P                (* operator++ *)
}.

Record LinearProbing : Type := {
  lin_size : Z;
  currentIndex : Z;
  lin_start : Z
}.

Record QuadraticProbing : Type := {
  quad_size : Z;
  currentBase : Z;
  quad_start : Z
}.

Definition umod (a b : Z) : result Z :=
  if b =? 0 then Undefined else Done (a mod b).

#[export] Instance LinearProbing_policy : CollisionPolicy LinearProbing := {
  policy_make size start :=
    {| lin_size := size; currentIndex := 0; lin_start := start |};
  policy_deref it :=
    umod (wrap (lin_start it + currentIndex it)) (lin_size it);
  policy_next it :=
    {| lin_size := lin_size it;
       currentIndex := wrap (currentIndex it + 1);
       lin_start := lin_start it |}
}.

#[export] Instance QuadraticProbing_policy : CollisionPolicy QuadraticProbing := {
  policy_make size start :=
    {| quad_size := size; currentBase := 0; quad_start := start |};
  policy_deref it :=
    umod (wrap (quad_start it + wrap (currentBase it * currentBase it)))
         (quad_size it);
  policy_next it :=
    {| quad_size := quad_size it;
       currentBase := wrap (currentBase it + 1);
       quad_start := quad_start it |}
}.

(** ** Slots *)

Inductive ElementType : Type := FREE | DELETED | DATA.

Definition ElementType_eqb (a b : ElementType) : bool :=
  match a, b with
  | FREE, FREE | DELETED, DELETED | DATA, DATA => true
  | _, _ => false
  end.

Record Element (Value : Type) : Type := {
  type : ElementType;
  ptr : option Value
}.

Arguments type {Value} e.
Arguments ptr {Value} e.

(** [Element()] *)
Definition Element_default {Value : Type} : Element Value :=
  {| type := FREE; ptr := None |}.

(** [Element(std::unique_ptr<Type> data)] *)
Definition Element_of {Value : Type} (v : Value) : Element Value :=
  {| type := DATA; ptr := Some v |}.

(** [Element::free()] *)
Definition Element_free {Value : Type} (e : Element Value) : Element Value :=
  {| type := DELETED; ptr := None |}.

(** [Element::data()]: dereferences the owning pointer. *)
Definition Element_data {Value : Type} (e : Element Value) : result Value :=
  match ptr e with
  | Some v => Done v
  | None => Undefined
  end.

(** ** The table *)

Record HashTable (Value : Type) : Type := {
  data_ : list (Element Value);
  size_ : Z;
  cells_cnt_ : Z
}.

Arguments data_ {Value} h.
Arguments size_ {Value} h.
Arguments cells_cnt_ {Value} h.

Definition max_load_factor_ : Q := 1 # 2.

(** [data_[i]] *)
Definition at_ {A : Type} (l : list A) (i : Z) : result A :=
  if i <? 0 then Undefined
  else match l !! Z.to_nat i with
       | Some x => Done x
       | None => Undefined
       end.

(** [std::vector<Element>(n)]: [n] default-constructed slots. *)
Definition fresh_slots {Value : Type} (n : Z) : list (Element Value) :=
  replicate (Z.to_nat n) Element_default.

(** [optimal_size]: the loop shifts [k] right until it meets a set bit of
    [sz]. *)
Fixpoint optimal_size_loop (fuel : nat) (sz k : Z) : result Z :=
  match fuel with
  | O => OutOfFuel
  | S fuel' =>
      if Z.land sz k =? 0
      then optimal_size_loop fuel' sz (Z.shiftr k 1)
      else Done k
  end.

Definition optimal_size (fuel : nat) (sz : Z) : result Z :=
  k <- optimal_size_loop fuel sz (Z.shiftl 1 63) ;;
  Done (wrap (Z.shiftl k 1)).

(** ** The engine (hash_table.h) *)

(** Outcome of the probe loop
    [for (; data_[*it].type != FREE; ++it) if (DATA && equal) return ...]:
    it leaves at a FREE slot or returns at an equal key. *)
Inductive probe_stop : Type :=
| AtFree (i : Z)
| AtEqual (i : Z).

Section Engine.

Context {Key Value P : Type} `{CollisionPolicy P}.
Variable hash_ : Key -> Z.
Variable equal_ : Key -> Key -> bool.
Variable key_from_value_ : Value -> Key.

(** The hasher returns a [size_t]. *)
Definition hash_of (key : Key) : Z := wrap (hash_ key).

Definition bucket_count (t : HashTable Value) : Z :=
  Z.of_nat (length (data_ t)).

Definition size (t : HashTable Value) : Z := size_ t.

(** [end()] *)
Definition end_ (t : HashTable Value) : Z := bucket_count t.

(** The probe loop shared by [emplace], [find] and [insert(Element&)]. *)
Fixpoint probe (fuel : nat) (data : list (Element Value)) (key : Key)
         (it : P) : result probe_stop :=
  match fuel with
  | O => OutOfFuel
  | S fuel' =>
      i <- policy_deref it ;;
      e <- at_ data i ;;
      match type e with
      | FREE => Done (AtFree i)
      | DELETED => probe fuel' data key (policy_next it)
      | DATA =>
          v <- Element_data e ;;
          if equal_ (key_from_value_ v) key
          then Done (AtEqual i)
          else probe fuel' data key (policy_next it)
      end
  end.

(** [find(key)] *)
Definition find (fuel : nat) (t : HashTable Value) (key : Key) : result Z :=
  let hash := hash_of key in
  r <- probe fuel (data_ t) key (policy_make (bucket_count t) hash) ;;
  match r with
  | AtEqual i => Done i
  | AtFree _ => Done (end_ t)
  end.

(** [count(key)] and [contains(key)] *)
Definition count (fuel : nat) (t : HashTable Value) (key : Key) : result Z :=
  it <- find fuel t key ;;
  Done (if it =? end_ t then 0 else 1).

Definition contains (fuel : nat) (t : HashTable Value) (key : Key)
  : result bool :=
  c <- count fuel t key ;;
  Done (c =? 1).

(** [clear()] *)
Definition clear (t : HashTable Value) : HashTable Value :=
  {| data_ := fresh_slots 8; size_ := 0; cells_cnt_ := 0 |}.

(** Storing at the end of the probe loop:
    [data_[*it] = std::move(e); ++size_; ++cells_cnt_]. *)
Definition store (t : HashTable Value) (i : Z) (e : Element Value)
  : HashTable Value :=
  {| data_ := <[Z.to_nat i := e]> (data_ t);
     size_ := wrap (size_ t + 1);
     cells_cnt_ := wrap (cells_cnt_ t + 1) |}.

Section WithRehash.

(** The call of [rehash] made by [check_size]. *)
Variable rehash_rec : Z -> HashTable Value -> result (HashTable Value).

(** [check_size()] *)
Definition check_size_with (t : HashTable Value)
  : result (HashTable Value) :=
  if Qgtb (float_of_size (cells_cnt_ t))
          (max_load_factor_ * float_of_size (bucket_count t))
  then
    n <- size_of_float (float_of_size (bucket_count t) / max_load_factor_) ;;
    rehash_rec n t
  else Done t.

(** [insert(Element &element)] *)
Definition insert_element_with (fuel : nat) (t : HashTable Value)
           (element : Element Value) : result (HashTable Value) :=
  t1 <- check_size_with t ;;
  v <- Element_data element ;;
  hash <- umod (hash_of (key_from_value_ v)) (bucket_count t1) ;;
  r <- probe fuel (data_ t1) (key_from_value_ v)
             (policy_make (bucket_count t1) hash) ;;
  match r with
  | AtEqual _ => Done t1
  | AtFree i => Done (store t1 i element)
  end.

(** [emplace(args...)]; [insert(value)] forwards to it. The result is
    the table, the position and the [inserted] flag. *)
Definition emplace_with (fuel : nat) (t : HashTable Value) (value : Value)
  : result (HashTable Value * (Z * bool)) :=
  t1 <- check_size_with t ;;
  let tmp := Element_of value in
  hash <- umod (hash_of (key_from_value_ value)) (bucket_count t1) ;;
  r <- probe fuel (data_ t1) (key_from_value_ value)
             (policy_make (bucket_count t1) hash) ;;
  match r with
  | AtEqual i => Done (t1, (i, false))
  | AtFree i => Done (store t1 i tmp, (i, true))
  end.

(** [insert(first, last)] and [insert(init)]: emplace each in turn. *)
Fixpoint insert_range_with (fuel : nat) (t : HashTable Value)
       (vs : list Value) : result (HashTable Value) :=
  match vs with
  | [] => Done t
  | v :: rest =>
      r <- emplace_with fuel t v ;;
      insert_range_with fuel (fst r) rest
  end.

End WithRehash.

(** The loop [for (auto &el : old) if (el.type == DATA) insert(el);] *)
Fixpoint reinsert (ins : HashTable Value -> Element Value ->
                         result (HashTable Value))
         (old : list (Element Value)) (t : HashTable Value)
  : result (HashTable Value) :=
  match old with
  | [] => Done t
  | el :: rest =>
      match type el with
      | DATA => t1 <- ins t el ;; reinsert ins rest t1
      | _ => reinsert ins rest t
      end
  end.

(** [rehash(count)] *)
Fixpoint rehash (fuel : nat) (count : Z) (t : HashTable Value)
  : result (HashTable Value) :=
  match fuel with
  | O => OutOfFuel
  | S fuel' =>
      if count =? bucket_count t then Done t
      else
        count' <-
          (if Qltb (float_of_size count)
                   (float_of_size (size t) / max_load_factor_)
           then size_of_float (float_of_size (size t) / max_load_factor_)
           else Done count) ;;
        let old := data_ t in
        let t0 := {| data_ := fresh_slots count';
                     size_ := 0; cells_cnt_ := 0 |} in
        reinsert (insert_element_with (rehash fuel') fuel') old t0
  end.

Definition check_size (fuel : nat) : HashTable Value -> result (HashTable Value) :=
  check_size_with (rehash fuel).

Definition insert_element (fuel : nat)
  : HashTable Value -> Element Value -> result (HashTable Value) :=
  insert_element_with (rehash fuel) fuel.

(** [reserve(count)] *)
Definition reserve (fuel : nat) (count : Z) (t : HashTable Value)
  : result (HashTable Value) :=
  n <- size_of_float (float_of_size count / max_load_factor_) ;;
  c <- optimal_size fuel n ;;
  rehash fuel c t.

Definition emplace (fuel : nat)
  : HashTable Value -> Value -> result (HashTable Value * (Z * bool)) :=
  emplace_with (rehash fuel) fuel.

Definition insert := emplace.

Definition insert_range (fuel : nat)
  : HashTable Value -> list Value -> result (HashTable Value) :=
  insert_range_with (rehash fuel) fuel.

(** [find_begin()] and the scan of [operator++]: the first DATA slot at or
    after a position, or the end. *)
Fixpoint skip_to_data (l : list (Element Value)) (i : Z) : Z :=
  match l with
  | [] => i
  | e :: l' =>
      match type e with
      | DATA => i
      | _ => skip_to_data l' (i + 1)
      end
  end.

Definition begin (t : HashTable Value) : Z := skip_to_data (data_ t) 0.

(** [iterator + 1]: one [operator++]; stepping from [end()] leaves the
    array. *)
Definition iterator_next (data : list (Element Value)) (i : Z) : result Z :=
  if (0 <=? i) && (i <? Z.of_nat (length data))
  then Done (skip_to_data (drop (S (Z.to_nat i)) data) (i + 1))
  else Undefined.

(** [erase(const_iterator pos)] *)
Definition erase (t : HashTable Value) (pos : Z)
  : result (HashTable Value * Z) :=
  let id := pos in
  res <- iterator_next (data_ t) id ;;
  e <- at_ (data_ t) id ;;
  Done ({| data_ := <[Z.to_nat id := Element_free e]> (data_ t);
           size_ := wrap (size_ t - 1);
           cells_cnt_ := cells_cnt_ t |}, res).

(** [erase(const key_type &key)]: the body of the [do ... while] runs
    before the first test. *)
Fixpoint erase_key_loop (n fuel : nat) (t : HashTable Value) (key : Key)
         (it cnt : Z) : result (HashTable Value * Z) :=
  match n with
  | O => OutOfFuel
  | S n' =>
      r <- erase t it ;;
      let t1 := fst r in
      it' <- find fuel t1 key ;;
      let cnt' := wrap (cnt + 1) in
      if it' =? end_ t1 then Done (t1, cnt')
      else erase_key_loop n' fuel t1 key it' cnt'
  end.

Definition erase_key (fuel : nat) (t : HashTable Value) (key : Key)
  : result (HashTable Value * Z) :=
  it <- find fuel t key ;;
  erase_key_loop fuel fuel t key it 0.

(** [operator==]: the range-for over [lhs] visits its DATA slots in array
    order. *)
Fixpoint all_contained (fuel : nat) (rhs : HashTable Value)
         (els : list (Element Value)) : result bool :=
  match els with
  | [] => Done true
  | el :: rest =>
      match type el with
      | DATA =>
          v <- Element_data el ;;
          c <- contains fuel rhs (key_from_value_ v) ;;
          if c then all_contained fuel rhs rest else Done false
      | _ => all_contained fuel rhs rest
      end
  end.

Definition table_eq (fuel : nat) (lhs rhs : HashTable Value) : result bool :=
  if negb (size lhs =? size rhs) then Done false
  else all_contained fuel rhs (data_ lhs).

(** Constructors. [HashTable(getKV, expected_max_size, hash, equal)]: *)
Definition HashTable_new (fuel : nat) (expected_max_size : Z)
  : result (HashTable Value) :=
  n <- size_of_float (float_of_size expected_max_size / max_load_factor_) ;;
  c <- optimal_size fuel n ;;
  Done {| data_ := fresh_slots c; size_ := 0; cells_cnt_ := 0 |}.

(** [HashTable(first, last, getKV, expected_max_size, hash, equal)]: *)
Definition HashTable_of_range (fuel : nat) (vs : list Value)
           (expected_max_size : Z) : result (HashTable Value) :=
  t <- HashTable_new fuel expected_max_size ;;
  insert_range fuel t vs.

(** [HashTable(init, getKV, expected_max_size, hash, equal)]: the slot
    array is sized without [optimal_size]. *)
Definition HashTable_of_list (fuel : nat) (init : list Value)
           (expected_max_size : Z) : result (HashTable Value) :=
  n <- size_of_float (float_of_size expected_max_size / max_load_factor_) ;;
  insert_range fuel
    {| data_ := fresh_slots n; size_ := 0; cells_cnt_ := 0 |} init.

(** [load_factor()], as the exact quotient. *)
Definition load_factor (t : HashTable Value) : Q :=
  inject_Z (size t) / inject_Z (bucket_count t).

End Engine.

From Stdlib Require Import Sorted.

(** ** Iteration and ranges (hash_table.h) *)

Section Ranges.

Context {Key Value P : Type} `{CollisionPolicy P}.
Variable hash_ : Key -> Z.
Variable equal_ : Key -> Key -> bool.
Variable key_from_value_ : Value -> Key.

(** The loop [for (auto it = begin(); it != end(); ++it)]: the positions
    the iterator takes, from position [i] on. *)
Fixpoint positions_from (fuel : nat) (data : list (Element Value)) (i : Z)
  : result (list Z) :=
  match fuel with
  | O => OutOfFuel
  | S fuel' =>
      if i =? Z.of_nat (length data) then Done []
      else
        next <- iterator_next data i ;;
        rest <- positions_from fuel' data next ;;
        Done (i :: rest)
  end.

Definition positions (fuel : nat) (t : HashTable Value) : result (list Z) :=
  positions_from fuel (data_ t) (begin t).

(** [it->data()] at each position of a list. *)
Fixpoint data_at (data : list (Element Value)) (ps : list Z)
  : result (list Value) :=
  match ps with
  | [] => Done []
  | i :: rest =>
      e <- at_ data i ;;
      v <- Element_data e ;;
      vs <- data_at data rest ;;
      Done (v :: vs)
  end.

(** The values a range-for over the table yields. *)
Definition elements (fuel : nat) (t : HashTable Value)
  : result (list Value) :=
  ps <- positions fuel t ;;
  data_at (data_ t) ps.

(** [empty()] *)
Definition empty (t : HashTable Value) : bool := size_ t =? 0.

(** [erase(const_iterator first, const_iterator last)]: the result
    [iterator(last) + 1] is computed first, then the loop
    [for (auto i = first; i != last; ++i) erase(i);]. *)
Fixpoint erase_range_loop (fuel : nat) (t : HashTable Value) (i last : Z)
  : result (HashTable Value) :=
  match fuel with
  | O => OutOfFuel
  | S fuel' =>
      if i =? last then Done t
      else
        r <- erase t i ;;
        i' <- iterator_next (data_ (fst r)) i ;;
        erase_range_loop fuel' (fst r) i' last
  end.

Definition erase_range (fuel : nat) (t : HashTable Value) (first last : Z)
  : result (HashTable Value * Z) :=
  res <- iterator_next (data_ t) last ;;
  t' <- erase_range_loop fuel t first last ;;
  Done (t', res).

(** [equal_range(key)] *)
Definition equal_range (fuel : nat) (t : HashTable Value) (key : Key)
  : result (Z * Z) :=
  tmp <- find hash_ equal_ key_from_value_ fuel t key ;;
  if tmp =? end_ t then Done (end_ t, end_ t)
  else
    next <- iterator_next (data_ t) tmp ;;
    Done (tmp, next).

(** [bucket(key)]: the distance from [data_.begin()] to [find(key)]. *)
Definition bucket (fuel : nat) (t : HashTable Value) (key : Key)
  : result Z :=
  find hash_ equal_ key_from_value_ fuel t key.

(** [bucket_size(n)] *)
Definition bucket_size (n : Z) : Z := 1.

End Ranges.

(** ** The map adapter (hash_map.h)

    [HashMap<Key, T>] wraps a [HashTable<Key, std::pair<const Key, T>>]
    whose key function is [val.first]. Its iterators wrap the table's. *)

(** What [at] throws. *)
Inductive exception : Type :=
| out_of_range (what : string).

(** A call that returns or throws. *)
Inductive outcome (A : Type) : Type :=
| Returned (a : A)
| Thrown (e : exception).

Arguments Returned {A} a.
Arguments Thrown {A} e.

Module HashMap.

Section Adapter.

Context {Key T P : Type} `{CollisionPolicy P}.
Variable hash_ : Key -> Z.
Variable equal_ : Key -> Key -> bool.

(** [[](const value_type &val) -> const Key & { return val.first; }] *)
Definition first : Key * T -> Key := fst.

Definition Table : Type := HashTable (Key * T).

(** [HashMap(expected_max_size = 4, hash, equal)] *)
Definition new (fuel : nat) (expected_max_size : Z) : result Table :=
  HashTable_new fuel expected_max_size.

(** [find(key)] forwards to the table. *)
Definition find (fuel : nat) (table : Table) (key : Key) : result Z :=
  find hash_ equal_ first fuel table key.

(** [contains(key)] is [find(key) != end()]. *)
Definition contains (fuel : nat) (table : Table) (key : Key) : result bool :=
  it <- find fuel table key ;;
  Done (negb (it =? end_ table)).

(** [emplace(args...)] and [insert(value)] forward to the table. *)
Definition emplace (fuel : nat) (table : Table) (value : Key * T)
  : result (Table * (Z * bool)) :=
  emplace hash_ equal_ first fuel table value.

(** [try_emplace(key, args...)] *)
Definition try_emplace (fuel : nat) (table : Table) (key : Key) (value : T)
  : result (Table * (Z * bool)) :=
  it <- find fuel table key ;;
  if negb (it =? end_ table) then Done (table, (it, false))
  else emplace fuel table (key, value).

(** [it->second], and the assignment [it->second = value]. *)
Definition second (table : Table) (it : Z) : result T :=
  e <- at_ (data_ table) it ;;
  v <- Element_data e ;;
  Done (snd v).

Definition assign_second (table : Table) (it : Z) (value : T)
  : result Table :=
  e <- at_ (data_ table) it ;;
  v <- Element_data e ;;
  Done {| data_ := <[Z.to_nat it := {| type := type e;
                                        ptr := Some (fst v, value) |}]>
                     (data_ table);
          size_ := size_ table;
          cells_cnt_ := cells_cnt_ table |}.

(** [insert_or_assign(key, value)] *)
Definition insert_or_assign (fuel : nat) (table : Table) (key : Key)
           (value : T) : result (Table * (Z * bool)) :=
  res <- try_emplace fuel table key value ;;
  if negb (snd (snd res))
  then
    table' <- assign_second (fst res) (fst (snd res)) value ;;
    Done (table', (fst (snd res), snd (snd res)))
  else Done res.

(** [at(key)] *)
Definition at_key (fuel : nat) (table : Table) (key : Key)
  : result (outcome T) :=
  it <- find fuel table key ;;
  if it =? end_ table then Done (Thrown (out_of_range "No such key"))
  else
    x <- second table it ;;
    Done (Returned x).

(** [operator[](key)] is [try_emplace(key).first->second]; [init] is the
    value-initialised [T] of [try_emplace(key)]. *)
Definition subscript (fuel : nat) (table : Table) (key : Key) (init : T)
  : result (Table * T) :=
  res <- try_emplace fuel table key init ;;
  x <- second (fst res) (fst (snd res)) ;;
  Done (fst res, x).

(** [erase(key)] forwards to the table. *)
Definition erase_key (fuel : nat) (table : Table) (key : Key)
  : result (Table * Z) :=
  erase_key hash_ equal_ first fuel table key.

End Adapter.

End HashMap.

(** ** The randomized queue (randomized_queue.h)

    The generator [rnd] is outside the embedding: each function takes the
    number that [rnd()] returns, and an iterator the order that
    [std::shuffle] leaves. *)

Module RandomizedQueue.

Section Queue.

Context {T : Type}.

(** [enqueue(item)] *)
Definition enqueue (data : list T) (item : T) : list T := data ++ [item].

(** [sample()]: [data[rnd() % data.size()]] *)
Definition sample (rnd : Z) (data : list T) : result T :=
  i <- umod rnd (Z.of_nat (length data)) ;;
  at_ data i.

(** [dequeue()]: swap the drawn element with the last, take the last. *)
Definition dequeue (rnd : Z) (data : list T) : result (list T * T) :=
  i <- umod rnd (Z.of_nat (length data)) ;;
  x <- at_ data i ;;
  y <- at_ data (Z.of_nat (length data) - 1) ;;
  let swapped :=
    <[Z.to_nat (Z.of_nat (length data) - 1) := x]> (<[Z.to_nat i := y]> data) in
  res <- at_ swapped (Z.of_nat (length swapped) - 1) ;;
  Done (take (length swapped - 1) swapped, res).

(** [random_iterator]: the shuffled order and the current position. *)
Record random_iterator : Type := {
  order : list Z;
  cur_pos : Z
}.

(** [begin()] and [end()], each with the order its own shuffle left. *)
Definition begin (shuffled : list Z) : random_iterator :=
  {| order := shuffled; cur_pos := 0 |}.

Definition end_it (shuffled : list Z) (data : list T) : random_iterator :=
  {| order := shuffled; cur_pos := Z.of_nat (length data) |}.

(** [operator*]: [it[order[cur_pos]]] *)
Definition deref (data : list T) (it : random_iterator) : result T :=
  i <- at_ (order it) (cur_pos it) ;;
  at_ data i.

(** [operator++] *)
Definition next (it : random_iterator) : random_iterator :=
  {| order := order it; cur_pos := cur_pos it + 1 |}.

(** [operator==] of two iterators of the same queue. *)
Definition iterator_eqb (a b : random_iterator) : bool :=
  (cur_pos a =? cur_pos b) &&
  ((cur_pos a =? Z.of_nat (length (order a))) ||
   bool_decide (order a = order b)).

(** The loop [for (auto it = begin(); it != end(); ++it)] collecting
    [*it]. *)
Fixpoint traverse_from (fuel : nat) (data : list T)
         (it last : random_iterator) : result (list T) :=
  match fuel with
  | O => OutOfFuel
  | S fuel' =>
      if iterator_eqb it last then Done []
      else
        x <- deref data it ;;
        rest <- traverse_from fuel' data (next it) last ;;
        Done (x :: rest)
  end.

Definition traverse (fuel : nat) (data : list T)
           (shuffled shuffled_end : list Z) : result (list T) :=
  traverse_from fuel data (begin shuffled) (end_it shuffled_end data).

End Queue.

End RandomizedQueue.

(** ** Vocabulary of the properties *)

Section Vocabulary.

Context {Key Value P : Type} `{CollisionPolicy P}.
Variable equal_ : Key -> Key -> bool.
Variable key_from_value_ : Value -> Key.

(** How the probe loop sees a slot for a key: it leaves at a FREE slot,
    returns at an Occupied slot with an equal key, and passes a Tombstone
    or an Occupied slot with another key. *)
Definition slot_free (e : Element Value) : bool :=
  ElementType_eqb (type e) FREE.

Definition slot_equal (key : Key) (e : Element Value) : bool :=
  match type e, ptr e with
  | DATA, Some v => equal_ (key_from_value_ v) key
  | _, _ => false
  end.

Definition slot_passed (key : Key) (e : Element Value) : bool :=
  match type e, ptr e with
  | DELETED, _ => true
  | DATA, Some v => negb (equal_ (key_from_value_ v) key)
  | _, _ => false
  end.

(** The slot examined at step [j] of the walk of iterator [it]. *)
Definition slot_at (data : list (Element Value)) (it : P) (j : nat)
  : result (Z * Element Value) :=
  i <- policy_deref (Nat.iter j policy_next it) ;;
  e <- at_ data i ;;
  Done (i, e).

(** Every step before [n] is passed. *)
Definition passes (data : list (Element Value)) (key : Key) (it : P)
           (n : nat) : Prop :=
  forall j, (j < n)%nat ->
    exists i e, slot_at data it j = Done (i, e) /\ slot_passed key e = true.

(** The walk of [it] stops at step [n] with outcome [r]: the first [n]
    slots are passed, and the next one is an equal key or FREE. *)
Definition stopped (data : list (Element Value)) (key : Key) (it : P)
           (n : nat) (r : probe_stop) : Prop :=
  passes data key it n /\
  exists i e, slot_at data it n = Done (i, e) /\
    ((r = AtEqual i /\ slot_equal key e = true) \/
     (r = AtFree i /\ slot_free e = true)).

(** An Occupied slot owns a value. *)
Definition owned (e : Element Value) : Prop :=
  type e = DATA -> ptr e <> None.

(** The live values of a slot array, in array order. *)
Definition live_value (e : Element Value) : option Value :=
  match type e with
  | DATA => ptr e
  | _ => None
  end.

Definition live (data : list (Element Value)) : list Value :=
  omap live_value data.

Definition has_free (data : list (Element Value)) : Prop :=
  exists i e, data !! i = Some e /\ type e = FREE.

Definition no_tombstone (data : list (Element Value)) : Prop :=
  Forall (fun e => type e <> DELETED) data.

(** [v]'s key compares unequal to the key of every value of [vs]. *)
Definition fresh_key (vs : list Value) (v : Value) : Prop :=
  forall u, In u vs ->
    equal_ (key_from_value_ u) (key_from_value_ v) = false /\
    equal_ (key_from_value_ v) (key_from_value_ u) = false.

(** No two values of the list have keys that compare equal. *)
Fixpoint unique_keys (vs : list Value) : Prop :=
  match vs with
  | [] => True
  | v :: rest => fresh_key rest v /\ unique_keys rest
  end.

(** A table of capacity [c] without tombstones whose live values are
    [vs], up to order, with both counters equal to their number. *)
Definition filling (c : Z) (t : HashTable Value) (vs : list Value) : Prop :=
  Z.of_nat (length (data_ t)) = c /\
  Forall owned (data_ t) /\
  no_tombstone (data_ t) /\
  Permutation (live (data_ t)) vs /\
  size_ t = Z.of_nat (length vs) /\
  cells_cnt_ t = Z.of_nat (length vs).

(** The invariants [rehash] relies on: Occupied slots own their value,
    [size_] counts them, and their keys are pairwise different. *)
Definition table_ok (t : HashTable Value) : Prop :=
  Forall owned (data_ t) /\
  size_ t = Z.of_nat (length (live (data_ t))) /\
  unique_keys (live (data_ t)).

End Vocabulary.

Definition is_power_of_two (n : Z) : Prop :=
  exists k, 0 <= k /\ n = 2 ^ k.

(** ** Invariants of a table in use *)

Section Invariants.

Context {Key Value P : Type} `{CollisionPolicy P}.
Variable hash_ : Key -> Z.
Variable equal_ : Key -> Key -> bool.
Variable key_from_value_ : Value -> Key.

(** The number of slots that are not FREE (Occupied or Tombstone). *)
Fixpoint used (data : list (Element Value)) : nat :=
  match data with
  | [] => 0
  | e :: rest => (if slot_free e then 0 else 1) + used rest
  end.

(** Every stored value is met by the walk that [find] makes for its key:
    the walk from the hash of the key passes slots with other keys and
    Tombstones only, and arrives at the slot of the value. *)
Definition chains (t : HashTable Value) : Prop :=
  forall (i : nat) (e : Element Value) (v : Value),
    data_ t !! i = Some e -> type e = DATA -> ptr e = Some v ->
    exists n : nat,
      (n < length (data_ t))%nat /\
      stopped equal_ key_from_value_ (data_ t) (key_from_value_ v)
              (policy_make (bucket_count t) (hash_of hash_ (key_from_value_ v)))
              n (AtEqual (Z.of_nat i)).

(** The state of a table built by the constructor, [emplace] and [erase]:
    Occupied slots own values with pairwise different keys, [size_] and
    [cells_cnt_] count the Occupied and the used slots, the capacity is a
    power of two from 4 to [2^23], at most half of the slots plus one are
    used, and every stored value is on the walk of its key. *)
Definition table_inv (t : HashTable Value) : Prop :=
  table_ok equal_ key_from_value_ t /\
  cells_cnt_ t = Z.of_nat (used (data_ t)) /\
  (exists k, 2 <= k <= 23 /\ bucket_count t = 2 ^ k) /\
  2 * cells_cnt_ t <= bucket_count t + 2 /\
  chains t.

(** What the table asks of the hasher and of the equality: equality is
    an equivalence, and equal keys have equal hashes. *)
Definition lawful_keys : Prop :=
  (forall k, equal_ k k = true) /\
  (forall a b, equal_ a b = equal_ b a) /\
  (forall a b c, equal_ a b = true -> equal_ b c = true ->
                 equal_ a c = true) /\
  (forall a b, equal_ a b = true -> hash_ a = hash_ b).

End Invariants.

(** The positions of the Occupied slots of [l], in array order, when [l]
    starts at position [i0]. *)
Fixpoint occupied_from {Value : Type} (l : list (Element Value)) (i0 : Z)
  : list Z :=
  match l with
  | [] => []
  | e :: l' =>
      match type e with
      | DATA => i0 :: occupied_from l' (i0 + 1)
      | _ => occupied_from l' (i0 + 1)
      end
  end.

(** The slot array after every Occupied slot at a position from [first]
    up to, not including, [last] has been erased. *)
Definition erase_between {Value : Type} (data : list (Element Value))
           (first last : Z) : list (Element Value) :=
  imap (fun (j : nat) (e : Element Value) =>
          if (first <=? Z.of_nat j) && (Z.of_nat j <? last)
             && ElementType_eqb (type e) DATA
          then Element_free e else e) data.

(** ** Concrete instances *)

Module Examples.

(** Keys are integers hashed to themselves (as [std::hash] does for the
    integer types in the common standard libraries). *)
Definition id_hash (k : Z) : Z := k.

(** A set of integers: the key is the value. *)
Definition set_key (v : Z) : Z := v.

(** A map from integers to strings: the key is the first component. *)
Definition map_key (v : Z * string) : Z := fst v.

Definition F {V : Type} : Element V := Element_default.
Definition D {V : Type} (v : V) : Element V := Element_of v.
Definition X {V : Type} : Element V := {| type := DELETED; ptr := None |}.

Definition table {V : Type} (slots : list (Element V)) (n c : Z)
  : HashTable V :=
  {| data_ := slots; size_ := n; cells_cnt_ := c |}.

(** The engine as a set of integers, with either policy. *)
Module Lin.
Definition emplace := @emplace Z Z LinearProbing _ id_hash Z.eqb set_key.
Definition insert_range :=
  @insert_range Z Z LinearProbing _ id_hash Z.eqb set_key.
Definition find := @find Z Z LinearProbing _ id_hash Z.eqb set_key.
Definition rehash := @rehash Z Z LinearProbing _ id_hash Z.eqb set_key.
Definition check_size :=
  @check_size Z Z LinearProbing _ id_hash Z.eqb set_key.
Definition erase_key :=
  @erase_key Z Z LinearProbing _ id_hash Z.eqb set_key.
Definition reserve := @reserve Z Z LinearProbing _ id_hash Z.eqb set_key.
Definition HashTable_of_list :=
  @HashTable_of_list Z Z LinearProbing _ id_hash Z.eqb set_key.
End Lin.

Module Quad.
Definition emplace :=
  @emplace Z Z QuadraticProbing _ id_hash Z.eqb set_key.
Definition insert_range :=
  @insert_range Z Z QuadraticProbing _ id_hash Z.eqb set_key.
Definition find := @find Z Z QuadraticProbing _ id_hash Z.eqb set_key.
End Quad.

(** The engine as a map from integers to strings, linear probing. *)
Module Map.
Definition insert_range :=
  @insert_range Z (Z * string) LinearProbing _ id_hash Z.eqb map_key.
Definition table_eq :=
  @table_eq Z (Z * string) LinearProbing _ id_hash Z.eqb map_key.
End Map.

Definition max_key : Z := 2 ^ 64 - 1.

(** Capacity 8 holding five keys; 9 sits in slot 1. *)
Definition five_of_eight : HashTable Z :=
  table [F; D 9; D 2; D 3; D 4; D 5; F; F] 5 5.

(** [five_of_eight] after the rehash to capacity 16; 9 sits in slot 9. *)
Definition five_of_sixteen : HashTable Z :=
  table ([F; F; D 2; D 3; D 4; D 5; F; F; F; D 9] ++ replicate 6 F) 5 5.

(** Capacity 10 after [rehash(10)]; 5 and [max_key] both start at slot 5. *)
Definition two_of_ten : HashTable Z :=
  table ([F; F; F; F; F; D 5; D max_key; F; F; F]) 2 2.

(** Capacity 8, quadratic probing, keys 0, 1 and 4. *)
Definition quad_three_of_eight : HashTable Z :=
  table [D 0; D 1; F; F; D 4; F; F; F] 3 3.

(** Capacity 8 with one erased key. *)
Definition one_tombstone : HashTable Z :=
  table [F; X; F; F; F; F; F; F] 0 1.

Definition empty_table (c : nat) : HashTable Z :=
  table (replicate c F) 0 0.

(** Two maps with the same key and different values. *)
Definition map_x : HashTable (Z * string) :=
  table ([F; D (1, "x"%string)] ++ replicate 14 F) 1 1.

Definition map_y : HashTable (Z * string) :=
  table ([F; D (1, "y"%string)] ++ replicate 14 F) 1 1.

End Examples.

(** ** Tactics for concrete tables *)

Ltac solve_owned :=
  repeat constructor; unfold owned; simpl; intros; discriminate.

Ltac solve_unique_keys :=
  simpl; unfold fresh_key; repeat split; intros; simpl in *;
  repeat match goal with
         | H : _ \/ _ |- _ => destruct H
         | H : False |- _ => destruct H
         end; subst; reflexivity.



(** * Properties *)

(** ** Arithmetic *)

Lemma wrap_range n : 0 <= wrap n < size_t_modulus.
Proof. unfold wrap, size_t_modulus. apply Z.mod_pos_bound. lia. Qed.

Lemma wrap_small n : 0 <= n < size_t_modulus -> wrap n = n.
Proof. unfold wrap. intros. by apply Z.mod_small. Qed.

Lemma float_of_size_exact n : n < 2 ^ 24 -> float_of_size n = inject_Z n.
Proof. unfold float_of_size. intros Hn. destruct (Z.ltb_spec n (2 ^ 24)); [done | lia]. Qed.

Lemma Qgtb_half a b :
  Qgtb (inject_Z a) (max_load_factor_ * inject_Z b) = (b <? 2 * a).
Proof.
  unfold Qgtb, Qle_bool, max_load_factor_. simpl.
  rewrite Pos.mul_1_r.
  destruct (Z.ltb_spec b (2 * a)); destruct (Z.leb_spec (a * 2) (1 * b * 1)); simpl; try reflexivity; lia.
Qed.

Lemma Qltb_double a b :
  Qltb (inject_Z a) (inject_Z b / max_load_factor_) = (a <? 2 * b).
Proof.
  unfold Qltb, Qle_bool, max_load_factor_. simpl.
  rewrite Pos.mul_1_r.
  destruct (Z.ltb_spec a (2 * b)); destruct (Z.leb_spec (b * 2 * 1) (a * 1)); simpl; try reflexivity; lia.
Qed.

Lemma size_of_float_double a :
  0 <= 2 * a < size_t_modulus ->
  size_of_float (inject_Z a / max_load_factor_) = Done (2 * a).
Proof.
  intros Ha. unfold size_of_float, max_load_factor_, Qfloor. simpl.
  rewrite Pos.mul_1_r, Z.div_1_r.
  replace (a * 2) with (2 * a) by lia.
  destruct (Z.leb_spec 0 (2 * a)); [| lia].
  destruct (Z.ltb_spec (2 * a) size_t_modulus); [| lia]. done.
Qed.


(** ** The probe walk *)

Section ProbeFacts.

Context {Key Value P : Type} `{CollisionPolicy P}.
Variable equal_ : Key -> Key -> bool.
Variable key_from_value_ : Value -> Key.

Local Abbreviation probe := (probe equal_ key_from_value_).
Local Abbreviation slot_equal := (slot_equal equal_ key_from_value_).
Local Abbreviation slot_passed := (slot_passed equal_ key_from_value_).
Local Abbreviation passes := (passes equal_ key_from_value_).
Local Abbreviation stopped := (stopped equal_ key_from_value_).

Implicit Types (data : list (Element Value)) (it : P) (key : Key)
         (e : Element Value).

Lemma slot_at_next data it j :
  slot_at data (policy_next it) j = slot_at data it (S j).
Proof. unfold slot_at. by rewrite Nat.iter_succ_r. Qed.

Lemma passes_next data key it n :
  passes data key it (S n) -> passes data key (policy_next it) n.
Proof.
  intros Hp j Hj. destruct (Hp (S j)) as (i & e & Hs & He); [lia |].
  exists i, e. by rewrite slot_at_next.
Qed.

Lemma slot_at_0 data it i e :
  slot_at data it 0 = Done (i, e) ->
  policy_deref it = Done i /\ at_ data i = Done e.
Proof.
  unfold slot_at. simpl. destruct (policy_deref it) as [i' | |]; simpl; try done.
  destruct (at_ data i') as [e' | |] eqn:Ha; simpl; try done.
  intros Heq. injection Heq as -> ->. by split.
Qed.

Lemma probe_step_passed fuel data key it i e :
  slot_at data it 0 = Done (i, e) ->
  slot_passed key e = true ->
  probe (S fuel) data key it
  = probe fuel data key (policy_next it).
Proof.
  intros [Hd Ha]%slot_at_0 Hp. simpl. rewrite Hd. simpl. rewrite Ha. simpl.
  unfold slot_passed in Hp. unfold Element_data.
  destruct (type e); try done.
  destruct (ptr e); try done. simpl.
  by destruct (equal_ _ _).
Qed.

Lemma probe_AtEqual data key n : forall fuel it i e,
  passes data key it n ->
  slot_at data it n = Done (i, e) ->
  slot_equal key e = true ->
  (n < fuel)%nat ->
  probe fuel data key it = Done (AtEqual i).
Proof.
  induction n as [| n IH]; intros fuel it i e Hp Hs He Hf.
  - destruct fuel as [| fuel]; [lia |].
    apply slot_at_0 in Hs as [Hd Ha]. simpl. rewrite Hd. simpl. rewrite Ha. simpl.
    unfold slot_equal in He. unfold Element_data.
    destruct (type e); try done. destruct (ptr e); try done. simpl.
    by rewrite He.
  - destruct fuel as [| fuel]; [lia |].
    destruct (Hp 0%nat) as (i0 & e0 & Hs0 & Hp0); [lia |].
    rewrite (probe_step_passed _ _ _ _ _ _ Hs0 Hp0).
    apply (IH fuel (policy_next it) i e); [by apply passes_next | by rewrite slot_at_next | done | lia].
Qed.

Lemma probe_AtFree data key n : forall fuel it i e,
  passes data key it n ->
  slot_at data it n = Done (i, e) ->
  slot_free e = true ->
  (n < fuel)%nat ->
  probe fuel data key it = Done (AtFree i).
Proof.
  induction n as [| n IH]; intros fuel it i e Hp Hs He Hf.
  - destruct fuel as [| fuel]; [lia |].
    apply slot_at_0 in Hs as [Hd Ha]. simpl. rewrite Hd. simpl. rewrite Ha. simpl.
    unfold slot_free in He. by destruct (type e).
  - destruct fuel as [| fuel]; [lia |].
    destruct (Hp 0%nat) as (i0 & e0 & Hs0 & Hp0); [lia |].
    rewrite (probe_step_passed _ _ _ _ _ _ Hs0 Hp0).
    apply (IH fuel (policy_next it) i e); [by apply passes_next | by rewrite slot_at_next | done | lia].
Qed.

Lemma passes_cons data key it n i e :
  slot_at data it 0 = Done (i, e) ->
  slot_passed key e = true ->
  passes data key (policy_next it) n ->
  passes data key it (S n).
Proof.
  intros Hs He Hp [| j] Hj; [by exists i, e |].
  destruct (Hp j) as (i' & e' & Hs' & He'); [lia |].
  exists i', e'. by rewrite <- slot_at_next.
Qed.

Lemma probe_Done_inv fuel : forall data key it r,
  probe fuel data key it = Done r ->
  exists n, (n < fuel)%nat /\ stopped data key it n r.
Proof.
  induction fuel as [| fuel IH]; intros data key it r Hr; [done |].
  simpl in Hr.
  destruct (policy_deref it) as [i | |] eqn:Hd; simpl in Hr; try done.
  destruct (at_ data i) as [e | |] eqn:Ha; simpl in Hr; try done.
  assert (Hs0 : slot_at data it 0 = Done (i, e)).
  { unfold slot_at. simpl. rewrite Hd. simpl. by rewrite Ha. }
  destruct (type e) eqn:Ht.
  - injection Hr as <-. exists 0%nat. split; [lia |]. split; [intros j Hj; lia |].
    exists i, e. split; [done |]. right. split; [done |].
    unfold slot_free. by rewrite Ht.
  - apply IH in Hr as (n & Hn & Hp & Hstop).
    exists (S n). split; [lia |]. split.
    + apply (passes_cons _ _ _ _ i e); [done | | done].
      unfold slot_passed. by rewrite Ht.
    + destruct Hstop as (i' & e' & Hs' & Hcase). exists i', e'.
      by rewrite <- slot_at_next.
  - unfold Element_data in Hr. destruct (ptr e) as [v |] eqn:Hv; simpl in Hr; try done.
    destruct (equal_ (key_from_value_ v) key) eqn:Heq.
    + injection Hr as <-. exists 0%nat. split; [lia |]. split; [intros j Hj; lia |].
      exists i, e. split; [done |]. left. split; [done |].
      unfold slot_equal. by rewrite Ht, Hv.
    + apply IH in Hr as (n & Hn & Hp & Hstop).
      exists (S n). split; [lia |]. split.
      * apply (passes_cons _ _ _ _ i e); [done | | done].
        unfold slot_passed. by rewrite Ht, Hv, Heq.
      * destruct Hstop as (i' & e' & Hs' & Hcase). exists i', e'.
        by rewrite <- slot_at_next.
Qed.

Lemma stopped_probe data key it n r fuel :
  stopped data key it n r -> (n < fuel)%nat ->
  probe fuel data key it = Done r.
Proof.
  intros (Hp & i & e & Hs & [[-> He] | [-> He]]) Hf.
  - by apply (probe_AtEqual data key n fuel it i e).
  - by apply (probe_AtFree data key n fuel it i e).
Qed.

Lemma probe_fuel_mono fuel fuel' data key it r :
  probe fuel data key it = Done r ->
  (fuel <= fuel')%nat ->
  probe fuel' data key it = Done r.
Proof.
  intros (n & Hn & Hst)%probe_Done_inv Hle.
  apply (stopped_probe data key it n); [done | lia].
Qed.

End ProbeFacts.

(** ** Indexing *)

Lemma at_Done_lookup {A : Type} (l : list A) (i : Z) (x : A) :
  at_ l i = Done x <-> 0 <= i /\ l !! Z.to_nat i = Some x.
Proof.
  unfold at_. destruct (Z.ltb_spec i 0).
  - split; [done | lia].
  - destruct (l !! Z.to_nat i) as [y |]; split; try done.
    + intros [= ->]. done.
    + intros [_ [= ->]]. done.
    + intros [_ ?]. done.
Qed.

Lemma at_in_range {A : Type} (l : list A) (i : Z) :
  0 <= i < Z.of_nat (length l) -> exists x, at_ l i = Done x.
Proof.
  intros Hi. destruct (lookup_lt_is_Some_2 l (Z.to_nat i)) as [x Hx]; [lia |].
  exists x. apply at_Done_lookup. split; [lia | done].
Qed.

Lemma slot_at_lookup {Value Q : Type} `{CollisionPolicy Q}
      (data : list (Element Value)) (it : Q) (j : nat) (i : Z)
      (e : Element Value) :
  slot_at data it j = Done (i, e) -> 0 <= i /\ data !! Z.to_nat i = Some e.
Proof.
  unfold slot_at. destruct (policy_deref _) as [i' | |]; simpl; try done.
  destruct (at_ data i') as [e' | |] eqn:Ha; simpl; try done.
  intros Heq. injection Heq as -> ->. by apply at_Done_lookup.
Qed.

(** ** The linear policy *)

Lemma wrap_add_l a b : wrap (wrap a + b) = wrap (a + b).
Proof. unfold wrap. apply Zplus_mod_idemp_l. Qed.

Lemma wrap_add_r a b : wrap (a + wrap b) = wrap (a + b).
Proof. unfold wrap. apply Zplus_mod_idemp_r. Qed.

Lemma linear_iter (s start : Z) (j : nat) :
  Nat.iter j policy_next (policy_make s start : LinearProbing)
  = {| lin_size := s; currentIndex := wrap (Z.of_nat j); lin_start := start |}.
Proof.
  induction j as [| j IH]; [reflexivity |].
  rewrite Nat.iter_succ, IH. simpl. f_equal.
  rewrite wrap_add_l. f_equal. lia.
Qed.

Lemma linear_deref (s start : Z) (j : nat) :
  s <> 0 ->
  policy_deref (Nat.iter j policy_next (policy_make s start : LinearProbing))
  = Done (wrap (start + Z.of_nat j) mod s).
Proof.
  intros Hs. rewrite linear_iter. simpl. unfold umod.
  destruct (Z.eqb_spec s 0); [done |]. by rewrite wrap_add_r.
Qed.

(** Every slot is a candidate of the linear walk. *)
Lemma linear_reaches (s start f : Z) :
  0 < s <= size_t_modulus -> 0 <= f < s ->
  exists j : nat, wrap (start + Z.of_nat j) mod s = f.
Proof.
  intros Hs Hf. exists (Z.to_nat ((f - start) mod size_t_modulus)).
  assert (Hm : 0 <= (f - start) mod size_t_modulus < size_t_modulus).
  { apply Z.mod_pos_bound. unfold size_t_modulus. lia. }
  rewrite Z2Nat.id by lia. unfold wrap.
  rewrite Zplus_mod_idemp_r. replace (start + (f - start)) with f by lia.
  rewrite (Z.mod_small f size_t_modulus) by lia.
  apply Z.mod_small. lia.
Qed.

(** From a start below the capacity, within [capacity] steps. *)
Lemma linear_reaches_within (s start f : Z) :
  0 < s -> 0 <= start -> start + s <= size_t_modulus -> 0 <= f < s ->
  exists j : nat, (j < Z.to_nat s)%nat /\ wrap (start + Z.of_nat j) mod s = f.
Proof.
  intros Hs Hstart Hsum Hf. exists (Z.to_nat ((f - start) mod s)).
  assert (Hm : 0 <= (f - start) mod s < s) by (apply Z.mod_pos_bound; lia).
  split; [lia |].
  rewrite Z2Nat.id by lia.
  rewrite wrap_small by lia.
  rewrite Zplus_mod_idemp_r. replace (start + (f - start)) with f by lia.
  apply Z.mod_small. lia.
Qed.

Section Termination.

Context {Key Value P : Type} `{CollisionPolicy P}.
Variable equal_ : Key -> Key -> bool.
Variable key_from_value_ : Value -> Key.

Local Abbreviation probe := (probe equal_ key_from_value_).
Local Abbreviation slot_equal := (slot_equal equal_ key_from_value_).
Local Abbreviation slot_passed := (slot_passed equal_ key_from_value_).
Local Abbreviation passes := (passes equal_ key_from_value_).
Local Abbreviation stopped := (stopped equal_ key_from_value_).

Implicit Types (data : list (Element Value)) (it : P) (key : Key)
         (e : Element Value).

Lemma slot_cases key e :
  owned e ->
  slot_free e = true \/ slot_equal key e = true \/ slot_passed key e = true.
Proof.
  unfold owned, slot_free, slot_equal, slot_passed.
  destruct (type e); simpl; intros Ho; [by left | by right; right |].
  destruct (ptr e) as [v |]; [| by destruct Ho].
  destruct (equal_ (key_from_value_ v) key); [right; by left | right; by right].
Qed.

(** If the walk meets a FREE slot at step [m], the probe loop stops at
    that step or before. *)
Lemma probe_stops_by data key m : forall it,
  (forall j, (j <= m)%nat ->
     exists i e, slot_at data it j = Done (i, e) /\ owned e) ->
  (exists i e, slot_at data it m = Done (i, e) /\ slot_free e = true) ->
  exists n r, (n <= m)%nat /\ stopped data key it n r.
Proof.
  induction m as [| m IH]; intros it Hall Hfree.
  - destruct Hfree as (i & e & Hs & He).
    exists 0%nat, (AtFree i). split; [lia |]. split; [intros j Hj; lia |].
    exists i, e. split; [done |]. by right.
  - destruct (Hall 0%nat) as (i0 & e0 & Hs0 & Ho0); [lia |].
    destruct (slot_cases key e0 Ho0) as [Hf | [Heq | Hp]].
    + exists 0%nat, (AtFree i0). split; [lia |]. split; [intros j Hj; lia |].
      exists i0, e0. split; [done |]. by right.
    + exists 0%nat, (AtEqual i0). split; [lia |]. split; [intros j Hj; lia |].
      exists i0, e0. split; [done |]. by left.
    + destruct (IH (policy_next it)) as (n & r & Hn & Hp' & Hstop).
      * intros j Hj. rewrite slot_at_next. apply Hall. lia.
      * by rewrite slot_at_next.
      * exists (S n), r. split; [lia |]. split.
        -- by apply (passes_cons _ _ _ _ _ _ i0 e0).
        -- destruct Hstop as (i & e & Hs & Hc). exists i, e.
           by rewrite <- slot_at_next.
Qed.

End Termination.

(** ** Slot arrays *)

Section SlotArrays.

Context {Value : Type}.
Implicit Types (data : list (Element Value)) (e : Element Value)
         (v : Value).

Lemma live_app data1 data2 : live (data1 ++ data2) = live data1 ++ live data2.
Proof. unfold live. apply omap_app. Qed.

Lemma live_replicate_free (n : nat) :
  live (replicate n (Element_default : Element Value)) = [].
Proof. induction n as [| n IH]; [done |]. simpl. exact IH. Qed.

Lemma live_In data (i : nat) e v :
  data !! i = Some e -> type e = DATA -> ptr e = Some v -> In v (live data).
Proof.
  intros Hl Ht Hp. apply list_elem_of_In. unfold live.
  apply list_elem_of_omap. exists e. split.
  - by apply list_elem_of_lookup_2 with i.
  - unfold live_value. by rewrite Ht.
Qed.

(** Storing a value in a FREE slot adds it to the live values. *)
Lemma live_insert_free data (i : nat) e v :
  data !! i = Some e -> type e = FREE ->
  Permutation (live (<[i := Element_of v]> data)) (v :: live data).
Proof.
  intros Hl Ht.
  assert (Hi : (i < length data)%nat) by (by apply lookup_lt_Some with e).
  rewrite insert_take_drop by done.
  rewrite <- (take_drop_middle data i e Hl) at 3.
  rewrite !live_app. simpl.
  unfold live_value. rewrite Ht.
  symmetry. apply Permutation_middle.
Qed.

Lemma owned_insert data (i : nat) v :
  Forall owned data -> Forall owned (<[i := Element_of v]> data).
Proof. intros Ho. apply Forall_insert; [done |]. by intros _. Qed.

Lemma no_tombstone_insert data (i : nat) v :
  no_tombstone data -> no_tombstone (<[i := Element_of v]> data).
Proof. intros Hn. apply Forall_insert; [done |]. done. Qed.

(** Without tombstones, fewer live values than slots leaves a FREE slot. *)
Lemma has_free_count data :
  Forall owned data -> no_tombstone data ->
  (length (live data) < length data)%nat -> has_free data.
Proof.
  induction data as [| e data IH]; intros Ho Hn Hlen; [simpl in Hlen; lia |].
  apply Forall_cons in Ho as [Ho1 Ho]. apply Forall_cons in Hn as [Hn1 Hn].
  destruct (type e) eqn:Ht.
  - exists 0%nat, e. done.
  - done.
  - destruct (ptr e) as [v |] eqn:Hp; [| by destruct (Ho1 Ht)].
    destruct IH as (i & e' & Hl & Ht'); [done | done | |].
    + assert (Hlive : live (e :: data) = v :: live data).
      { unfold live. simpl. unfold live_value at 1. by rewrite Ht, Hp. }
      rewrite Hlive in Hlen. simpl in Hlen. lia.
    + exists (S i), e'. done.
Qed.

Lemma live_length_le data : (length (live data) <= length data)%nat.
Proof.
  induction data as [| e data IH]; [done |].
  change (live (e :: data))
    with (match live_value e with
          | Some v => v :: live data
          | None => live data
          end).
  destruct (live_value e); simpl; lia.
Qed.

End SlotArrays.

(** ** [optimal_size] *)

Lemma land_pow2 (sz m : Z) :
  0 <= m -> Z.land sz (2 ^ m) = if Z.testbit sz m then 2 ^ m else 0.
Proof.
  intros Hm. apply Z.bits_inj'. intros n Hn.
  rewrite Z.land_spec, Z.pow2_bits_eqb by done.
  destruct (Z.eqb_spec m n) as [-> | Hne].
  - destruct (Z.testbit sz n) eqn:Hb; simpl.
    + rewrite Z.pow2_bits_eqb by done. by rewrite Z.eqb_refl.
    + by rewrite Z.bits_0.
  - rewrite andb_false_r. destruct (Z.testbit sz m).
    + rewrite Z.pow2_bits_eqb by done. symmetry. by apply Z.eqb_neq.
    + by rewrite Z.bits_0.
Qed.

Lemma optimal_size_loop_finds (sz : Z) :
  0 < sz ->
  forall (d : nat) (m : Z) (fuel : nat),
    m = Z.log2 sz + Z.of_nat d -> (d < fuel)%nat ->
    optimal_size_loop fuel sz (2 ^ m) = Done (2 ^ Z.log2 sz).
Proof.
  intros Hsz. pose proof (Z.log2_nonneg sz) as Hlog.
  induction d as [| d IH]; intros m fuel Hm Hfuel;
    (destruct fuel as [| fuel]; [lia |]); simpl.
  - rewrite land_pow2 by lia.
    replace m with (Z.log2 sz) by lia.
    rewrite Z.bit_log2 by done.
    destruct (Z.eqb_spec (2 ^ Z.log2 sz) 0) as [H0 |]; [| done].
    pose proof (Z.pow_pos_nonneg 2 (Z.log2 sz)). lia.
  - rewrite land_pow2 by lia.
    rewrite Z.bits_above_log2 by lia. simpl.
    rewrite Z.shiftr_div_pow2 by lia.
    replace (2 ^ m / 2 ^ 1) with (2 ^ (m - 1)).
    + apply IH; lia.
    + rewrite <- Z.pow_sub_r by lia. done.
Qed.

Lemma optimal_size_spec (fuel : nat) (sz : Z) :
  0 < sz < 2 ^ 63 -> (64 <= fuel)%nat ->
  optimal_size fuel sz = Done (2 ^ (Z.log2 sz + 1)).
Proof.
  intros Hsz Hfuel. unfold optimal_size.
  assert (Hlog : 0 <= Z.log2 sz < 63).
  { split; [apply Z.log2_nonneg |]. apply Z.log2_lt_pow2; lia. }
  replace (Z.shiftl 1 63) with (2 ^ 63) by reflexivity.
  rewrite (optimal_size_loop_finds sz ltac:(lia) (Z.to_nat (63 - Z.log2 sz)))
    by lia.
  simpl. f_equal. rewrite Z.shiftl_mul_pow2 by lia.
  rewrite Z.pow_add_r by lia.
  apply wrap_small. unfold size_t_modulus.
  assert (2 ^ Z.log2 sz <= 2 ^ 62) by (apply Z.pow_le_mono_r; lia).
  pose proof (Z.pow_pos_nonneg 2 (Z.log2 sz)). lia.
Qed.

(** [optimal_size(0)] never leaves its loop: no bit of 0 is set. *)
Lemma optimal_size_loop_zero (fuel : nat) :
  forall k, optimal_size_loop fuel 0 k = OutOfFuel.
Proof. induction fuel as [| fuel IH]; intros k; [done |]. simpl. apply IH. Qed.

Lemma HashTable_new_spec {Value : Type} (fuel : nat) (h : Z) :
  1 <= h < 2 ^ 24 -> (64 <= fuel)%nat ->
  HashTable_new (Value := Value) fuel h
  = Done {| data_ := fresh_slots (2 ^ (Z.log2 h + 2));
            size_ := 0; cells_cnt_ := 0 |}.
Proof.
  intros Hh Hfuel. unfold HashTable_new.
  rewrite float_of_size_exact by lia.
  rewrite size_of_float_double by (unfold size_t_modulus; lia). simpl.
  rewrite optimal_size_spec by lia. simpl.
  rewrite Z.log2_double by lia.
  replace (Z.succ (Z.log2 h) + 1) with (Z.log2 h + 2) by lia. reflexivity.
Qed.

(** * The operations of the table *)

(** ** [clear] *)

(** C10: [clear()] leaves an empty table of exactly 8 FREE slots, with
    [size == 0] and [cells == 0], whatever the capacity and contents of the
    table were. *)
Theorem clear_leaves_eight_free_slots {Value : Type} (t : HashTable Value) :
  bucket_count (clear t) = 8 /\
  size (clear t) = 0 /\
  cells_cnt_ (clear t) = 0 /\
  data_ (clear t) = replicate 8 Element_default /\
  begin (clear t) = end_ (clear t).
Proof. repeat split. Qed.

(** ** [emplace] *)

Section EmplaceSpec.

Context {Key Value P : Type} `{CollisionPolicy P}.
Variable hash_ : Key -> Z.
Variable equal_ : Key -> Key -> bool.
Variable key_from_value_ : Value -> Key.

Local Abbreviation probe := (probe equal_ key_from_value_).
Local Abbreviation stopped := (stopped equal_ key_from_value_).
Local Abbreviation emplace_with :=
  (emplace_with hash_ equal_ key_from_value_).
Local Abbreviation emplace := (emplace hash_ equal_ key_from_value_).
Local Abbreviation check_size := (check_size hash_ equal_ key_from_value_).

Implicit Types (t : HashTable Value) (value : Value) (key : Key).

Lemma emplace_with_stopped rec fuel t t1 value (n : nat) (r : probe_stop) :
  check_size_with rec t = Done t1 ->
  bucket_count t1 <> 0 ->
  stopped (data_ t1) (key_from_value_ value)
          (policy_make (bucket_count t1)
             (hash_of hash_ (key_from_value_ value) mod bucket_count t1))
          n r ->
  (n < fuel)%nat ->
  emplace_with rec fuel t value
  = Done (match r with
          | AtEqual i => (t1, (i, false))
          | AtFree i => (store t1 i (Element_of value), (i, true))
          end).
Proof.
  intros Hcheck Hbc Hst Hfuel. unfold emplace_with.
  rewrite Hcheck. simpl. unfold umod.
  destruct (Z.eqb_spec (bucket_count t1) 0) as [| _]; [done |]. simpl.
  rewrite (stopped_probe _ _ _ _ _ n r fuel Hst Hfuel). simpl.
  by destruct r.
Qed.

(** Conversely, a returning [emplace] has made such a walk. *)
Lemma emplace_with_Done_inv rec fuel t value t' (pos : Z) (inserted : bool) :
  emplace_with rec fuel t value = Done (t', (pos, inserted)) ->
  exists t1 (n : nat),
    check_size_with rec t = Done t1 /\ bucket_count t1 <> 0 /\
    (n < fuel)%nat /\
    ((stopped (data_ t1) (key_from_value_ value)
              (policy_make (bucket_count t1)
                 (hash_of hash_ (key_from_value_ value) mod bucket_count t1))
              n (AtEqual pos) /\ inserted = false /\ t' = t1) \/
     (stopped (data_ t1) (key_from_value_ value)
              (policy_make (bucket_count t1)
                 (hash_of hash_ (key_from_value_ value) mod bucket_count t1))
              n (AtFree pos) /\ inserted = true /\
      t' = store t1 pos (Element_of value))).
Proof.
  unfold emplace_with.
  destruct (check_size_with rec t) as [t1 | |]; simpl; try done.
  unfold umod.
  destruct (Z.eqb_spec (bucket_count t1) 0) as [| Hbc]; simpl; try done.
  destruct (probe _ _ _ _) as [r | |] eqn:Hp; simpl; try done.
  apply probe_Done_inv in Hp as (n & Hn & Hst).
  intros Hr. exists t1, n. repeat split; try done.
  destruct r as [i | i]; inversion Hr; subst.
  - right. done.
  - left. done.
Qed.

End EmplaceSpec.


(** ** [find] and [erase] *)

Section FindSpec.

Context {Key Value P : Type} `{CollisionPolicy P}.
Variable hash_ : Key -> Z.
Variable equal_ : Key -> Key -> bool.
Variable key_from_value_ : Value -> Key.

Local Abbreviation probe := (probe equal_ key_from_value_).
Local Abbreviation stopped := (stopped equal_ key_from_value_).
Local Abbreviation find := (find hash_ equal_ key_from_value_).
Local Abbreviation erase_key := (erase_key hash_ equal_ key_from_value_).
Local Abbreviation erase_key_loop :=
  (erase_key_loop hash_ equal_ key_from_value_).

Implicit Types (t : HashTable Value) (key : Key).

(** [find] walks the policy's sequence from the hash itself: it returns
    the first Occupied slot with an equal key, and the end when a FREE
    slot comes first; Tombstones are passed. *)
Lemma find_stopped fuel t key (n : nat) (r : probe_stop) :
  stopped (data_ t) key (policy_make (bucket_count t) (hash_of hash_ key))
          n r ->
  (n < fuel)%nat ->
  find fuel t key
  = Done (match r with AtEqual i => i | AtFree _ => end_ t end).
Proof.
  intros Hst Hfuel. unfold find.
  rewrite (stopped_probe _ _ _ _ _ n r fuel Hst Hfuel). simpl.
  by destruct r.
Qed.

Lemma find_Done_inv fuel t key (pos : Z) :
  find fuel t key = Done pos ->
  exists (n : nat) r,
    (n < fuel)%nat /\
    stopped (data_ t) key (policy_make (bucket_count t) (hash_of hash_ key))
            n r /\
    pos = match r with AtEqual i => i | AtFree _ => end_ t end.
Proof.
  unfold find. destruct (probe _ _ _ _) as [r | |] eqn:Hp; simpl; try done.
  apply probe_Done_inv in Hp as (n & Hn & Hst).
  intros Hr. exists n, r. split; [done |]. split; [done |].
  destruct r; by inversion Hr.
Qed.

Lemma erase_end_undefined t : erase t (end_ t) = Undefined.
Proof.
  unfold erase, iterator_next, end_, bucket_count.
  destruct (Z.ltb_spec (Z.of_nat (length (data_ t)))
                       (Z.of_nat (length (data_ t)))); [lia |].
  by rewrite andb_false_r.
Qed.

(** C7: for a key that is not in the table ([find] returns the end),
    [erase(key)] still runs the body of its [do ... while] once, on the
    end position: the step past the end and the access to
    [data_[capacity]] are undefined behaviour. It does not return 0 with
    the table unchanged. *)
Theorem erase_absent_key_undefined fuel t key :
  find fuel t key = Done (end_ t) ->
  erase_key fuel t key = Undefined.
Proof.
  intros Hfind. unfold erase_key. rewrite Hfind. simpl.
  destruct fuel as [| fuel]; [done |].
  simpl. by rewrite erase_end_undefined.
Qed.

End FindSpec.

(** On a capacity that divides [2^64] (a power of two), the linear walk of
    [find], from the hash, visits the slots of the walk of [emplace], from
    the hash modulo the capacity. *)
Lemma linear_walks_agree (s h : Z) (j : nat) :
  0 < s -> (s | size_t_modulus) ->
  wrap (h mod s + Z.of_nat j) mod s = wrap (h + Z.of_nat j) mod s.
Proof.
  intros Hs Hdiv. unfold wrap.
  rewrite !Z.mod_mod_divide by done.
  by rewrite Zplus_mod_idemp_l.
Qed.

(** The absent key 7 in a fresh table of 8 slots. *)
Lemma erase_absent_key_undefined_witness :
  Examples.Lin.erase_key 64 (Examples.empty_table 8) 7 = Undefined.
Proof.
  apply (erase_absent_key_undefined Examples.id_hash Z.eqb Examples.set_key
                                    64 (Examples.empty_table 8) 7).
  vm_compute. reflexivity.
Defined.

(** C2: after [rehash(10)] the capacity is 10. The keys 5 and [2^64 - 1]
    both start at slot 5, so [emplace] stores the second in slot 6; [find]
    starts from the hash itself, its second candidate wraps around to slot
    0, which is FREE, and it returns the end for a key that is stored. *)
Theorem find_misses_stored_key :
  (t <- HashTable_new 64 1 ;; t <- Examples.Lin.rehash 64 10 t ;;
   Examples.Lin.insert_range 64 t [5; Examples.max_key])
  = Done Examples.two_of_ten /\
  data_ Examples.two_of_ten !! 6%nat = Some (Examples.D Examples.max_key) /\
  forall fuel, (2 <= fuel)%nat ->
    Examples.Lin.find fuel Examples.two_of_ten Examples.max_key
    = Done (end_ Examples.two_of_ten).
Proof.
  split; [vm_compute; reflexivity |]. split; [reflexivity |].
  intros [| [| fuel]] Hf; [lia | lia |]. vm_compute. reflexivity.
Qed.

(** ** Equality *)

(** C8: two maps that give different values to the key 1 compare equal:
    [operator==] compares the sizes and looks up the keys of the left table
    in the right one; no value is compared. *)
Theorem map_equality_ignores_values :
  (t <- HashTable_new 64 4 ;;
   Examples.Map.insert_range 64 t [(1, "x"%string)]) = Done Examples.map_x /\
  (t <- HashTable_new 64 4 ;;
   Examples.Map.insert_range 64 t [(1, "y"%string)]) = Done Examples.map_y /\
  Examples.Map.table_eq 64 Examples.map_x Examples.map_y = Done true /\
  live (data_ Examples.map_x) <> live (data_ Examples.map_y).
Proof. vm_compute. repeat split; discriminate. Qed.

(** ** The load factor *)

(** C4: five keys inserted into a fresh table of 8 slots: the check before
    the fifth insertion sees 4 used cells, which is not more than
    [0.5 * 8], so no rehash happens, and the insertion completes with
    [size / bucket_count() = 5/8 > 0.5]. *)
Theorem load_factor_exceeded_after_insert :
  (t <- HashTable_new 64 2 ;;
   Examples.Lin.insert_range 64 t [9; 2; 3; 4; 5])
  = Done Examples.five_of_eight /\
  size Examples.five_of_eight = 5 /\
  bucket_count Examples.five_of_eight = 8 /\
  (max_load_factor_ < load_factor Examples.five_of_eight)%Q.
Proof. vm_compute. repeat split. Qed.

(** ** Termination of the probe loops *)

(** The candidates of the quadratic walk in 8 slots, from a start that is a
    multiple of 8: only the slots 0, 1 and 4. *)
Lemma quadratic_candidates_of_eight (b s : Z) :
  s mod 8 = 0 ->
  let i := wrap (s + wrap (b * b)) mod 8 in i = 0 \/ i = 1 \/ i = 4.
Proof.
  intros Hs. simpl. unfold wrap.
  assert (Hdiv : (8 | size_t_modulus)) by (exists (2 ^ 61); reflexivity).
  rewrite Z.mod_mod_divide by done.
  rewrite Zplus_mod, Hs, Z.mod_mod_divide by done.
  rewrite Z.add_0_l, Zmod_mod, Zmult_mod.
  assert (Hb : 0 <= b mod 8 < 8) by (apply Z.mod_pos_bound; lia).
  assert (Hcases : b mod 8 = 0 \/ b mod 8 = 1 \/ b mod 8 = 2 \/ b mod 8 = 3 \/
                   b mod 8 = 4 \/ b mod 8 = 5 \/ b mod 8 = 6 \/ b mod 8 = 7)
    by lia.
  destruct Hcases as [-> | [-> | [-> | [-> | [-> | [-> | [-> | ->]]]]]]];
    vm_compute; tauto.
Qed.

Lemma quadratic_probe_never_stops (fuel : nat) : forall b s,
  s mod 8 = 0 ->
  probe Z.eqb Examples.set_key fuel (data_ Examples.quad_three_of_eight) 8
        {| quad_size := 8; currentBase := b; quad_start := s |}
  = OutOfFuel.
Proof.
  induction fuel as [| fuel IH]; intros b s Hs; [done |].
  cbn [probe policy_deref policy_next QuadraticProbing_policy
       quad_size quad_start currentBase].
  unfold umod. change (8 =? 0) with false. cbv iota.
  destruct (quadratic_candidates_of_eight b s Hs) as [-> | [-> | ->]];
    simpl; by apply IH.
Qed.

(** C3, as stated, fails for the quadratic policy: a table of 8 slots
    reached by inserting the keys 0, 1 and 4 (power-of-two capacity,
    [size = cells = 3], distinct keys, five FREE slots) on which neither
    [find(8)] nor [emplace(8)] returns, whatever the fuel: the walk only
    visits the slots 0, 1 and 4. And [optimal_size(0)], reached by
    [reserve(0)] and by a constructor hint of 0, never leaves its loop,
    whatever the policy. *)
Lemma quadratic_probe_loops_diverge :
  (t <- HashTable_new 64 2 ;; Examples.Quad.insert_range 64 t [0; 1; 4])
  = Done Examples.quad_three_of_eight /\
  (forall fuel,
     Examples.Quad.find fuel Examples.quad_three_of_eight 8 = OutOfFuel) /\
  (forall fuel,
     Examples.Quad.emplace fuel Examples.quad_three_of_eight 8 = OutOfFuel) /\
  (forall fuel, optimal_size fuel 0 = OutOfFuel) /\
  (forall fuel,
     Examples.Lin.reserve fuel 0 Examples.five_of_eight = OutOfFuel).
Proof.
  split; [vm_compute; reflexivity |]. split; [| split; [| split]].
  - intros fuel. unfold Examples.Quad.find, find.
    change (policy_make (bucket_count Examples.quad_three_of_eight)
                        (hash_of Examples.id_hash 8))
      with {| quad_size := 8; currentBase := 0; quad_start := 8 |}.
    by rewrite quadratic_probe_never_stops.
  - intros fuel. unfold Examples.Quad.emplace, emplace, emplace_with.
    change (check_size_with _ Examples.quad_three_of_eight)
      with (Done Examples.quad_three_of_eight).
    cbn [rbind].
    change (umod _ _) with (Done 0). cbn [rbind].
    change (policy_make (bucket_count Examples.quad_three_of_eight) 0)
      with {| quad_size := 8; currentBase := 0; quad_start := 0 |}.
    change (Examples.set_key 8) with 8.
    by rewrite quadratic_probe_never_stops.
  - intros fuel. unfold optimal_size. by rewrite optimal_size_loop_zero.
  - intros fuel. unfold Examples.Lin.reserve, reserve.
    change (size_of_float _) with (Done 0). cbn [rbind].
    unfold optimal_size. by rewrite optimal_size_loop_zero.
Qed.

(** ** The engine with linear probing *)

Section LinearEngine.

Context {Key Value : Type}.
Variable hash_ : Key -> Z.
Variable equal_ : Key -> Key -> bool.
Variable key_from_value_ : Value -> Key.

Local Abbreviation probe :=
  (@probe Key Value LinearProbing _ equal_ key_from_value_).
Local Abbreviation stopped :=
  (@stopped Key Value LinearProbing _ equal_ key_from_value_).
Local Abbreviation slot_equal := (slot_equal equal_ key_from_value_).
Local Abbreviation fresh_key := (fresh_key equal_ key_from_value_).
Local Abbreviation unique_keys := (unique_keys equal_ key_from_value_).
Local Abbreviation table_ok := (table_ok equal_ key_from_value_).
Local Abbreviation emplace_with :=
  (@emplace_with Key Value LinearProbing _ hash_ equal_ key_from_value_).
Local Abbreviation insert_element_with :=
  (@insert_element_with Key Value LinearProbing _ hash_ equal_
                        key_from_value_).
Local Abbreviation rehash :=
  (@rehash Key Value LinearProbing _ hash_ equal_ key_from_value_).
Local Abbreviation check_size :=
  (@check_size Key Value LinearProbing _ hash_ equal_ key_from_value_).
Local Abbreviation emplace :=
  (@emplace Key Value LinearProbing _ hash_ equal_ key_from_value_).
Local Abbreviation find :=
  (@find Key Value LinearProbing _ hash_ equal_ key_from_value_).
Local Abbreviation insert_range_with :=
  (@insert_range_with Key Value LinearProbing _ hash_ equal_
                      key_from_value_).
Local Abbreviation insert_range :=
  (@insert_range Key Value LinearProbing _ hash_ equal_ key_from_value_).

Implicit Types (data : list (Element Value)) (key : Key)
         (e : Element Value) (t : HashTable Value) (v : Value).

Lemma linear_slot_at data (start : Z) (j : nat) :
  0 < Z.of_nat (length data) ->
  exists e,
    slot_at data (policy_make (Z.of_nat (length data)) start : LinearProbing) j
    = Done (wrap (start + Z.of_nat j) mod Z.of_nat (length data), e) /\
    data !! Z.to_nat (wrap (start + Z.of_nat j) mod Z.of_nat (length data))
    = Some e.
Proof.
  intros Hlen. unfold slot_at. rewrite linear_deref by lia. simpl.
  set (i := wrap (start + Z.of_nat j) mod Z.of_nat (length data)).
  assert (Hi : 0 <= i < Z.of_nat (length data)) by (apply Z.mod_pos_bound; lia).
  destruct (lookup_lt_is_Some_2 data (Z.to_nat i)) as [e He]; [lia |].
  exists e. split; [| done].
  assert (Ha : at_ data i = Done e) by (apply at_Done_lookup; split; [lia | done]).
  by rewrite Ha.
Qed.

Lemma linear_stops_by data key (start : Z) (j : nat) :
  0 < Z.of_nat (length data) ->
  Forall owned data ->
  (exists e, data !! Z.to_nat (wrap (start + Z.of_nat j)
                                 mod Z.of_nat (length data)) = Some e /\
             type e = FREE) ->
  exists n r, (n <= j)%nat /\
    stopped data key (policy_make (Z.of_nat (length data)) start) n r.
Proof.
  intros Hlen Ho (e & He & Ht).
  apply probe_stops_by.
  - intros j' _. destruct (linear_slot_at data start j' Hlen) as (e' & Hs & Hl).
    eexists _, e'. split; [exact Hs |].
    by apply (Forall_lookup_1 _ _ _ _ Ho Hl).
  - destruct (linear_slot_at data start j Hlen) as (e' & Hs & Hl).
    eexists _, e'. split; [exact Hs |].
    rewrite He in Hl. injection Hl as <-. unfold slot_free. by rewrite Ht.
Qed.

(** With a FREE slot in the array the linear walk stops, from any start. *)
Lemma linear_stops data key (start : Z) :
  0 < Z.of_nat (length data) <= size_t_modulus ->
  Forall owned data -> has_free data ->
  exists n r, stopped data key (policy_make (Z.of_nat (length data)) start) n r.
Proof.
  intros Hlen Ho (f & e & Hl & Ht).
  assert (Hf : (f < length data)%nat) by (by apply lookup_lt_Some with e).
  destruct (linear_reaches (Z.of_nat (length data)) start (Z.of_nat f))
    as [j Hj]; [lia | lia |].
  destruct (linear_stops_by data key start j) as (n & r & _ & Hst);
    [lia | done | | by exists n, r].
  exists e. rewrite Hj, Nat2Z.id. done.
Qed.

(** From a start below the capacity it stops within [capacity] steps. *)
Lemma linear_stops_within data key (start : Z) :
  0 <= start -> start + Z.of_nat (length data) <= size_t_modulus ->
  Forall owned data -> has_free data ->
  exists n r, (n < length data)%nat /\
    stopped data key (policy_make (Z.of_nat (length data)) start) n r.
Proof.
  intros Hstart Hsum Ho (f & e & Hl & Ht).
  assert (Hf : (f < length data)%nat) by (by apply lookup_lt_Some with e).
  destruct (linear_reaches_within (Z.of_nat (length data)) start (Z.of_nat f))
    as (j & Hjlt & Hj); [lia | lia | lia | lia |].
  destruct (linear_stops_by data key start j) as (n & r & Hn & Hst);
    [lia | done | | exists n, r; split; [lia | done]].
  exists e. rewrite Hj, Nat2Z.id. done.
Qed.


(** The load check passes when at most half of the slots are used. *)
Lemma check_size_with_pass rec t :
  cells_cnt_ t < 2 ^ 24 -> bucket_count t < 2 ^ 24 ->
  2 * cells_cnt_ t <= bucket_count t ->
  check_size_with rec t = Done t.
Proof.
  intros Hc Hb Hle. unfold check_size_with.
  rewrite !float_of_size_exact by done. rewrite Qgtb_half.
  destruct (Z.ltb_spec (bucket_count t) (2 * cells_cnt_ t)); [lia | done].
Qed.

(** [insert(Element&)] does to the table what [emplace] does. *)
Lemma insert_element_of_emplace rec fuel t v t' (i : Z) (b : bool) :
  emplace_with rec fuel t v = Done (t', (i, b)) ->
  insert_element_with rec fuel t (Element_of v) = Done t'.
Proof.
  unfold emplace_with, insert_element_with.
  destruct (check_size_with rec t) as [t1 | |]; simpl; try done.
  destruct (umod _ _) as [h | |]; simpl; try done.
  destruct (probe _ _ _ _) as [[j | j] | |]; simpl; try done.
  - intros Heq. by inversion Heq.
  - intros Heq. by inversion Heq.
Qed.

(** Inserting a value with a fresh key into a table without tombstones
    that is at most half full: no rehash (whatever stands in for
    [rehash], the outcome is the same), and the value lands in a FREE
    slot. *)
Lemma emplace_filling fuel (c : Z) t vs v :
  filling c t vs ->
  0 < c < 2 ^ 24 -> 2 * Z.of_nat (length vs) <= c ->
  fresh_key vs v ->
  (Z.to_nat c <= fuel)%nat ->
  exists i : Z,
    (forall rec, emplace_with rec fuel t v
                 = Done (store t i (Element_of v), (i, true))) /\
    (exists e, data_ t !! Z.to_nat i = Some e /\ type e = FREE) /\
    filling c (store t i (Element_of v)) (v :: vs).
Proof.
  intros (Hlen & Ho & Hnt & Hperm & Hsz & Hcells) Hc Hhalf Hfresh Hfuel.
  assert (Hbc : bucket_count t = c) by done.
  set (key := key_from_value_ v).
  set (start := hash_of hash_ key mod c).
  assert (Hstart : 0 <= start < c) by (apply Z.mod_pos_bound; lia).
  assert (Hfree : has_free (data_ t)).
  { apply has_free_count; [done | done |].
    rewrite (Permutation_length Hperm). lia. }
  destruct (linear_stops_within (data_ t) key start)
    as (n & r & Hn & Hst); [lia | | done | done |].
  { unfold size_t_modulus. lia. }
  rewrite Hlen in Hst.
  assert (Hprobe : probe fuel (data_ t) key (policy_make c start) = Done r).
  { apply (stopped_probe _ _ _ _ _ n); [done | lia]. }
  destruct Hst as (_ & i & e & Hs & [[-> Heq] | [-> Hf]]).
  - exfalso. apply slot_at_lookup in Hs as [Hi Hl].
    unfold slot_equal in Heq.
    destruct (type e) eqn:Ht; try done.
    destruct (ptr e) as [u |] eqn:Hp; try done.
    assert (Hin : In u vs).
    { apply (Permutation_in _ Hperm). by apply (live_In _ (Z.to_nat i) e). }
    destruct (Hfresh u Hin) as [Hne _]. unfold key in Heq. congruence.
  - apply slot_at_lookup in Hs as [Hi Hl].
    assert (Ht : type e = FREE).
    { unfold slot_free in Hf. by destruct (type e). }
    exists i. split; [| split; [by exists e |]].
    + intros rec. unfold emplace_with.
      rewrite check_size_with_pass by lia. simpl.
      unfold umod. rewrite Hbc.
      destruct (Z.eqb_spec c 0) as [| _]; [lia |]. simpl.
      simpl in Hprobe. fold key. fold start. by rewrite Hprobe.
    + unfold store. repeat split; simpl.
      * by rewrite length_insert.
      * by apply owned_insert.
      * by apply no_tombstone_insert.
      * rewrite (live_insert_free _ _ e) by done. by constructor.
      * rewrite Hsz. rewrite wrap_small; unfold size_t_modulus; lia.
      * rewrite Hcells. rewrite wrap_small; unfold size_t_modulus; lia.
Qed.

(** Re-inserting the Occupied slots of an old array into a table that has
    room for twice their number: every value is placed, none is dropped. *)
Lemma reinsert_filling fuel (c : Z) : forall old t vs,
  filling c t vs ->
  c < 2 ^ 24 ->
  Forall owned old ->
  2 * (Z.of_nat (length vs) + Z.of_nat (length (live old))) <= c ->
  unique_keys (live old) ->
  (forall w, In w (live old) -> fresh_key vs w) ->
  (Z.to_nat c <= fuel)%nat ->
  exists t',
    (forall rec,
       reinsert (insert_element_with rec fuel) old t = Done t') /\
    filling c t' (rev (live old) ++ vs).
Proof.
  induction old as [| el rest IH]; intros t vs Hfill Hc Ho Hroom Huniq Hfresh Hfuel.
  - exists t. done.
  - apply Forall_cons in Ho as [Hel Ho].
    destruct (type el) eqn:Ht.
    + assert (Hlive : live (el :: rest) = live rest).
      { unfold live. simpl. unfold live_value at 1. by rewrite Ht. }
      rewrite Hlive in *. simpl. rewrite Ht. by apply IH.
    + assert (Hlive : live (el :: rest) = live rest).
      { unfold live. simpl. unfold live_value at 1. by rewrite Ht. }
      rewrite Hlive in *. simpl. rewrite Ht. by apply IH.
    + destruct (ptr el) as [v |] eqn:Hp; [| by destruct (Hel Ht)].
      assert (Hlive : live (el :: rest) = v :: live rest).
      { unfold live. simpl. unfold live_value at 1. by rewrite Ht, Hp. }
      rewrite Hlive in *. simpl in Hroom. destruct Huniq as [Hv Huniq].
      assert (Hel_eq : el = Element_of v).
      { destruct el as [ty p]. simpl in *. by subst. }
      destruct (emplace_filling fuel c t vs v)
        as (i & Hemp & _ & Hfill'); [done | lia | lia | | done |].
      { apply Hfresh. by left. }
      destruct (IH (store t i (Element_of v)) (v :: vs))
        as (t' & Hre & Hfill''); [done | done | done | | done | | done |].
      { simpl. lia. }
      { intros w Hw u [<- | Hu].
        - destruct (Hv w Hw) as [H1 H2]. done.
        - apply Hfresh; [by right | done]. }
      exists t'. split.
      * intros rec. simpl. rewrite Ht.
        rewrite Hel_eq, (insert_element_of_emplace _ _ _ _ _ _ _ (Hemp rec)).
        simpl. apply Hre.
      * simpl. by rewrite <- app_assoc.
Qed.

Lemma fresh_slots_filling (c : Z) :
  0 <= c ->
  filling c {| data_ := fresh_slots c; size_ := 0; cells_cnt_ := 0 |}
          ([] : list Value).
Proof.
  intros Hc. unfold filling, fresh_slots. simpl.
  rewrite length_replicate, live_replicate_free.
  repeat split; try done.
  - lia.
  - apply Forall_replicate. by intros [=].
  - apply Forall_replicate. by intros [=].
Qed.

(** [rehash(n)] to another capacity: all live values are re-inserted into
    a fresh array of capacity [max n (size / 0.5)]. *)
Lemma rehash_filling fuel (n : Z) t :
  table_ok t ->
  0 <= n < 2 ^ 24 -> 2 * size_ t < 2 ^ 24 ->
  n <> bucket_count t ->
  (Z.to_nat (Z.max n (2 * size_ t)) < fuel)%nat ->
  exists t',
    rehash fuel n t = Done t' /\
    filling (Z.max n (2 * size_ t)) t' (rev (live (data_ t))).
Proof.
  intros (Ho & Hsz & Huniq) Hn Hsize Hne Hfuel.
  destruct fuel as [| fuel]; [lia |]. simpl.
  destruct (Z.eqb_spec n (bucket_count t)) as [| _]; [done |].
  unfold size.
  rewrite !float_of_size_exact by lia. rewrite Qltb_double.
  set (c := Z.max n (2 * size_ t)).
  assert (Hcount :
    (if n <? 2 * size_ t
     then size_of_float (inject_Z (size_ t) / max_load_factor_)
     else Done n) = Done c).
  { destruct (Z.ltb_spec n (2 * size_ t)).
    - rewrite size_of_float_double by (unfold size_t_modulus; lia).
      f_equal. unfold c. lia.
    - f_equal. unfold c. lia. }
  rewrite Hcount. simpl.
  destruct (reinsert_filling fuel c (data_ t)
              {| data_ := fresh_slots c; size_ := 0; cells_cnt_ := 0 |} [])
    as (t' & Hre & Hfill).
  - apply fresh_slots_filling. unfold c. lia.
  - unfold c. lia.
  - done.
  - simpl. unfold c. lia.
  - done.
  - intros w _ u [].
  - lia.
  - exists t'. rewrite app_nil_r in Hfill. split; [apply Hre | done].
Qed.

(** Inserting values with pairwise different, fresh keys while the table
    stays at most half full: no rehash, every value is placed. *)
Lemma insert_range_filling fuel (c : Z) : forall new t stored,
  filling c t stored ->
  0 < c < 2 ^ 24 ->
  2 * (Z.of_nat (length stored) + Z.of_nat (length new)) <= c ->
  unique_keys new ->
  (forall w, In w new -> fresh_key stored w) ->
  (Z.to_nat c <= fuel)%nat ->
  exists t',
    (forall rec, insert_range_with rec fuel t new = Done t') /\
    filling c t' (rev new ++ stored).
Proof.
  induction new as [| v rest IH]; intros t stored Hfill Hc Hroom Huniq Hfresh Hfuel.
  - exists t. done.
  - simpl in Hroom. destruct Huniq as [Hv Huniq].
    destruct (emplace_filling fuel c t stored v)
      as (i & Hemp & _ & Hfill'); [done | lia | lia | | done |].
    { apply Hfresh. by left. }
    destruct (IH (store t i (Element_of v)) (v :: stored))
      as (t' & Hre & Hfill''); [done | done | | done | | done |].
    { simpl. lia. }
    { intros w Hw u [<- | Hu].
      - destruct (Hv w Hw) as [H1 H2]. done.
      - apply Hfresh; [by right | done]. }
    exists t'. split.
    + intros rec. simpl. rewrite Hemp. simpl. apply Hre.
    + simpl. by rewrite <- app_assoc.
Qed.

(** From any start it stops within twice the capacity. *)
Lemma linear_stops_within_twice data key (start : Z) :
  0 <= start < size_t_modulus ->
  2 * Z.of_nat (length data) <= size_t_modulus ->
  Forall owned data -> has_free data ->
  exists n r, (n < 2 * length data)%nat /\
    stopped data key (policy_make (Z.of_nat (length data)) start) n r.
Proof.
  intros Hstart Hlen Ho Hfree.
  destruct (Z_le_gt_dec (start + Z.of_nat (length data)) size_t_modulus)
    as [Hle | Hgt].
  - destruct (linear_stops_within data key start) as (n & r & Hn & Hst);
      [lia | done | done | done |].
    exists n, r. split; [lia | done].
  - destruct Hfree as (f & e & Hl & Ht).
    assert (Hf : (f < length data)%nat) by (by apply lookup_lt_Some with e).
    set (j := Z.to_nat (size_t_modulus - start + Z.of_nat f)).
    destruct (linear_stops_by data key start j) as (n & r & Hn & Hst);
      [lia | done | | exists n, r; split; [lia | done]].
    exists e. unfold j. rewrite Z2Nat.id by lia.
    replace (start + (size_t_modulus - start + Z.of_nat f))
      with (Z.of_nat f + 1 * size_t_modulus) by lia.
    unfold wrap. rewrite Z.mod_add by (unfold size_t_modulus; lia).
    rewrite (Z.mod_small (Z.of_nat f) size_t_modulus) by lia.
    rewrite Z.mod_small by lia. by rewrite Nat2Z.id.
Qed.

(** The capacity check of [emplace] on a table that keeps its invariants:
    it returns, with a table that still has a FREE slot. *)
Lemma check_size_returns fuel t :
  table_ok t -> has_free (data_ t) ->
  0 < bucket_count t < 2 ^ 23 -> 0 <= cells_cnt_ t < 2 ^ 24 ->
  (2 * length (data_ t) < fuel)%nat ->
  exists t1,
    check_size fuel t = Done t1 /\
    Forall owned (data_ t1) /\ has_free (data_ t1) /\
    0 < bucket_count t1 < 2 ^ 24 /\
    bucket_count t1 <= 2 * bucket_count t.
Proof.
  intros Hok Hfree Hbc Hcells Hfuel.
  pose proof Hok as (Ho & Hsz & Huniq).
  pose proof (live_length_le (data_ t)) as Hlive.
  unfold check_size, check_size_with.
  rewrite !float_of_size_exact by lia. rewrite Qgtb_half.
  destruct (Z.ltb_spec (bucket_count t) (2 * cells_cnt_ t)).
  - rewrite size_of_float_double by (unfold size_t_modulus; lia). simpl.
    unfold bucket_count in *.
    destruct (rehash_filling fuel (2 * Z.of_nat (length (data_ t))) t)
      as (t1 & Hre & Hlen & Ho1 & Hnt1 & Hperm1 & _); [done | lia | lia | | |].
    { unfold bucket_count. lia. }
    { lia. }
    exists t1. split; [done |]. split; [done |].
    replace (Z.max (2 * Z.of_nat (length (data_ t))) (2 * size_ t))
      with (2 * Z.of_nat (length (data_ t))) in Hlen by lia.
    split; [| lia].
    apply has_free_count; [done | done |].
    rewrite (Permutation_length Hperm1), length_rev. lia.
  - exists t. repeat split; try done; lia.
Qed.

(** C3 (amended): with the linear policy the probe loops stop, for every
    capacity up to [2^63], every start and every slot array that has a
    FREE slot and whose Occupied slots own their value: the loop of
    [emplace] and [insert], which starts below the capacity, within
    [capacity] steps, and [find], which starts from the hash itself,
    within twice as many. On a table that keeps its invariants (below
    [2^23] slots) [emplace] as a whole returns, rehash included. *)
Theorem linear_probe_loops_terminate t key :
  0 < bucket_count t <= 2 ^ 63 ->
  Forall owned (data_ t) -> has_free (data_ t) ->
  (forall (start : Z) (fuel : nat),
     0 <= start < bucket_count t ->
     (length (data_ t) <= fuel)%nat ->
     exists r,
       probe fuel (data_ t) key (policy_make (bucket_count t) start)
       = Done r) /\
  (forall fuel : nat,
     (2 * length (data_ t) <= fuel)%nat ->
     exists pos, find fuel t key = Done pos) /\
  (forall (fuel : nat) v,
     table_ok t ->
     bucket_count t < 2 ^ 23 -> 0 <= cells_cnt_ t < 2 ^ 24 ->
     (2 * length (data_ t) < fuel)%nat ->
     exists t' pos inserted,
       emplace fuel t v = Done (t', (pos, inserted))).
Proof.
  intros Hbc Ho Hfree. split; [| split].
  - unfold bucket_count in *. intros start fuel Hstart Hfuel.
    destruct (linear_stops_within (data_ t) key start)
      as (n & r & Hn & Hst); [lia | unfold size_t_modulus; lia | done | done |].
    exists r. apply (stopped_probe _ _ _ _ _ n); [done | lia].
  - unfold bucket_count in *. intros fuel Hfuel.
    destruct (linear_stops_within_twice (data_ t) key (hash_of hash_ key))
      as (n & r & Hn & Hst);
      [apply wrap_range | unfold size_t_modulus; lia | done | done |].
    eexists. apply (find_stopped _ _ _ fuel t key n r); [done | lia].
  - intros fuel v Hok Hsmall Hcells Hfuel.
    destruct (check_size_returns fuel t)
      as (t1 & Hcheck & Ho1 & Hfree1 & Hbc1 & Hle1); [done | done | lia | done | done |].
    set (start := hash_of hash_ (key_from_value_ v) mod bucket_count t1).
    assert (Hstart : 0 <= start < bucket_count t1)
      by (apply Z.mod_pos_bound; lia).
    destruct (linear_stops_within (data_ t1) (key_from_value_ v) start)
      as (n & r & Hn & Hst); [lia | | done | done |].
    { unfold bucket_count in *. unfold size_t_modulus. lia. }
    assert (Hemp := emplace_with_stopped (P := LinearProbing)
                      hash_ equal_ key_from_value_
                      (rehash fuel) fuel t t1 v n r Hcheck).
    destruct r as [i | i]; eexists _, _, _; apply Hemp;
      try done; unfold bucket_count in *; lia.
Qed.


(** ** [rehash] *)

(** C5 (amended): [rehash(n)] to a capacity other than the current one
    (linear probing; a table whose Occupied slots own their value and
    hold pairwise different keys, and whose [size] counts them) keeps the
    live values, leaves no Tombstone and ends with [cells == size];
    [rehash(bucket_count())] returns at once. *)
Theorem rehash_preserves_content fuel (n : Z) t :
  table_ok t ->
  0 <= n < 2 ^ 24 -> 2 * size_ t < 2 ^ 24 ->
  n <> bucket_count t ->
  (Z.to_nat (Z.max n (2 * size_ t)) < fuel)%nat ->
  exists t',
    rehash fuel n t = Done t' /\
    Permutation (live (data_ t')) (live (data_ t)) /\
    no_tombstone (data_ t') /\
    cells_cnt_ t' = size_ t' /\
    size_ t' = size_ t.
Proof.
  intros Hok Hn Hsize Hne Hfuel.
  destruct (rehash_filling fuel n t Hok Hn Hsize Hne Hfuel)
    as (t' & Hre & _ & _ & Hnt & Hperm & Hsz & Hcells).
  exists t'. split; [done |]. split; [| split; [done |]; split].
  - rewrite Hperm. symmetry. apply Permutation_rev.
  - by rewrite Hsz, Hcells.
  - destruct Hok as (_ & Hsz0 & _). by rewrite Hsz, Hsz0, length_rev.
Qed.

(** ** The capacity *)

(** C6 (amended): after the constructor with an expected-size hint [h],
    [1 <= h < 2^24], the capacity is the power of two
    [2^(log2 h + 2)]: more than [h / 0.5] and at least 4. [rehash(n)] to
    another capacity does not round [n]. With linear probing, on a table
    whose Occupied slots own values with pairwise different keys that
    [size] counts, for [0 <= n < 2^24] and [2 * size < 2^24] (the bounds
    within which the float arithmetic of the clamp is exact): [rehash(n)]
    returns and the new capacity is [n], or [size / 0.5] when [n] is less
    than that, so that [size / capacity <= 0.5] afterwards. *)
Theorem capacity_after_constructor_and_rehash :
  (forall (fuel : nat) (h : Z),
     1 <= h < 2 ^ 24 -> (64 <= fuel)%nat ->
     exists t0 : HashTable Value,
       HashTable_new fuel h = Done t0 /\
       bucket_count t0 = 2 ^ (Z.log2 h + 2) /\
       is_power_of_two (bucket_count t0) /\
       4 <= bucket_count t0 /\
       2 * h < bucket_count t0) /\
  (forall (fuel : nat) (n : Z) t,
     table_ok t ->
     0 <= n < 2 ^ 24 -> 2 * size_ t < 2 ^ 24 ->
     n <> bucket_count t ->
     (Z.to_nat (Z.max n (2 * size_ t)) < fuel)%nat ->
     exists t',
       rehash fuel n t = Done t' /\
       bucket_count t' = Z.max n (2 * size_ t) /\
       2 * size_ t' <= bucket_count t').
Proof.
  split.
  - intros fuel h Hh Hfuel. eexists. split; [by apply HashTable_new_spec |].
    pose proof (Z.log2_nonneg h) as Hlog.
    assert (Hbc : bucket_count
                    ({| data_ := fresh_slots (2 ^ (Z.log2 h + 2));
                        size_ := 0; cells_cnt_ := 0 |} : HashTable Value)
                  = 2 ^ (Z.log2 h + 2)).
    { unfold bucket_count, fresh_slots. simpl.
      rewrite length_replicate, Z2Nat.id; [done |].
      apply Z.pow_nonneg. lia. }
    rewrite Hbc. split; [done |]. split; [| split].
    + exists (Z.log2 h + 2). split; [lia | done].
    + change 4 with (2 ^ 2). apply Z.pow_le_mono_r; lia.
    + destruct (Z.log2_spec h) as [_ Hlt]; [lia |].
      replace (Z.log2 h + 2) with (Z.succ (Z.log2 h) + 1) by lia.
      rewrite Z.pow_add_r by lia. lia.
  - intros fuel n t Hok Hn Hsize Hne Hfuel.
    destruct (rehash_filling fuel n t Hok Hn Hsize Hne Hfuel)
      as (t' & Hre & Hlen & _ & _ & _ & Hsz & _).
    destruct Hok as (_ & Hsz0 & _).
    exists t'. split; [done |]. split; [done |].
    unfold bucket_count. rewrite Hlen, Hsz, length_rev, <- Hsz0. lia.
Qed.

(** The constructor that sizes through [optimal_size], with hint 4: 16
    slots. Inserting five values with pairwise different keys triggers no
    rehash (the same table results whatever stands in for [rehash]). *)
Lemma sixteen_slots_five_distinct_keys
        (fuel : nat) (v1 v2 v3 v4 v5 : Value) :
  (64 <= fuel)%nat ->
  unique_keys [v1; v2; v3; v4; v5] ->
  exists t0 t5,
    HashTable_new fuel 4 = Done t0 /\
    bucket_count t0 = 16 /\
    insert_range fuel t0 [v1; v2; v3; v4; v5] = Done t5 /\
    (forall rec,
       insert_range_with rec fuel t0 [v1; v2; v3; v4; v5] = Done t5) /\
    bucket_count t5 = 16 /\
    size t5 = 5 /\
    cells_cnt_ t5 = 5 /\
    Permutation (live (data_ t5)) [v1; v2; v3; v4; v5].
Proof.
  intros Hfuel Huniq.
  exists {| data_ := fresh_slots 16; size_ := 0; cells_cnt_ := 0 |}.
  destruct (insert_range_filling fuel 16 [v1; v2; v3; v4; v5]
              {| data_ := fresh_slots 16; size_ := 0; cells_cnt_ := 0 |} [])
    as (t5 & Hins & Hlen & _ & _ & Hperm & Hsz & Hcells).
  - by apply fresh_slots_filling.
  - lia.
  - simpl. lia.
  - done.
  - intros w _ u [].
  - simpl. lia.
  - exists t5. split; [by apply (HashTable_new_spec fuel 4) |].
    split; [done |]. split; [apply Hins |]. split; [done |].
    split; [done |]. split; [done |]. split; [done |].
    rewrite Hperm. simpl. symmetry.
    apply (Permutation_rev [v1; v2; v3; v4; v5]).
Qed.


End LinearEngine.

(** ** The scenarios on concrete tables *)

Lemma five_of_eight_ok :
  table_ok Z.eqb Examples.set_key Examples.five_of_eight.
Proof.
  split; [solve_owned |]. split; [reflexivity |]. solve_unique_keys.
Qed.

(** The linear walks in the table of five keys in eight slots, and the
    insertion of a sixth key, which rehashes first. *)
Lemma linear_probe_loops_terminate_witness :
  (exists r,
     probe Z.eqb Examples.set_key 8 (data_ Examples.five_of_eight) 17
           (policy_make 8 1 : LinearProbing) = Done r) /\
  (exists pos, Examples.Lin.find 16 Examples.five_of_eight 17 = Done pos) /\
  (exists t' pos inserted,
     Examples.Lin.emplace 17 Examples.five_of_eight 17
     = Done (t', (pos, inserted))).
Proof.
  assert (Hbc : 0 < bucket_count Examples.five_of_eight <= 2 ^ 63)
    by (vm_compute; split; [reflexivity | discriminate]).
  assert (Ho : Forall owned (data_ Examples.five_of_eight)) by solve_owned.
  assert (Hfree : has_free (data_ Examples.five_of_eight))
    by (exists 0%nat, Examples.F; split; reflexivity).
  destruct (linear_probe_loops_terminate
              Examples.id_hash Z.eqb Examples.set_key
              Examples.five_of_eight 17 Hbc Ho Hfree)
    as (Hprobe & Hfind & Hemplace).
  split; [| split].
  - apply (Hprobe 1 8%nat); [vm_compute; split; [discriminate | reflexivity] |].
    simpl. lia.
  - apply (Hfind 16%nat). simpl. lia.
  - apply (Hemplace 17%nat 17).
    + exact five_of_eight_ok.
    + vm_compute. reflexivity.
    + vm_compute. split; [discriminate | reflexivity].
    + simpl. lia.
Defined.

(** C5, as stated, fails for [n = bucket_count()]: [rehash] returns at
    once, and the Tombstone left by an erased key stays, with
    [cells = 1] and [size = 0]. *)
Lemma rehash_same_capacity_keeps_tombstone :
  (t <- HashTable_new 64 2 ;; t <- Examples.Lin.insert_range 64 t [1] ;;
   r <- erase t 1 ;; Done (fst r)) = Done Examples.one_tombstone /\
  Examples.Lin.rehash 64 (bucket_count Examples.one_tombstone)
                      Examples.one_tombstone
  = Done Examples.one_tombstone /\
  data_ Examples.one_tombstone !! 1%nat = Some Examples.X /\
  cells_cnt_ Examples.one_tombstone = 1 /\
  size_ Examples.one_tombstone = 0.
Proof. vm_compute. repeat split. Qed.

(** Rehashing the table of five keys in eight slots to sixteen slots. *)
Lemma rehash_preserves_content_witness :
  exists t',
    Examples.Lin.rehash 64 16 Examples.five_of_eight = Done t' /\
    Permutation (live (data_ t')) (live (data_ Examples.five_of_eight)) /\
    no_tombstone (data_ t') /\
    cells_cnt_ t' = size_ t' /\
    size_ t' = size_ Examples.five_of_eight.
Proof.
  apply (rehash_preserves_content Examples.id_hash Z.eqb Examples.set_key
                                  64 16 Examples.five_of_eight).
  - exact five_of_eight_ok.
  - lia.
  - simpl. lia.
  - vm_compute. discriminate.
  - vm_compute. lia.
Defined.

(** C6, as stated, fails: the default hint 1 gives 4 slots;
    [rehash(10)] gives 10 slots, and so does the constructor from an
    initializer list with hint 5; 10 is no power of two. *)
Lemma capacity_four_then_ten :
  HashTable_new 64 1 = Done (Examples.empty_table 4) /\
  bucket_count (Examples.empty_table 4) = 4 /\
  Examples.Lin.rehash 64 10 (Examples.empty_table 4)
  = Done (Examples.empty_table 10) /\
  Examples.Lin.HashTable_of_list 64 [] 5 = Done (Examples.empty_table 10) /\
  bucket_count (Examples.empty_table 10) = 10 /\
  ~ is_power_of_two 10.
Proof.
  split; [vm_compute; reflexivity |]. split; [reflexivity |].
  split; [vm_compute; reflexivity |]. split; [vm_compute; reflexivity |].
  split; [reflexivity |].
  intros (k & Hk & Hpow).
  destruct (Z_lt_le_dec k 4) as [Hlt | Hge].
  - assert (Hcases : k = 0 \/ k = 1 \/ k = 2 \/ k = 3) by lia.
    destruct Hcases as [-> | [-> | [-> | ->]]]; discriminate.
  - assert (2 ^ 4 <= 2 ^ k) by (apply Z.pow_le_mono_r; lia). lia.
Qed.

(** The constructor with hint 4, and [rehash(10)] of a fresh table of 4
    slots. *)
Lemma capacity_after_constructor_and_rehash_witness :
  (exists t0 : HashTable Z,
     HashTable_new 64 4 = Done t0 /\
     bucket_count t0 = 2 ^ (Z.log2 4 + 2) /\
     is_power_of_two (bucket_count t0) /\
     4 <= bucket_count t0 /\
     2 * 4 < bucket_count t0) /\
  (exists t',
     Examples.Lin.rehash 64 10 (Examples.empty_table 4) = Done t' /\
     bucket_count t' = Z.max 10 (2 * size_ (Examples.empty_table 4)) /\
     2 * size_ t' <= bucket_count t').
Proof.
  destruct (capacity_after_constructor_and_rehash
              (Value := Z) Examples.id_hash Z.eqb Examples.set_key)
    as [Hnew Hrehash].
  split.
  - apply Hnew; lia.
  - apply Hrehash.
    + split; [solve_owned |]. split; [reflexivity | exact I].
    + lia.
    + simpl. lia.
    + vm_compute. discriminate.
    + vm_compute. lia.
Defined.


(** * Tables in use *)

(** ** Walks in an updated slot array *)

Section WalkFacts.

Context {Key Value P : Type} `{CollisionPolicy P}.
Variable equal_ : Key -> Key -> bool.
Variable key_from_value_ : Value -> Key.

Local Abbreviation slot_equal := (slot_equal equal_ key_from_value_).
Local Abbreviation slot_passed := (slot_passed equal_ key_from_value_).
Local Abbreviation passes := (passes equal_ key_from_value_).
Local Abbreviation stopped := (stopped equal_ key_from_value_).

Implicit Types (data : list (Element Value)) (it : P) (key : Key)
         (e x : Element Value).

Lemma passed_not_stop key e :
  slot_passed key e = true -> slot_equal key e = false /\ slot_free e = false.
Proof.
  unfold slot_passed, slot_equal, slot_free.
  destruct (type e); simpl; try done.
  destruct (ptr e); try done. by destruct (equal_ _ _).
Qed.

Lemma equal_not_free key e :
  slot_equal key e = true -> slot_free e = false.
Proof. unfold slot_equal, slot_free. by destruct (type e). Qed.

(** The first stop of a walk is determined. *)
Lemma stopped_unique data key it (n n' : nat) (r r' : probe_stop) :
  stopped data key it n r -> stopped data key it n' r' -> n = n' /\ r = r'.
Proof.
  intros (Hp & i & e & Hs & Hr) (Hp' & i' & e' & Hs' & Hr').
  assert (Hn : n = n').
  { destruct (Nat.lt_trichotomy n n') as [Hlt | [Heq | Hgt]]; [| done |];
      exfalso.
    - destruct (Hp' n Hlt) as (i0 & e0 & Hs0 & Hpass).
      rewrite Hs in Hs0. injection Hs0 as <- <-.
      apply passed_not_stop in Hpass as [Hne Hnf].
      destruct Hr as [[_ Heq] | [_ Hf]]; congruence.
    - destruct (Hp n' Hgt) as (i0 & e0 & Hs0 & Hpass).
      rewrite Hs' in Hs0. injection Hs0 as <- <-.
      apply passed_not_stop in Hpass as [Hne Hnf].
      destruct Hr' as [[_ Heq] | [_ Hf]]; congruence. }
  subst n'. split; [done |].
  rewrite Hs in Hs'. injection Hs' as <- <-.
  destruct Hr as [[-> Heq] | [-> Hf]], Hr' as [[-> Heq'] | [-> Hf']]; try done.
  - apply equal_not_free in Heq. congruence.
  - apply equal_not_free in Heq'. congruence.
Qed.

(** The slot a step examines after one slot of the array is replaced. *)
Lemma slot_at_insert data it (j p : nat) (i : Z) e x :
  slot_at data it j = Done (i, e) ->
  slot_at (<[p := x]> data) it j
  = Done (i, if decide (Z.to_nat i = p) then x else e).
Proof.
  intros Hs. pose proof (slot_at_lookup _ _ _ _ _ Hs) as [Hi Hl].
  unfold slot_at in *.
  destruct (policy_deref _) as [i' | |]; simpl in *; try done.
  destruct (at_ data i') as [e' | |] eqn:Ha; simpl in *; try done.
  injection Hs as -> ->.
  assert (Ha' : at_ (<[p := x]> data) i
                = Done (if decide (Z.to_nat i = p) then x else e)).
  { apply at_Done_lookup. split; [done |].
    destruct (decide (Z.to_nat i = p)) as [<- | Hne].
    - apply list_lookup_insert_eq. by apply lookup_lt_Some with e.
    - by rewrite list_lookup_insert_ne. }
  by rewrite Ha'.
Qed.

(** Replacing a slot that a walk does not visit up to its stop leaves the
    walk as it is. *)
Lemma stopped_insert_other data key it (n p : nat) (r : probe_stop) x :
  stopped data key it n r ->
  (forall (j : nat) i e, (j <= n)%nat ->
     slot_at data it j = Done (i, e) -> Z.to_nat i <> p) ->
  stopped (<[p := x]> data) key it n r.
Proof.
  intros (Hp & i & e & Hs & Hr) Hother. split.
  - intros j Hj. destruct (Hp j Hj) as (i0 & e0 & Hs0 & Hpass).
    exists i0, e0. split; [| done].
    rewrite (slot_at_insert _ _ _ p _ _ x Hs0).
    destruct (decide (Z.to_nat i0 = p)) as [Heq | _]; [| done].
    destruct (Hother j i0 e0 ltac:(lia) Hs0 Heq).
  - exists i, e. split; [| done].
    rewrite (slot_at_insert _ _ _ p _ _ x Hs).
    destruct (decide (Z.to_nat i = p)) as [Heq | _]; [| done].
    destruct (Hother n i e ltac:(lia) Hs Heq).
Qed.

(** A walk that stops at an equal key has seen no FREE slot. *)
Lemma stopped_equal_not_free data key it (n : nat) (i0 : Z) :
  stopped data key it n (AtEqual i0) ->
  forall (j : nat) i e, (j <= n)%nat ->
    slot_at data it j = Done (i, e) -> slot_free e = false.
Proof.
  intros (Hp & i1 & e1 & Hs1 & Hr) j i e Hj Hs.
  destruct (Nat.eq_dec j n) as [-> | Hne].
  - rewrite Hs1 in Hs. injection Hs as <- <-.
    destruct Hr as [[_ Heq] | [[=] _]]. by apply equal_not_free in Heq.
  - destruct (Hp j ltac:(lia)) as (i2 & e2 & Hs2 & Hpass).
    rewrite Hs in Hs2. injection Hs2 as <- <-.
    by apply passed_not_stop in Hpass as [_ ?].
Qed.

(** Storing into a FREE slot keeps every walk that stops at an equal key. *)
Lemma stopped_equal_store data key it (n p : nat) (i0 : Z) e0 x :
  data !! p = Some e0 -> type e0 = FREE ->
  stopped data key it n (AtEqual i0) ->
  stopped (<[p := x]> data) key it n (AtEqual i0).
Proof.
  intros Hl Ht Hst. apply stopped_insert_other; [done |].
  intros j i e Hj Hs Heq.
  pose proof (stopped_equal_not_free _ _ _ _ _ Hst j i e Hj Hs) as Hnf.
  apply slot_at_lookup in Hs as [_ Hl']. rewrite Heq, Hl in Hl'.
  injection Hl' as <-. unfold slot_free in Hnf. by rewrite Ht in Hnf.
Qed.

(** The walk that ended at the FREE slot where a value is stored now ends
    there at an equal key. *)
Lemma stopped_free_store data key it (n : nat) (i : Z) v :
  stopped data key it n (AtFree i) ->
  equal_ (key_from_value_ v) key = true ->
  stopped (<[Z.to_nat i := Element_of v]> data) key it n (AtEqual i).
Proof.
  intros (Hp & i1 & e1 & Hs1 & Hr) Heq.
  destruct Hr as [[[=] _] | [[= <-] Hf]].
  pose proof (slot_at_lookup _ _ _ _ _ Hs1) as [Hi Hl].
  split.
  - intros j Hj. destruct (Hp j Hj) as (i0 & e0 & Hs0 & Hpass).
    exists i0, e0. split; [| done].
    rewrite (slot_at_insert _ _ _ (Z.to_nat i) _ _ (Element_of v) Hs0).
    destruct (decide (Z.to_nat i0 = Z.to_nat i)) as [Hsame | _]; [| done].
    apply slot_at_lookup in Hs0 as [_ Hl0]. rewrite Hsame, Hl in Hl0.
    injection Hl0 as <-. apply passed_not_stop in Hpass as [_ Hnf]. congruence.
  - exists i, (Element_of v). split.
    + rewrite (slot_at_insert _ _ _ (Z.to_nat i) _ _ (Element_of v) Hs1).
      by destruct (decide (Z.to_nat i = Z.to_nat i)).
    + left. split; [done |]. unfold slot_equal. simpl. exact Heq.
Qed.

(** Replacing a slot by one that the walk passes keeps the walk, if the
    walk does not stop at that slot. *)
Lemma stopped_insert_passed data key it (n p : nat) (r : probe_stop) x :
  stopped data key it n r ->
  slot_passed key x = true ->
  (forall i e, slot_at data it n = Done (i, e) -> Z.to_nat i <> p) ->
  stopped (<[p := x]> data) key it n r.
Proof.
  intros (Hp & i & e & Hs & Hr) Hx Hlast. split.
  - intros j Hj. destruct (Hp j Hj) as (i0 & e0 & Hs0 & Hpass).
    eexists i0, _. split; [apply (slot_at_insert _ _ _ p _ _ x Hs0) |].
    by destruct (decide (Z.to_nat i0 = p)).
  - exists i, e. split; [| done].
    rewrite (slot_at_insert _ _ _ p _ _ x Hs).
    destruct (decide (Z.to_nat i = p)) as [Heq | _]; [| done].
    destruct (Hlast i e Hs Heq).
Qed.

End WalkFacts.

(** ** Counting slots *)

Section Counting.

Context {Key Value : Type}.
Variable equal_ : Key -> Key -> bool.
Variable key_from_value_ : Value -> Key.

Local Abbreviation fresh_key := (fresh_key equal_ key_from_value_).
Local Abbreviation unique_keys := (unique_keys equal_ key_from_value_).

Implicit Types (data : list (Element Value)) (e : Element Value)
         (v : Value).

Lemma used_app data1 data2 :
  used (data1 ++ data2) = (used data1 + used data2)%nat.
Proof. induction data1 as [| e data1 IH]; simpl; [done |]. rewrite IH. lia. Qed.

Lemma used_le_length data : (used data <= length data)%nat.
Proof.
  induction data as [| e data IH]; simpl; [done |].
  destruct (slot_free e); lia.
Qed.

Lemma used_replicate_free (n : nat) :
  used (replicate n (Element_default : Element Value)) = 0%nat.
Proof. induction n as [| n IH]; [done |]. simpl. exact IH. Qed.

(** Replacing the slot [p]: the count changes by the two slots' kinds. *)
Lemma used_insert data (p : nat) e x :
  data !! p = Some e ->
  (used (<[p := x]> data) + (if slot_free e then 0 else 1)
   = used data + (if slot_free x then 0 else 1))%nat.
Proof.
  intros Hl.
  assert (Hp : (p < length data)%nat) by (by apply lookup_lt_Some with e).
  rewrite insert_take_drop by done.
  rewrite <- (take_drop_middle data p e Hl) at 3.
  rewrite !used_app. simpl. lia.
Qed.

Lemma has_free_used data : (used data < length data)%nat -> has_free data.
Proof.
  induction data as [| e data IH]; simpl; [lia |]. intros Hlt.
  destruct (slot_free e) eqn:Hf.
  - exists 0%nat, e. split; [done |]. unfold slot_free in Hf.
    by destruct (type e).
  - destruct IH as (i & e' & Hl & Ht); [lia |]. by exists (S i), e'.
Qed.

Lemma live_le_used data : (length (live data) <= used data)%nat.
Proof.
  induction data as [| e data IH]; [done |].
  change (live (e :: data))
    with (match live_value e with
          | Some v => v :: live data
          | None => live data
          end).
  simpl. unfold live_value, slot_free.
  destruct (type e); simpl; try lia. destruct (ptr e); simpl; lia.
Qed.

Lemma used_no_tombstone data :
  Forall owned data -> no_tombstone data -> used data = length (live data).
Proof.
  induction data as [| e data IH]; intros Ho Hn; [done |].
  apply Forall_cons in Ho as [Ho1 Ho]. apply Forall_cons in Hn as [Hn1 Hn].
  change (live (e :: data))
    with (match live_value e with
          | Some v => v :: live data
          | None => live data
          end).
  simpl. unfold live_value, slot_free. rewrite IH by done.
  destruct (type e) eqn:Ht; simpl; try done.
  unfold owned in Ho1. destruct (ptr e); [done | by destruct (Ho1 Ht)].
Qed.

(** Erasing an Occupied slot removes its value from the live values. *)
Lemma live_insert_erased data (p : nat) e v x :
  data !! p = Some e -> type e = DATA -> ptr e = Some v ->
  live_value x = None ->
  Permutation (live data) (v :: live (<[p := x]> data)).
Proof.
  intros Hl Ht Hp Hx.
  assert (Hlt : (p < length data)%nat) by (by apply lookup_lt_Some with e).
  rewrite insert_take_drop by done.
  rewrite <- (take_drop_middle data p e Hl) at 1.
  rewrite !live_app.
  change (live (e :: drop (S p) data)) with
    (match live_value e with
     | Some v => v :: live (drop (S p) data)
     | None => live (drop (S p) data) end).
  change (live (x :: drop (S p) data)) with
    (match live_value x with
     | Some v => v :: live (drop (S p) data)
     | None => live (drop (S p) data) end).
  rewrite Hx. unfold live_value. rewrite Ht, Hp.
  symmetry. apply Permutation_middle.
Qed.

Lemma fresh_key_perm (l l' : list Value) v :
  Permutation l l' -> fresh_key l v -> fresh_key l' v.
Proof.
  intros Hperm Hf u Hu. apply Hf.
  by apply (Permutation_in _ (Permutation_sym Hperm)).
Qed.

(** Pairwise different keys do not depend on the order of the values. *)
Lemma unique_keys_perm (l l' : list Value) :
  Permutation l l' -> unique_keys l -> unique_keys l'.
Proof.
  induction 1 as [| x l l' Hperm IH | x y l | l l' l'' _ IH1 _ IH2]; simpl.
  - done.
  - intros [Hx Hu]. split; [by apply (fresh_key_perm l) | by apply IH].
  - intros [Hy [Hx Hu]]. split; [| split; [| done]].
    + intros u [<- | Hin].
      * destruct (Hy x ltac:(by left)) as [H1 H2]. done.
      * by apply Hx.
    + intros u Hin. apply Hy. by right.
  - intros Hu. by apply IH2, IH1.
Qed.

Lemma unique_keys_remove (l l' : list Value) v :
  Permutation l (v :: l') -> unique_keys l -> unique_keys l' /\ fresh_key l' v.
Proof.
  intros Hperm Hu. apply (unique_keys_perm _ _ Hperm) in Hu as [Hv Hu]. done.
Qed.

End Counting.

(** Walks that examine the same slots stop alike. *)
Lemma stopped_ext {Key Value P : Type} `{CollisionPolicy P}
      (equal_ : Key -> Key -> bool) (key_from_value_ : Value -> Key)
      (data : list (Element Value)) (key : Key) (it it' : P)
      (n : nat) (r : probe_stop) :
  (forall j, slot_at data it j = slot_at data it' j) ->
  stopped equal_ key_from_value_ data key it n r ->
  stopped equal_ key_from_value_ data key it' n r.
Proof.
  intros Hext (Hp & i & e & Hs & Hr). split.
  - intros j Hj. destruct (Hp j Hj) as (i0 & e0 & Hs0 & Hpass).
    exists i0, e0. by rewrite <- Hext.
  - exists i, e. by rewrite <- Hext.
Qed.


(** ** The invariants, with linear probing *)

Section LinearInvariant.

Context {Key Value : Type}.
Variable hash_ : Key -> Z.
Variable equal_ : Key -> Key -> bool.
Variable key_from_value_ : Value -> Key.

Local Abbreviation probe :=
  (@probe Key Value LinearProbing _ equal_ key_from_value_).
Local Abbreviation stopped :=
  (@stopped Key Value LinearProbing _ equal_ key_from_value_).
Local Abbreviation slot_equal := (slot_equal equal_ key_from_value_).
Local Abbreviation slot_passed := (slot_passed equal_ key_from_value_).
Local Abbreviation fresh_key := (fresh_key equal_ key_from_value_).
Local Abbreviation unique_keys := (unique_keys equal_ key_from_value_).
Local Abbreviation table_ok := (table_ok equal_ key_from_value_).
Local Abbreviation chains :=
  (@chains Key Value LinearProbing _ hash_ equal_ key_from_value_).
Local Abbreviation table_inv :=
  (@table_inv Key Value LinearProbing _ hash_ equal_ key_from_value_).
Local Abbreviation lawful_keys := (lawful_keys hash_ equal_).
Local Abbreviation emplace_with :=
  (@emplace_with Key Value LinearProbing _ hash_ equal_ key_from_value_).
Local Abbreviation insert_element_with :=
  (@insert_element_with Key Value LinearProbing _ hash_ equal_
                        key_from_value_).
Local Abbreviation rehash :=
  (@rehash Key Value LinearProbing _ hash_ equal_ key_from_value_).
Local Abbreviation check_size :=
  (@check_size Key Value LinearProbing _ hash_ equal_ key_from_value_).
Local Abbreviation emplace :=
  (@emplace Key Value LinearProbing _ hash_ equal_ key_from_value_).
Local Abbreviation find :=
  (@find Key Value LinearProbing _ hash_ equal_ key_from_value_).

Implicit Types (data : list (Element Value)) (key : Key)
         (e : Element Value) (t : HashTable Value) (v u : Value).

Lemma pow2_divides_modulus (k : Z) :
  0 <= k <= 64 -> (2 ^ k | size_t_modulus).
Proof.
  intros Hk. exists (2 ^ (64 - k)). unfold size_t_modulus.
  rewrite <- Z.pow_add_r by lia. f_equal. lia.
Qed.

(** On a capacity that divides [2^64] the walk from the hash and the walk
    from the hash modulo the capacity examine the same slots. *)
Lemma linear_slot_at_agree data (h : Z) (j : nat) :
  0 < Z.of_nat (length data) ->
  (Z.of_nat (length data) | size_t_modulus) ->
  slot_at data (policy_make (Z.of_nat (length data))
                            (h mod Z.of_nat (length data)) : LinearProbing) j
  = slot_at data (policy_make (Z.of_nat (length data)) h : LinearProbing) j.
Proof.
  intros Hlen Hdiv. unfold slot_at.
  rewrite !linear_deref by lia. by rewrite linear_walks_agree.
Qed.

Lemma linear_stopped_agree data key (h : Z) (n : nat) (r : probe_stop) :
  0 < Z.of_nat (length data) ->
  (Z.of_nat (length data) | size_t_modulus) ->
  stopped data key (policy_make (Z.of_nat (length data))
                                (h mod Z.of_nat (length data))) n r <->
  stopped data key (policy_make (Z.of_nat (length data)) h) n r.
Proof.
  intros Hlen Hdiv. split; apply stopped_ext; intros j.
  - by apply linear_slot_at_agree.
  - symmetry. by apply linear_slot_at_agree.
Qed.

Lemma In_live data u :
  In u (live data) ->
  exists (i : nat) e, data !! i = Some e /\ type e = DATA /\ ptr e = Some u.
Proof.
  intros Hin. apply list_elem_of_In in Hin. unfold live in Hin.
  apply list_elem_of_omap in Hin as (e & He & Hv).
  apply list_elem_of_lookup in He as [i Hi].
  exists i, e. split; [done |]. unfold live_value in Hv.
  destruct (type e); try done.
Qed.

(** A walk for [key] that reaches a FREE slot proves that no stored key
    equals [key]: an equal key would have the same hash, hence be met by
    this walk before any FREE slot. *)
Lemma absent_of_walk t key (n : nat) (i : Z) :
  lawful_keys -> chains t ->
  stopped (data_ t) key (policy_make (bucket_count t) (hash_of hash_ key))
          n (AtFree i) ->
  forall u, In u (live (data_ t)) ->
    equal_ (key_from_value_ u) key = false /\
    equal_ key (key_from_value_ u) = false.
Proof.
  intros (Hrefl & Hsym & Htrans & Hhash) Hch Hst u Hu.
  assert (Hne : equal_ (key_from_value_ u) key = false).
  { destruct (equal_ (key_from_value_ u) key) eqn:Heq; [exfalso | done].
    apply In_live in Hu as (iu & eu & Hl & Ht & Hp).
    destruct (Hch iu eu u Hl Ht Hp) as (nu & _ & Hstu).
    unfold hash_of in Hstu. rewrite (Hhash _ _ Heq) in Hstu.
    fold (hash_of hash_ key) in Hstu.
    destruct Hst as (Hpass & i1 & e1 & Hs1 & Hr1).
    destruct Hr1 as [[[=] _] | [_ Hfree]].
    destruct (Nat.le_gt_cases n nu) as [Hle | Hgt].
    - pose proof (stopped_equal_not_free _ _ _ _ _ _ _ Hstu n i1 e1 Hle Hs1).
      congruence.
    - destruct Hstu as (_ & i2 & e2 & Hs2 & Hr2).
      destruct (Hpass nu Hgt) as (i3 & e3 & Hs3 & Hp3).
      rewrite Hs2 in Hs3. injection Hs3 as <- <-.
      destruct Hr2 as [[[= <-] _] | [[=] _]].
      apply slot_at_lookup in Hs2 as [_ Hl2]. rewrite Nat2Z.id, Hl in Hl2.
      injection Hl2 as <-.
      unfold slot_passed in Hp3. rewrite Ht, Hp, Heq in Hp3. done. }
  split; [done |]. by rewrite Hsym.
Qed.

Lemma bucket_count_store t (i : Z) e :
  bucket_count (store t i e) = bucket_count t.
Proof. unfold bucket_count, store. simpl. by rewrite length_insert. Qed.

(** The probe phase of [emplace] on a table that keeps its invariants and
    is at most half used: no rehash; either the key is met and nothing
    changes, or no stored key equals it and the value is stored in a FREE
    slot. The invariants hold afterwards and the walk of [find] for the key
    ends at the returned position. *)
Lemma place_inv fuel t v :
  lawful_keys -> table_inv t ->
  2 * cells_cnt_ t <= bucket_count t ->
  (length (data_ t) <= fuel)%nat ->
  exists (pos : Z) (inserted : bool) t',
    (forall rec, emplace_with rec fuel t v = Done (t', (pos, inserted))) /\
    table_inv t' /\
    bucket_count t' = bucket_count t /\
    (exists n : nat,
       (n < length (data_ t'))%nat /\
       stopped (data_ t') (key_from_value_ v)
               (policy_make (bucket_count t')
                            (hash_of hash_ (key_from_value_ v)))
               n (AtEqual pos)) /\
    ((inserted = true /\ t' = store t pos (Element_of v) /\
      (exists e, data_ t !! Z.to_nat pos = Some e /\ type e = FREE) /\
      fresh_key (live (data_ t)) v /\
      Permutation (live (data_ t')) (v :: live (data_ t))) \/
     (inserted = false /\ t' = t)).
Proof.
  intros Hlaw Hinv Hhalf Hfuel.
  pose proof Hinv as
    ((Ho & Hsz & Huniq) & Hcells & (k & Hk & Hbc) & Hload & Hch).
  pose proof Hlaw as (Hrefl & Hsym & Htrans & Hhash).
  assert (Hpow : 4 <= 2 ^ k <= 2 ^ 23).
  { split; [change 4 with (2 ^ 2) |]; apply Z.pow_le_mono_r; lia. }
  assert (Hlenbc : Z.of_nat (length (data_ t)) = 2 ^ k) by done.
  assert (Hdiv : (Z.of_nat (length (data_ t)) | size_t_modulus)).
  { rewrite Hlenbc. apply pow2_divides_modulus. lia. }
  assert (Hfree : has_free (data_ t)).
  { apply has_free_used. unfold bucket_count in *. lia. }
  set (key := key_from_value_ v).
  set (start := hash_of hash_ key mod Z.of_nat (length (data_ t))).
  assert (Hstart : 0 <= start < Z.of_nat (length (data_ t)))
    by (apply Z.mod_pos_bound; lia).
  destruct (linear_stops_within equal_ key_from_value_ (data_ t) key start)
    as (n & r & Hn & Hst); [lia | unfold size_t_modulus; lia | done | done |].
  assert (Hraw : stopped (data_ t) key
                   (policy_make (Z.of_nat (length (data_ t)))
                                (hash_of hash_ key)) n r).
  { apply linear_stopped_agree; [lia | done | done]. }
  assert (Hemp : forall rec,
             emplace_with rec fuel t v
             = Done (match r with
                     | AtEqual i => (t, (i, false))
                     | AtFree i => (store t i (Element_of v), (i, true))
                     end)).
  { intros rec.
    apply (emplace_with_stopped (P := LinearProbing) hash_ equal_
             key_from_value_ rec fuel t t v n r).
    - apply check_size_with_pass; unfold bucket_count in *; lia.
    - unfold bucket_count. lia.
    - exact Hst.
    - lia. }
  destruct r as [i | i].
  - (* stored in a FREE slot *)
    pose proof Hst as (_ & i1 & e & Hs & [[[=] _] | [[= <-] Hf]]).
    apply slot_at_lookup in Hs as [Hi Hl].
    assert (Ht : type e = FREE).
    { unfold slot_free in Hf. by destruct (type e). }
    assert (Hfresh : fresh_key (live (data_ t)) v).
    { intros u Hu. by apply (absent_of_walk t key n i). }
    assert (Hperm : Permutation (live (data_ (store t i (Element_of v))))
                                (v :: live (data_ t))).
    { unfold store. simpl. by apply (live_insert_free _ _ e). }
    assert (Hused : used (data_ (store t i (Element_of v)))
                    = S (used (data_ t))).
    { unfold store. simpl.
      pose proof (used_insert (data_ t) (Z.to_nat i) e (Element_of v) Hl) as Hu.
      rewrite Hf in Hu. simpl in Hu. lia. }
    pose proof (used_le_length (data_ t)) as Hul.
    pose proof (live_le_used (data_ t)) as Hlu.
    exists i, true, (store t i (Element_of v)).
    split; [exact Hemp |]. split; [| split; [apply bucket_count_store |]].
    + split; [split; [| split] | split; [| split; [| split]]].
      * unfold store. simpl. by apply owned_insert.
      * rewrite (Permutation_length Hperm). unfold store. simpl.
        rewrite Hsz. rewrite wrap_small; unfold size_t_modulus; lia.
      * apply (unique_keys_perm _ _ _ _ (Permutation_sym Hperm)). done.
      * rewrite Hused. unfold store. simpl. rewrite Hcells.
        rewrite wrap_small; unfold size_t_modulus; lia.
      * exists k. by rewrite bucket_count_store.
      * rewrite bucket_count_store. unfold store. simpl.
        rewrite wrap_small; unfold size_t_modulus; lia.
      * intros i' e' v' Hl' Ht' Hp'. rewrite bucket_count_store.
        unfold store, bucket_count in *. simpl in *. rewrite length_insert.
        destruct (decide (i' = Z.to_nat i)) as [-> | Hne].
        -- rewrite list_lookup_insert_eq in Hl'
             by (by apply lookup_lt_Some with e).
           injection Hl' as <-. simpl in Hp'. injection Hp' as <-.
           exists n. split; [done |]. rewrite Z2Nat.id by done.
           apply stopped_free_store; [exact Hraw | apply Hrefl].
        -- rewrite list_lookup_insert_ne in Hl' by done.
           destruct (Hch i' e' v' Hl' Ht' Hp') as (n' & Hn' & Hst').
           exists n'. split; [done |].
           by apply (stopped_equal_store _ _ _ _ _ _ _ _ e).
    + split.
      * exists n. rewrite bucket_count_store. unfold store, bucket_count.
        simpl. rewrite length_insert. split; [done |].
        apply stopped_free_store; [exact Hraw | apply Hrefl].
      * left. split; [done |]. split; [done |]. split; [by exists e |]. done.
  - exists i, false, t. split; [exact Hemp |]. split; [done |].
    split; [done |]. split; [by exists n | by right].
Qed.

(** The slot where a walk stops at an equal key. *)
Lemma stopped_equal_slot data key (it : LinearProbing) (n : nat) (i : Z) :
  stopped data key it n (AtEqual i) ->
  exists e u, 0 <= i /\ data !! Z.to_nat i = Some e /\ type e = DATA /\
              ptr e = Some u /\ equal_ (key_from_value_ u) key = true.
Proof.
  intros (_ & i1 & e & Hs & [[[= <-] Heq] | [[=] _]]).
  apply slot_at_lookup in Hs as [Hi Hl].
  unfold slot_equal in Heq.
  destruct (type e) eqn:Ht; try done.
  destruct (ptr e) as [u |] eqn:Hp; try done.
  by exists e, u.
Qed.

(** A freshly allocated slot array of a power-of-two capacity. *)
Lemma fresh_table_inv (m : Z) :
  2 <= m <= 23 ->
  table_inv {| data_ := fresh_slots (2 ^ m); size_ := 0; cells_cnt_ := 0 |}.
Proof.
  intros Hm.
  assert (Hpow : 0 < 2 ^ m) by (apply Z.pow_pos_nonneg; lia).
  unfold table_inv, table_ok, bucket_count, fresh_slots. simpl.
  rewrite length_replicate, live_replicate_free, used_replicate_free. simpl.
  split; [split; [| done] |].
  { apply Forall_replicate. by intros [=]. }
  split; [done |]. split; [exists m; split; [done | lia] |].
  split; [lia |].
  intros i e v Hl Ht Hp. simpl in Hl.
  apply lookup_replicate in Hl as [-> _]. done.
Qed.

(** The re-insertion loop of [rehash] into a table that keeps its
    invariants and has room for all the values. *)
Lemma reinsert_inv fuel : forall old t,
  lawful_keys -> table_inv t -> Forall owned old ->
  2 * (cells_cnt_ t + Z.of_nat (length (live old))) <= bucket_count t ->
  unique_keys (live old) ->
  (forall w, In w (live old) -> fresh_key (live (data_ t)) w) ->
  (length (data_ t) <= fuel)%nat ->
  exists t',
    (forall rec, reinsert (insert_element_with rec fuel) old t = Done t') /\
    table_inv t' /\ bucket_count t' = bucket_count t /\
    Permutation (live (data_ t')) (rev (live old) ++ live (data_ t)) /\
    cells_cnt_ t' = cells_cnt_ t + Z.of_nat (length (live old)) /\
    (no_tombstone (data_ t) -> no_tombstone (data_ t')).
Proof.
  induction old as [| el rest IH]; intros t Hlaw Hinv Ho Hroom Hu Hfr Hfuel.
  { exists t. simpl. split; [done |]. split; [done |]. split; [done |].
    split; [done |]. split; [lia | done]. }
  apply Forall_cons in Ho as [Ho1 Ho].
  destruct (type el) eqn:Ht.
  - assert (Hlive : live (el :: rest) = live rest).
    { unfold live. simpl. unfold live_value. by rewrite Ht. }
    rewrite Hlive in *. simpl. rewrite Ht. by apply IH.
  - assert (Hlive : live (el :: rest) = live rest).
    { unfold live. simpl. unfold live_value. by rewrite Ht. }
    rewrite Hlive in *. simpl. rewrite Ht. by apply IH.
  - destruct (ptr el) as [v |] eqn:Hp; [| by destruct (Ho1 Ht)].
    assert (Hel : el = Element_of v).
    { destruct el. simpl in *. by subst. }
    assert (Hlive : live (el :: rest) = v :: live rest).
    { unfold live. simpl. unfold live_value. by rewrite Ht, Hp. }
    rewrite Hlive in *. simpl in Hu, Hroom. destruct Hu as [Hv Hu].
    pose proof Hinv as (_ & Hcells & _ & _ & _).
    destruct (place_inv fuel t v Hlaw Hinv) as
      (pos & ins & t1 & Hemp & Hinv1 & Hbc1 & (n & Hn & Hst) & Hcase);
      [lia | done |].
    destruct Hcase as
      [(-> & -> & Hslot & Hfresh & Hperm) | (-> & ->)]; cycle 1.
    { exfalso.
      apply stopped_equal_slot in Hst as (e & u & Hi & Hl & Hte & Hpe & Heq).
      destruct (Hfr v (or_introl eq_refl) u (live_In _ _ _ _ Hl Hte Hpe)).
      congruence. }
    assert (Hc1 : cells_cnt_ (store t pos (Element_of v)) = cells_cnt_ t + 1).
    { unfold store. simpl.
      pose proof (used_le_length (data_ t)).
      rewrite wrap_small; [done |].
      destruct Hinv as (_ & _ & (k & Hk & Hbc) & _ & _).
      assert (2 ^ k <= 2 ^ 23) by (apply Z.pow_le_mono_r; lia).
      unfold size_t_modulus, bucket_count in *. lia. }
    destruct (IH (store t pos (Element_of v))) as
      (t' & Hre & Hinv' & Hbc' & Hperm' & Hc' & Hnt'); try done.
    + rewrite Hc1, Hbc1. lia.
    + intros w Hw. apply (fresh_key_perm _ _ _ _ _ (Permutation_sym Hperm)).
      intros u [<- | Hu'].
      * destruct (Hv w Hw). done.
      * by apply (Hfr w (or_intror Hw)).
    + unfold store. simpl. by rewrite length_insert.
    + exists t'.
      split; [| split; [done | split; [congruence | split; [| split]]]].
      * intros rec. simpl. rewrite Ht.
        rewrite Hel at 1.
        rewrite (insert_element_of_emplace hash_ equal_ key_from_value_ _ _ _ _
                   _ _ _ (Hemp rec)). simpl. apply Hre.
      * rewrite Hperm', Hperm. simpl. rewrite <- app_assoc. simpl.
        done.
      * rewrite Hc', Hc1. simpl length. lia.
      * intros Hnt. apply Hnt'. unfold store. simpl.
        by apply no_tombstone_insert.
Qed.

(** [rehash] to a power-of-two capacity with room for the live values
    builds a table that keeps the invariants. *)
Lemma rehash_inv fuel (m : Z) t :
  lawful_keys -> table_ok t ->
  2 <= m <= 23 -> 2 * size_ t <= 2 ^ m -> 2 ^ m <> bucket_count t ->
  (Z.to_nat (2 ^ m) < fuel)%nat ->
  exists t',
    rehash fuel (2 ^ m) t = Done t' /\
    table_inv t' /\ bucket_count t' = 2 ^ m /\
    Permutation (live (data_ t')) (live (data_ t)) /\
    size_ t' = size_ t /\ cells_cnt_ t' = size_ t /\
    no_tombstone (data_ t').
Proof.
  intros Hlaw (Ho & Hsz & Huniq) Hm Hroom Hne Hfuel.
  assert (Hpow : 4 <= 2 ^ m <= 2 ^ 23).
  { split; [change 4 with (2 ^ 2) |]; apply Z.pow_le_mono_r; lia. }
  destruct fuel as [| fuel]; [lia |]. simpl.
  destruct (Z.eqb_spec (2 ^ m) (bucket_count t)) as [| _]; [done |].
  unfold size.
  rewrite !float_of_size_exact by lia. rewrite Qltb_double.
  destruct (Z.ltb_spec (2 ^ m) (2 * size_ t)) as [| _]; [lia |]. simpl.
  destruct (reinsert_inv fuel (data_ t)
              {| data_ := fresh_slots (2 ^ m); size_ := 0; cells_cnt_ := 0 |})
    as (t' & Hre & Hinv' & Hbc' & Hperm' & Hc' & Hnt'); try done.
  - by apply fresh_table_inv.
  - unfold bucket_count, fresh_slots. simpl. rewrite length_replicate. lia.
  - unfold fresh_slots. simpl. rewrite live_replicate_free. by intros w _ u [].
  - unfold fresh_slots. simpl. rewrite length_replicate. lia.
  - unfold fresh_slots in Hperm'. simpl in Hperm'.
    rewrite live_replicate_free, app_nil_r in Hperm'.
    assert (Hperm : Permutation (live (data_ t')) (live (data_ t))).
    { rewrite Hperm'. symmetry. apply Permutation_rev. }
    exists t'. split; [apply Hre |]. split; [done |].
    split.
    { rewrite Hbc'. unfold bucket_count, fresh_slots. simpl.
      rewrite length_replicate. lia. }
    split; [done |].
    destruct Hinv' as ((_ & Hsz' & _) & _).
    split; [rewrite Hsz', Hsz; by rewrite (Permutation_length Hperm) |].
    split; [simpl in Hc'; lia |].
    apply Hnt'. unfold fresh_slots. simpl. apply Forall_replicate.
    by intros [=].
Qed.

(** The capacity check of [emplace] on a table that keeps the invariants:
    it leaves a table that keeps them, holds the same live values, and is
    at most half used. *)
Lemma check_size_inv fuel t :
  lawful_keys -> table_inv t -> bucket_count t < 2 ^ 23 ->
  (2 * length (data_ t) < fuel)%nat ->
  exists t1,
    check_size fuel t = Done t1 /\
    table_inv t1 /\
    2 * cells_cnt_ t1 <= bucket_count t1 /\
    Permutation (live (data_ t1)) (live (data_ t)) /\
    size_ t1 = size_ t /\
    ((t1 = t /\ 2 * cells_cnt_ t <= bucket_count t) \/
     (bucket_count t1 = 2 * bucket_count t /\
      bucket_count t < 2 * cells_cnt_ t /\ no_tombstone (data_ t1))).
Proof.
  intros Hlaw Hinv Hbig Hfuel.
  pose proof Hinv as
    ((Ho & Hsz & Huniq) & Hcells & (k & Hk & Hbc) & Hload & Hch).
  assert (Hpow : 4 <= 2 ^ k)
    by (change 4 with (2 ^ 2); apply Z.pow_le_mono_r; lia).
  pose proof (used_le_length (data_ t)) as Hul.
  pose proof (live_le_used (data_ t)) as Hlu.
  unfold check_size, check_size_with.
  rewrite !float_of_size_exact by (unfold bucket_count in *; lia).
  rewrite Qgtb_half.
  destruct (Z.ltb_spec (bucket_count t) (2 * cells_cnt_ t)) as [Hover | Hfit].
  - rewrite size_of_float_double
      by (unfold size_t_modulus, bucket_count in *; lia). simpl.
    assert (Hk1 : 2 * bucket_count t = 2 ^ (k + 1)).
    { rewrite Z.pow_add_r by lia. lia. }
    rewrite Hk1.
    destruct (rehash_inv fuel (k + 1) t Hlaw) as
      (t1 & Hre & Hinv1 & Hbc1 & Hperm1 & Hsz1 & Hc1 & Hnt1).
    + done.
    + assert (k < 23); [| lia].
      destruct (Z.lt_ge_cases k 23) as [| Hge]; [done |].
      assert (2 ^ 23 <= 2 ^ k) by (apply Z.pow_le_mono_r; lia). lia.
    + rewrite <- Hk1. lia.
    + rewrite <- Hk1. lia.
    + rewrite <- Hk1. unfold bucket_count. lia.
    + exists t1. split; [done |]. split; [done |].
      split; [rewrite Hc1, Hbc1, <- Hk1; lia |].
      split; [done |]. split; [done |]. right.
      split; [by rewrite Hbc1 | done].
  - exists t. split; [done |]. split; [done |]. split; [done |].
    split; [done |]. split; [done |]. by left.
Qed.

(** [emplace] on a table that keeps the invariants: the capacity check
    leaves [t1], and the probe phase then acts on [t1] as [place_inv]
    says. *)
Lemma emplace_inv fuel t v :
  lawful_keys -> table_inv t -> bucket_count t < 2 ^ 23 ->
  (2 * length (data_ t) < fuel)%nat ->
  exists (pos : Z) (inserted : bool) t1 t',
    check_size fuel t = Done t1 /\
    emplace fuel t v = Done (t', (pos, inserted)) /\
    table_inv t1 /\
    Permutation (live (data_ t1)) (live (data_ t)) /\
    size_ t1 = size_ t /\
    ((t1 = t /\ 2 * cells_cnt_ t <= bucket_count t) \/
     (bucket_count t1 = 2 * bucket_count t /\
      bucket_count t < 2 * cells_cnt_ t /\ no_tombstone (data_ t1))) /\
    table_inv t' /\
    bucket_count t' = bucket_count t1 /\
    (exists n : nat,
       (n < length (data_ t'))%nat /\
       stopped (data_ t') (key_from_value_ v)
               (policy_make (bucket_count t')
                            (hash_of hash_ (key_from_value_ v)))
               n (AtEqual pos)) /\
    ((inserted = true /\ t' = store t1 pos (Element_of v) /\
      (exists e, data_ t1 !! Z.to_nat pos = Some e /\ type e = FREE) /\
      fresh_key (live (data_ t1)) v /\
      Permutation (live (data_ t')) (v :: live (data_ t1))) \/
     (inserted = false /\ t' = t1)).
Proof.
  intros Hlaw Hinv Hbig Hfuel.
  destruct (check_size_inv fuel t Hlaw Hinv Hbig Hfuel) as
    (t1 & Hcheck & Hinv1 & Hhalf1 & Hperm1 & Hsz1 & Hcap).
  assert (Hlen1 : (length (data_ t1) <= fuel)%nat).
  { destruct Hcap as [[-> _] | (Hbc & _)]; unfold bucket_count in *; lia. }
  destruct (place_inv fuel t1 v Hlaw Hinv1 Hhalf1 Hlen1) as
    (pos & ins & t' & Hemp & Hinv' & Hbc' & Hst & Hcase).
  exists pos, ins, t1, t'. split; [done |]. split.
  { rewrite <- (Hemp (rehash fuel)).
    unfold emplace, emplace_with. unfold check_size in Hcheck.
    rewrite Hcheck. simpl.
    assert (Hpass : check_size_with (rehash fuel) t1 = Done t1).
    { pose proof Hinv1 as (_ & Hcells & (k & Hk & Hbc) & _).
      assert (2 ^ k <= 2 ^ 23) by (apply Z.pow_le_mono_r; lia).
      apply check_size_with_pass; lia. }
    by rewrite Hpass. }
  done.
Qed.

(** Keys that compare equal are treated alike by every slot test. *)
Lemma equal_equiv (a b c : Key) :
  lawful_keys -> equal_ b c = true -> equal_ a b = equal_ a c.
Proof.
  intros (Hrefl & Hsym & Htrans & _) Hbc.
  destruct (equal_ a b) eqn:Hab, (equal_ a c) eqn:Hac; try done.
  - by rewrite (Htrans a b c Hab Hbc) in Hac.
  - rewrite Hsym in Hbc. by rewrite (Htrans a c b Hac Hbc) in Hab.
Qed.

Lemma stopped_equiv_key data key key' (it : LinearProbing) (n : nat)
      (r : probe_stop) :
  lawful_keys -> equal_ key key' = true ->
  stopped data key it n r -> stopped data key' it n r.
Proof.
  intros Hlaw Heq (Hp & i & e & Hs & Hr).
  assert (Hpassed : forall e0, slot_passed key e0 = slot_passed key' e0).
  { intros e0. unfold slot_passed. destruct (type e0); try done.
    destruct (ptr e0) as [w |]; [| done].
    by rewrite (equal_equiv (key_from_value_ w) key key' Hlaw Heq). }
  assert (Hequal : forall e0, slot_equal key e0 = slot_equal key' e0).
  { intros e0. unfold slot_equal. destruct (type e0); try done.
    destruct (ptr e0) as [w |]; [| done].
    by rewrite (equal_equiv (key_from_value_ w) key key' Hlaw Heq). }
  split.
  - intros j Hj. destruct (Hp j Hj) as (i0 & e0 & Hs0 & Hpass).
    exists i0, e0. by rewrite <- Hpassed.
  - exists i, e. split; [done |]. by rewrite <- Hequal.
Qed.

Lemma inv_has_free t : table_inv t -> has_free (data_ t).
Proof.
  intros (_ & Hcells & (k & Hk & Hbc) & Hload & _).
  assert (4 <= 2 ^ k) by (change 4 with (2 ^ 2); apply Z.pow_le_mono_r; lia).
  apply has_free_used. unfold bucket_count in *. lia.
Qed.

Lemma inv_capacity t :
  table_inv t ->
  4 <= bucket_count t <= 2 ^ 23 /\ (bucket_count t | size_t_modulus).
Proof.
  intros (_ & _ & (k & Hk & Hbc) & _). rewrite Hbc. split.
  - split; [change 4 with (2 ^ 2) |]; apply Z.pow_le_mono_r; lia.
  - apply pow2_divides_modulus. lia.
Qed.

(** On a table that keeps the invariants the walk of [find] stops within
    [capacity] steps. *)
Lemma inv_walk t key :
  table_inv t ->
  exists (n : nat) r,
    (n < length (data_ t))%nat /\
    stopped (data_ t) key
            (policy_make (bucket_count t) (hash_of hash_ key)) n r.
Proof.
  intros Hinv. pose proof (inv_has_free t Hinv) as Hfree.
  pose proof (inv_capacity t Hinv) as [Hcap Hdiv].
  pose proof Hinv as ((Ho & _) & _).
  unfold bucket_count in *.
  set (start := hash_of hash_ key mod Z.of_nat (length (data_ t))).
  assert (Hstart : 0 <= start < Z.of_nat (length (data_ t)))
    by (apply Z.mod_pos_bound; lia).
  destruct (linear_stops_within equal_ key_from_value_ (data_ t) key start)
    as (n & r & Hn & Hst); [lia | unfold size_t_modulus; lia | done | done |].
  exists n, r. split; [done |].
  apply linear_stopped_agree; [lia | done | done].
Qed.

(** [find] on a table that keeps the invariants: it returns the position
    of an Occupied slot whose key equals [key], or the end when no stored
    key equals [key]. *)
Lemma find_inv fuel t key :
  lawful_keys -> table_inv t -> (length (data_ t) <= fuel)%nat ->
  (exists pos e u,
     find fuel t key = Done pos /\ 0 <= pos < bucket_count t /\
     data_ t !! Z.to_nat pos = Some e /\ type e = DATA /\ ptr e = Some u /\
     equal_ (key_from_value_ u) key = true) \/
  (find fuel t key = Done (end_ t) /\
   forall u, In u (live (data_ t)) ->
     equal_ (key_from_value_ u) key = false).
Proof.
  intros Hlaw Hinv Hfuel.
  destruct (inv_walk t key Hinv) as (n & r & Hn & Hst).
  pose proof (find_stopped (P := LinearProbing) hash_ equal_ key_from_value_
                fuel t key n r Hst ltac:(lia)) as Hfind.
  destruct r as [i | i].
  - right. split; [done |]. intros u Hu.
    destruct Hinv as (_ & _ & _ & _ & Hch).
    by destruct (absent_of_walk t key n i Hlaw Hch Hst u Hu).
  - left. apply stopped_equal_slot in Hst as (e & u & Hi & Hl & Ht & Hp & Heq).
    exists i, e, u. split; [done |]. split; [| done].
    apply lookup_lt_Some in Hl. unfold bucket_count. lia.
Qed.

(** A stored value is found at its slot by every key equal to its key. *)
Lemma find_stored fuel t (i : nat) e u key :
  lawful_keys -> table_inv t -> (length (data_ t) <= fuel)%nat ->
  data_ t !! i = Some e -> type e = DATA -> ptr e = Some u ->
  equal_ (key_from_value_ u) key = true ->
  find fuel t key = Done (Z.of_nat i).
Proof.
  intros Hlaw Hinv Hfuel Hl Ht Hp Heq.
  pose proof Hinv as (_ & _ & _ & _ & Hch).
  destruct (Hch i e u Hl Ht Hp) as (n & Hn & Hst).
  pose proof Hlaw as (_ & _ & _ & Hhash).
  unfold hash_of in Hst. rewrite (Hhash _ _ Heq) in Hst.
  apply (stopped_equiv_key _ _ key _ _ _ Hlaw Heq) in Hst.
  apply (find_stopped (P := LinearProbing) hash_ equal_ key_from_value_
           fuel t key n (AtEqual (Z.of_nat i)) Hst). lia.
Qed.

(** [erase(pos)] at an Occupied position of a table that keeps the
    invariants: the slot becomes a Tombstone, [size_] drops by one,
    [cells_cnt_] stays, and the invariants hold afterwards. *)
Lemma erase_inv t (i : nat) e u :
  lawful_keys -> table_inv t ->
  data_ t !! i = Some e -> type e = DATA -> ptr e = Some u ->
  exists t',
    erase t (Z.of_nat i)
    = Done (t', skip_to_data (drop (S i) (data_ t)) (Z.of_nat i + 1)) /\
    t' = {| data_ := <[i := Element_free e]> (data_ t);
            size_ := size_ t - 1;
            cells_cnt_ := cells_cnt_ t |} /\
    table_inv t' /\
    Permutation (live (data_ t)) (u :: live (data_ t')) /\
    fresh_key (live (data_ t')) u.
Proof.
  intros Hlaw Hinv Hl Ht Hp.
  pose proof Hinv as ((Ho & Hsz & Huniq) & Hcells & Hcap & Hload & Hch).
  pose proof (inv_capacity t Hinv) as [Hbc _].
  assert (Hi : (i < length (data_ t))%nat) by (by apply lookup_lt_Some with e).
  assert (Hperm : Permutation (live (data_ t))
                    (u :: live (<[i := Element_free e]> (data_ t)))).
  { by apply (live_insert_erased _ _ e). }
  pose proof (unique_keys_remove equal_ key_from_value_ _ _ _ Hperm Huniq)
    as [Huniq' Hfresh].
  assert (Hlen : (1 <= length (live (data_ t)))%nat).
  { rewrite (Permutation_length Hperm). simpl. lia. }
  assert (Hsize : wrap (size_ t - 1) = size_ t - 1).
  { pose proof (live_length_le (data_ t)).
    apply wrap_small. unfold size_t_modulus, bucket_count in *. lia. }
  eexists. split.
  { unfold erase, iterator_next.
    destruct (Z.leb_spec 0 (Z.of_nat i)); [| lia].
    destruct (Z.ltb_spec (Z.of_nat i) (Z.of_nat (length (data_ t)))); [| lia].
    simpl. rewrite Nat2Z.id.
    assert (Hat : at_ (data_ t) (Z.of_nat i) = Done e).
    { apply at_Done_lookup. split; [lia |]. by rewrite Nat2Z.id. }
    rewrite Hat. simpl. rewrite Hsize. reflexivity. }
  split; [done |]. split; [| done].
  split; [split; [| split] | split; [| split; [| split]]]; simpl.
  - apply Forall_insert; [done |]. by intros [=].
  - rewrite Hsz, (Permutation_length Hperm). simpl length. lia.
  - done.
  - rewrite Hcells. f_equal.
    pose proof (used_insert (data_ t) i e (Element_free e) Hl) as Hu.
    unfold slot_free in Hu. rewrite Ht in Hu. simpl in Hu. lia.
  - unfold bucket_count in *. simpl. by rewrite length_insert.
  - unfold bucket_count in *. simpl. by rewrite length_insert.
  - intros i' e' v' Hl' Ht' Hp'. unfold bucket_count. simpl in *.
    rewrite length_insert.
    destruct (decide (i' = i)) as [-> | Hne].
    { rewrite list_lookup_insert_eq in Hl' by done.
      injection Hl' as <-. done. }
    rewrite list_lookup_insert_ne in Hl' by done.
    destruct (Hch i' e' v' Hl' Ht' Hp') as (n' & Hn' & Hst').
    exists n'. split; [done |].
    apply stopped_insert_passed; [done | done |].
    intros i0 e0 Hs0.
    destruct Hst' as (_ & i1 & e1 & Hs1 & [[[= <-] _] | [[=] _]]).
    pose proof (eq_trans (eq_sym Hs1) Hs0) as Heq0.
    injection Heq0 as <- <-. rewrite Nat2Z.id. done.
Qed.

(** After [erase(pos)] no stored key equals the erased one: [find]
    returns the end. *)
Lemma find_erased fuel t' u key :
  lawful_keys -> table_inv t' -> (length (data_ t') <= fuel)%nat ->
  fresh_key (live (data_ t')) u ->
  equal_ (key_from_value_ u) key = true ->
  find fuel t' key = Done (end_ t').
Proof.
  intros Hlaw Hinv Hfuel Hfresh Heq.
  destruct (find_inv fuel t' key Hlaw Hinv Hfuel) as
    [(pos & e & w & Hfind & Hpos & Hl & Ht & Hp & Hw) | [Hfind _]]; [| done].
  exfalso. destruct (Hfresh w (live_In _ _ _ _ Hl Ht Hp)) as [Hwu _].
  pose proof Hlaw as (_ & Hsym & Htrans & _).
  rewrite Hsym in Heq. by rewrite (Htrans _ _ _ Hw Heq) in Hwu.
Qed.

Local Abbreviation insert_range :=
  (@insert_range Key Value LinearProbing _ hash_ equal_ key_from_value_).

(** The capacity check never increases the number of used slots. *)
Lemma check_size_inv_cells fuel t t1 :
  table_inv t -> table_inv t1 ->
  Permutation (live (data_ t1)) (live (data_ t)) ->
  ((t1 = t /\ 2 * cells_cnt_ t <= bucket_count t) \/
   (bucket_count t1 = 2 * bucket_count t /\
    bucket_count t < 2 * cells_cnt_ t /\ no_tombstone (data_ t1))) ->
  check_size fuel t = Done t1 ->
  cells_cnt_ t1 <= cells_cnt_ t.
Proof.
  intros Hinv Hinv1 Hperm [[-> _] | (_ & _ & Hnt)] _; [lia |].
  destruct Hinv as (_ & -> & _). destruct Hinv1 as ((Ho1 & _) & -> & _).
  rewrite (used_no_tombstone _ Ho1 Hnt), (Permutation_length Hperm).
  pose proof (live_le_used (data_ t)). lia.
Qed.

(** [insert(first, last)] on a table that keeps the invariants, with
    [B] bounding the capacities met on the way. *)
Lemma insert_range_inv fuel (B : Z) : forall vs t,
  lawful_keys -> table_inv t ->
  B < 2 ^ 23 -> (2 * Z.to_nat B < fuel)%nat ->
  bucket_count t <= B ->
  4 * (cells_cnt_ t + Z.of_nat (length vs)) <= B ->
  exists t',
    insert_range fuel t vs = Done t' /\
    table_inv t' /\
    bucket_count t' <= B /\
    cells_cnt_ t' <= cells_cnt_ t + Z.of_nat (length vs) /\
    (forall u, In u (live (data_ t')) -> In u (live (data_ t)) \/ In u vs) /\
    (forall u, In u (live (data_ t)) -> In u (live (data_ t'))) /\
    (forall v, In v vs ->
       exists u, In u (live (data_ t')) /\
                 equal_ (key_from_value_ u) (key_from_value_ v) = true) /\
    (unique_keys vs ->
     (forall w, In w vs -> fresh_key (live (data_ t)) w) ->
     Permutation (live (data_ t')) (rev vs ++ live (data_ t))).
Proof.
  induction vs as [| v rest IH]; intros t Hlaw Hinv HB Hfuel Hbc Hroom.
  { exists t. split; [done |]. split; [done |]. split; [done |].
    split; [simpl; lia |]. split; [by left |]. split; [done |].
    split; [by intros v [] | done]. }
  simpl length in Hroom.
  assert (Hfuel1 : (2 * length (data_ t) < fuel)%nat)
    by (unfold bucket_count in *; lia).
  assert (Hbig : bucket_count t < 2 ^ 23) by lia.
  destruct (emplace_inv fuel t v Hlaw Hinv Hbig Hfuel1) as
    (pos & ins & t1 & t' & Hcheck & Hemp & Hinv1 & Hperm1 & Hsz1 & Hcap &
     Hinv' & Hbc' & Hst & Hcase).
  pose proof (check_size_inv_cells fuel t t1 Hinv Hinv1 Hperm1 Hcap Hcheck)
    as Hcells1.
  pose proof Hinv as (_ & Hcells & _).
  assert (Hbc1 : bucket_count t1 <= B).
  { destruct Hcap as [[-> _] | (-> & Hover & _)]; lia. }
  assert (Hcells' : 0 <= cells_cnt_ t' <= cells_cnt_ t + 1 /\
                    cells_cnt_ t' < 2 ^ 23).
  { pose proof Hinv1 as (_ & Hc1 & _). pose proof Hinv' as (_ & Hc' & _).
    destruct Hcase as [(_ & -> & _) | (_ & ->)]; [| lia].
    unfold store in *. simpl in *.
    rewrite wrap_small by (unfold size_t_modulus; lia). lia. }
  assert (Hkey : exists u, In u (live (data_ t')) /\
            equal_ (key_from_value_ u) (key_from_value_ v) = true).
  { destruct Hst as (n & _ & Hst).
    apply stopped_equal_slot in Hst as (e & u & _ & Hl & Hte & Hpe & Heq).
    exists u. split; [by apply (live_In _ (Z.to_nat pos) e) | done]. }
  assert (Hlive' : forall u, In u (live (data_ t')) ->
                     In u (live (data_ t)) \/ u = v).
  { intros u Hu.
    destruct Hcase as [(_ & _ & _ & _ & Hperm) | (_ & ->)].
    - apply (Permutation_in _ Hperm) in Hu as [<- | Hu]; [by right |].
      left. by apply (Permutation_in _ Hperm1).
    - left. by apply (Permutation_in _ Hperm1). }
  assert (Hkeep : forall u, In u (live (data_ t)) -> In u (live (data_ t'))).
  { intros u Hu.
    apply (Permutation_in _ (Permutation_sym Hperm1)) in Hu.
    destruct Hcase as [(_ & _ & _ & _ & Hperm) | (_ & ->)]; [| done].
    apply (Permutation_in _ (Permutation_sym Hperm)). by right. }
  assert (Hbcn : bucket_count t' <= B) by (rewrite Hbc'; exact Hbc1).
  assert (Hroomn : 4 * (cells_cnt_ t' + Z.of_nat (length rest)) <= B) by lia.
  destruct (IH t' Hlaw Hinv' HB Hfuel Hbcn Hroomn) as
    (t'' & Hins & Hinv'' & Hbc'' & Hcells'' & Hsub & Hsup & Hall & Hperm'').
  exists t''. split.
  { unfold insert_range. simpl. unfold emplace in Hemp. rewrite Hemp. simpl.
    exact Hins. }
  split; [done |]. split; [done |]. split; [simpl length; lia |].
  split; [| split; [| split]].
  - intros u Hu. destruct (Hsub u Hu) as [Hu' | Hu']; [| right; by right].
    destruct (Hlive' u Hu') as [? | ->]; [by left | right; by left].
  - intros u Hu. by apply Hsup, Hkeep.
  - intros w [<- | Hw]; [| by apply Hall].
    destruct Hkey as (u & Hu & Heq). exists u. split; [by apply Hsup | done].
  - intros [Hv Huniq] Hfresh.
    assert (Hvfresh : fresh_key (live (data_ t)) v)
      by (apply Hfresh; by left).
    destruct Hcase as [(_ & _ & _ & _ & Hperm) | (_ & ->)]; cycle 1.
    { exfalso. destruct Hkey as (u & Hu & Heq).
      apply (Permutation_in _ Hperm1) in Hu.
      destruct (Hvfresh u Hu). congruence. }
    rewrite Hperm''.
    + rewrite Hperm, Hperm1. simpl. rewrite <- app_assoc. done.
    + done.
    + intros w Hw.
      apply (fresh_key_perm equal_ key_from_value_ (v :: live (data_ t))).
      { rewrite Hperm, Hperm1. done. }
      intros u [<- | Hu].
      * destruct (Hv w Hw). done.
      * apply Hfresh; [by right | done].
Qed.

End LinearInvariant.

(** ** [emplace], as a whole *)

Section EmplaceClaim.

Context {Key Value : Type}.
Variable hash_ : Key -> Z.
Variable equal_ : Key -> Key -> bool.
Variable key_from_value_ : Value -> Key.

Local Abbreviation lstopped :=
  (@stopped Key Value LinearProbing _ equal_ key_from_value_).
Local Abbreviation fresh_key := (fresh_key equal_ key_from_value_).
Local Abbreviation table_inv :=
  (@table_inv Key Value LinearProbing _ hash_ equal_ key_from_value_).
Local Abbreviation lawful_keys := (lawful_keys hash_ equal_).
Local Abbreviation lcheck_size :=
  (@check_size Key Value LinearProbing _ hash_ equal_ key_from_value_).
Local Abbreviation lemplace :=
  (@emplace Key Value LinearProbing _ hash_ equal_ key_from_value_).

Implicit Types (t : HashTable Value) (v u : Value) (e : Element Value).


End EmplaceClaim.

(** ** The fifth insert into eight slots *)

Section FifthInsert.

Context {Key Value : Type}.
Variable hash_ : Key -> Z.
Variable equal_ : Key -> Key -> bool.
Variable key_from_value_ : Value -> Key.

Local Abbreviation fresh_key := (fresh_key equal_ key_from_value_).
Local Abbreviation unique_keys := (unique_keys equal_ key_from_value_).
Local Abbreviation check_size :=
  (@check_size Key Value LinearProbing _ hash_ equal_ key_from_value_).
Local Abbreviation emplace_with :=
  (@emplace_with Key Value LinearProbing _ hash_ equal_ key_from_value_).
Local Abbreviation emplace :=
  (@emplace Key Value LinearProbing _ hash_ equal_ key_from_value_).
Local Abbreviation insert_range_with :=
  (@insert_range_with Key Value LinearProbing _ hash_ equal_
                      key_from_value_).
Local Abbreviation insert_range :=
  (@insert_range Key Value LinearProbing _ hash_ equal_ key_from_value_).
Local Abbreviation HashTable_of_list :=
  (@HashTable_of_list Key Value LinearProbing _ hash_ equal_
                      key_from_value_).

Implicit Types (t : HashTable Value) (v u : Value).

Lemma insert_range_with_app rec fuel : forall (l1 l2 : list Value) t,
  insert_range_with rec fuel t (l1 ++ l2)
  = (t1 <- insert_range_with rec fuel t l1 ;;
     insert_range_with rec fuel t1 l2).
Proof.
  induction l1 as [| v l1 IH]; intros l2 t; [done |].
  simpl. destruct (emplace_with rec fuel t v) as [r | |]; simpl; done.
Qed.

(** The initializer-list constructor with hint 4 sizes the array to
    [4 / 0.5] slots. *)
Lemma HashTable_of_list_four fuel (init : list Value) :
  HashTable_of_list fuel init 4
  = insert_range fuel
      {| data_ := fresh_slots 8; size_ := 0; cells_cnt_ := 0 |} init.
Proof.
  unfold HashTable_of_list.
  rewrite float_of_size_exact by lia.
  rewrite size_of_float_double by (unfold size_t_modulus; lia). done.
Qed.

(** C9: a table of 8 slots, as the initializer-list constructor builds it
    for the hint 4, and five values with pairwise different keys. The
    four first inserts do not rehash, and the fifth does not either:
    before it the check finds [cells = 4], not more than [0.5 * 8], and
    [rehash] is not called. Afterwards [bucket_count() == 8] and
    [size() == 5], a load of 5/8. The constructor that sizes through
    [optimal_size] builds 16 slots for the hint 4, which five inserts do
    not fill to the half. *)
Theorem fifth_insert_into_eight_slots_does_not_rehash
        (fuel : nat) (v1 v2 v3 v4 v5 : Value) :
  (64 <= fuel)%nat ->
  unique_keys [v1; v2; v3; v4; v5] ->
  (exists t0 t4 t5 (pos : Z),
     HashTable_of_list fuel [] 4 = Done t0 /\
     bucket_count t0 = 8 /\
     insert_range fuel t0 [v1; v2; v3; v4] = Done t4 /\
     bucket_count t4 = 8 /\ size t4 = 4 /\ cells_cnt_ t4 = 4 /\
     check_size fuel t4 = Done t4 /\
     (forall rec, emplace_with rec fuel t4 v5 = Done (t5, (pos, true))) /\
     emplace fuel t4 v5 = Done (t5, (pos, true)) /\
     insert_range fuel t0 [v1; v2; v3; v4; v5] = Done t5 /\
     HashTable_of_list fuel [v1; v2; v3; v4; v5] 4 = Done t5 /\
     bucket_count t5 = 8 /\ size t5 = 5 /\ cells_cnt_ t5 = 5 /\
     Permutation (live (data_ t5)) [v1; v2; v3; v4; v5] /\
     (load_factor t5 == 5 # 8)%Q) /\
  (exists t0 t5 : HashTable Value,
     HashTable_new fuel 4 = Done t0 /\
     bucket_count t0 = 16 /\
     insert_range fuel t0 [v1; v2; v3; v4; v5] = Done t5 /\
     bucket_count t5 = 16 /\ size t5 = 5).
Proof.
  intros Hfuel Huniq. split.
  - set (t0 := {| data_ := fresh_slots 8; size_ := 0; cells_cnt_ := 0 |}
               : HashTable Value).
    assert (Huniq' : unique_keys [v5; v4; v3; v2; v1]).
    { apply (unique_keys_perm equal_ key_from_value_ [v1; v2; v3; v4; v5]);
        [| done].
      apply (Permutation_rev [v1; v2; v3; v4; v5]). }
    destruct Huniq' as [Hfresh5 Huniq4].
    assert (Huniq4' : unique_keys [v1; v2; v3; v4]).
    { apply (unique_keys_perm equal_ key_from_value_ [v4; v3; v2; v1]);
        [| done].
      symmetry. apply (Permutation_rev [v1; v2; v3; v4]). }
    destruct (insert_range_filling hash_ equal_ key_from_value_ fuel 8
                [v1; v2; v3; v4] t0 [])
      as (t4 & Hins4 & Hfill4);
      [by apply fresh_slots_filling | lia | simpl; lia | done
      | by intros w _ u [] | simpl; lia |].
    rewrite app_nil_r in Hfill4. simpl in Hfill4.
    destruct (emplace_filling hash_ equal_ key_from_value_ fuel 8 t4
                [v4; v3; v2; v1] v5 Hfill4)
      as (pos & Hemp & _ & Hfill5); [lia | simpl; lia | done | simpl; lia |].
    remember (store t4 pos (Element_of v5)) as t5 eqn:Ht5.
    pose proof Hfill4 as (Hlen4 & _ & _ & _ & Hsz4 & Hcells4).
    pose proof Hfill5 as (Hlen5 & _ & _ & Hperm5 & Hsz5 & Hcells5).
    simpl in Hsz4, Hcells4, Hsz5, Hcells5.
    assert (Hall : insert_range fuel t0 [v1; v2; v3; v4; v5] = Done t5).
    { unfold insert_range.
      rewrite (insert_range_with_app _ fuel [v1; v2; v3; v4] [v5] t0).
      rewrite Hins4. simpl. by rewrite Hemp. }
    exists t0, t4, t5, pos.
    split; [apply HashTable_of_list_four |].
    split; [reflexivity |]. split; [apply Hins4 |].
    split; [done |]. split; [done |]. split; [done |].
    split.
    { apply check_size_with_pass; unfold bucket_count; lia. }
    split; [done |]. split; [apply Hemp |]. split; [done |].
    split; [by rewrite HashTable_of_list_four |].
    split; [done |]. split; [done |]. split; [done |].
    split.
    { rewrite Hperm5. symmetry.
      apply (Permutation_rev [v1; v2; v3; v4; v5]). }
    unfold load_factor, size, bucket_count. rewrite Hsz5, Hlen5. reflexivity.
  - destruct (sixteen_slots_five_distinct_keys hash_ equal_ key_from_value_
                fuel v1 v2 v3 v4 v5 Hfuel Huniq)
      as (t0 & t5 & Hnew & Hbc0 & Hins & _ & Hbc5 & Hsz5 & _).
    by exists t0, t5.
Qed.

End FifthInsert.

(** ** Properties of the engine on tables that keep the invariants *)

Section EngineProperties.

Context {Key Value : Type}.
Variable hash_ : Key -> Z.
Variable equal_ : Key -> Key -> bool.
Variable key_from_value_ : Value -> Key.

Local Abbreviation stopped :=
  (@stopped Key Value LinearProbing _ equal_ key_from_value_).
Local Abbreviation fresh_key := (fresh_key equal_ key_from_value_).
Local Abbreviation unique_keys := (unique_keys equal_ key_from_value_).
Local Abbreviation table_ok := (table_ok equal_ key_from_value_).
Local Abbreviation table_inv :=
  (@table_inv Key Value LinearProbing _ hash_ equal_ key_from_value_).
Local Abbreviation lawful_keys := (lawful_keys hash_ equal_).
Local Abbreviation rehash :=
  (@rehash Key Value LinearProbing _ hash_ equal_ key_from_value_).
Local Abbreviation reserve :=
  (@reserve Key Value LinearProbing _ hash_ equal_ key_from_value_).
Local Abbreviation emplace :=
  (@emplace Key Value LinearProbing _ hash_ equal_ key_from_value_).
Local Abbreviation insert_range :=
  (@insert_range Key Value LinearProbing _ hash_ equal_ key_from_value_).
Local Abbreviation find :=
  (@find Key Value LinearProbing _ hash_ equal_ key_from_value_).
Local Abbreviation count :=
  (@count Key Value LinearProbing _ hash_ equal_ key_from_value_).
Local Abbreviation contains :=
  (@contains Key Value LinearProbing _ hash_ equal_ key_from_value_).
Local Abbreviation erase_key :=
  (@erase_key Key Value LinearProbing _ hash_ equal_ key_from_value_).
Local Abbreviation equal_range :=
  (@equal_range Key Value LinearProbing _ hash_ equal_ key_from_value_).
Local Abbreviation HashTable_of_range :=
  (@HashTable_of_range Key Value LinearProbing _ hash_ equal_
                       key_from_value_).

Implicit Types (data : list (Element Value)) (key : Key)
         (e : Element Value) (t : HashTable Value) (v u : Value).

(** Whether a stored key equals [key]. *)
Lemma has_key_spec (vs : list Value) key :
  existsb (fun u => equal_ (key_from_value_ u) key) vs = true <->
  exists u, In u vs /\ equal_ (key_from_value_ u) key = true.
Proof. apply existsb_exists. Qed.

Lemma has_key_perm (l l' : list Value) key :
  Permutation l l' ->
  existsb (fun u => equal_ (key_from_value_ u) key) l
  = existsb (fun u => equal_ (key_from_value_ u) key) l'.
Proof.
  induction 1 as [| x l l' _ IH | x y l | l l' l'' _ IH1 _ IH2]; simpl.
  - done.
  - by rewrite IH.
  - by rewrite !orb_assoc, (orb_comm (equal_ _ _)).
  - by rewrite IH1.
Qed.

(** [contains] on a table that keeps the invariants. *)
Lemma contains_inv fuel t key :
  lawful_keys -> table_inv t -> (length (data_ t) <= fuel)%nat ->
  count fuel t key
  = Done (if existsb (fun u => equal_ (key_from_value_ u) key)
                     (live (data_ t)) then 1 else 0) /\
  contains fuel t key
  = Done (existsb (fun u => equal_ (key_from_value_ u) key)
                  (live (data_ t))).
Proof.
  intros Hlaw Hinv Hfuel. unfold contains, count.
  destruct (find_inv hash_ equal_ key_from_value_ fuel t key Hlaw Hinv Hfuel)
    as [(pos & e & u & Hfind & Hpos & Hl & Ht & Hp & Heq) | [Hfind Hnone]].
  - assert (Hex : existsb (fun u => equal_ (key_from_value_ u) key)
                          (live (data_ t)) = true).
    { apply has_key_spec. exists u. split; [| done].
      by apply (live_In _ (Z.to_nat pos) e). }
    rewrite Hfind, Hex. simpl. unfold end_.
    destruct (Z.eqb_spec pos (bucket_count t)); [lia | done].
  - assert (Hex : existsb (fun u => equal_ (key_from_value_ u) key)
                          (live (data_ t)) = false).
    { destruct (existsb _ _) eqn:Hex; [| done].
      apply has_key_spec in Hex as (u & Hu & Heq).
      by rewrite (Hnone u Hu) in Heq. }
    rewrite Hfind, Hex. simpl. by rewrite Z.eqb_refl.
Qed.

(** X1: on a table that keeps the invariants, [find(key)] returns the
    position of the Occupied slot whose key equals [key], whichever slot
    that is, and [end()] exactly when no stored key equals [key]; it
    always returns, within [capacity] probes. *)
Theorem find_returns_the_slot_of_the_key fuel t key :
  lawful_keys -> table_inv t -> (length (data_ t) <= fuel)%nat ->
  (exists pos, find fuel t key = Done pos /\ 0 <= pos <= end_ t) /\
  (forall (i : nat) e u,
     data_ t !! i = Some e -> type e = DATA -> ptr e = Some u ->
     equal_ (key_from_value_ u) key = true ->
     find fuel t key = Done (Z.of_nat i)) /\
  ((forall u, In u (live (data_ t)) ->
      equal_ (key_from_value_ u) key = false) <->
   find fuel t key = Done (end_ t)).
Proof.
  intros Hlaw Hinv Hfuel.
  pose proof (find_inv hash_ equal_ key_from_value_ fuel t key Hlaw Hinv Hfuel)
    as Hfind.
  split; [| split; [| split]].
  - destruct Hfind as [(pos & e & u & Hf & Hpos & _) | [Hf _]].
    + exists pos. split; [done |]. unfold end_. lia.
    + exists (end_ t). split; [done |]. unfold end_, bucket_count. lia.
  - intros i e u Hl Ht Hp Heq.
    by apply (find_stored hash_ equal_ key_from_value_ fuel t i e u key).
  - intros Hnone.
    destruct Hfind as [(pos & e & u & Hf & Hpos & Hl & Ht & Hp & Heq) | [Hf _]];
      [| done].
    by rewrite (Hnone u (live_In _ (Z.to_nat pos) e u Hl Ht Hp)) in Heq.
  - intros Hend u Hu.
    destruct Hfind as [(pos & e & w & Hf & Hpos & _) | [_ Hnone]];
      [| by apply Hnone].
    rewrite Hf in Hend. injection Hend as ->. unfold end_ in Hpos. lia.
Qed.

(** X2: on a table that keeps the invariants, [contains(key)] is true
    exactly when a stored key equals [key], and [count(key)] is 1 then
    and 0 otherwise. *)
Theorem contains_iff_key_stored fuel t key :
  lawful_keys -> table_inv t -> (length (data_ t) <= fuel)%nat ->
  exists (b : bool),
    contains fuel t key = Done b /\
    count fuel t key = Done (if b then 1 else 0) /\
    (b = true <->
     exists u, In u (live (data_ t)) /\
               equal_ (key_from_value_ u) key = true).
Proof.
  intros Hlaw Hinv Hfuel.
  destruct (contains_inv fuel t key Hlaw Hinv Hfuel) as [Hcount Hcont].
  eexists. split; [exact Hcont |]. split; [exact Hcount |].
  apply has_key_spec.
Qed.

(** X3: [emplace] keeps the invariants: afterwards the Occupied slots
    still own values with pairwise different keys, [size()] counts them,
    the used-slot counter is exact, the capacity is a power of two, at
    most half of the slots plus one are used, and every stored value is
    on the probe walk of its key. The capacity doubles exactly when more
    than half of the slots were used before the call. *)
Theorem emplace_keeps_invariants fuel t v :
  lawful_keys -> table_inv t -> bucket_count t < 2 ^ 23 ->
  (2 * length (data_ t) < fuel)%nat ->
  exists t' pos inserted,
    emplace fuel t v = Done (t', (pos, inserted)) /\
    table_inv t' /\
    bucket_count t'
    = (if bucket_count t <? 2 * cells_cnt_ t
       then 2 * bucket_count t else bucket_count t).
Proof.
  intros Hlaw Hinv Hbig Hfuel.
  destruct (emplace_inv hash_ equal_ key_from_value_ fuel t v
              Hlaw Hinv Hbig Hfuel) as
    (pos & ins & t1 & t' & Hcheck & Hemp & Hinv1 & Hperm1 & Hsz1 & Hcap &
     Hinv' & Hbc' & Hst & Hcase).
  exists t', pos, ins. split; [done |]. split; [done |].
  rewrite Hbc'.
  destruct Hcap as [[-> Hfit] | (-> & Hover & _)].
  - destruct (Z.ltb_spec (bucket_count t) (2 * cells_cnt_ t)); [lia | done].
  - destruct (Z.ltb_spec (bucket_count t) (2 * cells_cnt_ t)); [done | lia].
Qed.

(** X4: insert/lookup round trip. After [emplace(v)] returns
    [(pos, inserted)], [find(key(v))] returns [pos], an Occupied slot
    whose key equals the key of [v]; it holds [v] itself when [inserted]
    is true. This holds also when the call rehashed. *)
Theorem find_after_emplace fuel t v :
  lawful_keys -> table_inv t -> bucket_count t < 2 ^ 23 ->
  (2 * length (data_ t) < fuel)%nat ->
  exists t' pos inserted u,
    emplace fuel t v = Done (t', (pos, inserted)) /\
    find fuel t' (key_from_value_ v) = Done pos /\
    0 <= pos < bucket_count t' /\
    data_ t' !! Z.to_nat pos = Some (Element_of u) /\
    equal_ (key_from_value_ u) (key_from_value_ v) = true /\
    (inserted = true -> u = v).
Proof.
  intros Hlaw Hinv Hbig Hfuel.
  destruct (emplace_inv hash_ equal_ key_from_value_ fuel t v
              Hlaw Hinv Hbig Hfuel) as
    (pos & ins & t1 & t' & Hcheck & Hemp & Hinv1 & Hperm1 & Hsz1 & Hcap &
     Hinv' & Hbc' & (n & Hn & Hst) & Hcase).
  assert (Hlen' : (length (data_ t') <= fuel)%nat).
  { destruct Hcap as [[-> _] | (Hd & _)]; unfold bucket_count in *; lia. }
  pose proof (find_stopped (P := LinearProbing) hash_ equal_ key_from_value_
                fuel t' (key_from_value_ v) n (AtEqual pos) Hst ltac:(lia))
    as Hfind.
  pose proof Hst as Hst'.
  apply (stopped_equal_slot equal_ key_from_value_) in Hst'
    as (e & u & Hpos & Hl & Ht & Hp & Heq).
  assert (He : e = Element_of u) by (destruct e; simpl in *; by subst).
  subst e.
  exists t', pos, ins, u. split; [done |]. split; [done |].
  split. { apply lookup_lt_Some in Hl. unfold bucket_count. lia. }
  split; [done |]. split; [done |].
  intros ->. destruct Hcase as [(_ & -> & _) | ([=] & _)].
  unfold store in Hl. simpl in Hl.
  rewrite list_lookup_insert_eq in Hl.
  - by injection Hl as <-.
  - apply lookup_lt_Some in Hl. by rewrite length_insert in Hl.
Qed.

(** X5: [emplace] never overwrites. When no stored key equals the key of
    [v], [v] is added: [inserted] is true, [size()] grows by one and the
    stored values are the old ones and [v]. When a stored key equals it,
    [inserted] is false and the stored values and [size()] are unchanged,
    the value stored under that key included. *)
Theorem emplace_adds_or_keeps fuel t v :
  lawful_keys -> table_inv t -> bucket_count t < 2 ^ 23 ->
  (2 * length (data_ t) < fuel)%nat ->
  exists t' pos inserted,
    emplace fuel t v = Done (t', (pos, inserted)) /\
    ((inserted = true /\
      fresh_key (live (data_ t)) v /\
      Permutation (live (data_ t')) (v :: live (data_ t)) /\
      size t' = size t + 1) \/
     (inserted = false /\
      (exists u, In u (live (data_ t)) /\
         equal_ (key_from_value_ u) (key_from_value_ v) = true) /\
      Permutation (live (data_ t')) (live (data_ t)) /\
      size t' = size t)).
Proof.
  intros Hlaw Hinv Hbig Hfuel.
  destruct (emplace_inv hash_ equal_ key_from_value_ fuel t v
              Hlaw Hinv Hbig Hfuel) as
    (pos & ins & t1 & t' & Hcheck & Hemp & Hinv1 & Hperm1 & Hsz1 & Hcap &
     Hinv' & Hbc' & (n & Hn & Hst) & Hcase).
  exists t', pos, ins. split; [done |].
  pose proof Hinv as ((_ & Hsz & _) & _).
  pose proof Hinv' as ((_ & Hsz' & _) & _).
  unfold size.
  destruct Hcase as [(-> & Ht' & _ & Hfresh & Hperm) | (-> & ->)].
  - left. split; [done |].
    split; [by apply (fresh_key_perm equal_ key_from_value_ _ _ _ Hperm1) |].
    split; [by rewrite Hperm, Hperm1 |].
    rewrite Hsz', Hsz, (Permutation_length Hperm). simpl length.
    rewrite (Permutation_length Hperm1). lia.
  - right. split; [done |]. split; [| split; [done | lia]].
    apply (stopped_equal_slot equal_ key_from_value_) in Hst
      as (e & u & Hpos & Hl & Ht & Hp & Heq).
    exists u. split; [| done].
    apply (Permutation_in _ Hperm1). by apply (live_In _ (Z.to_nat pos) e).
Qed.

(** X6: [emplace(v)] changes the answer of [contains] for the keys equal
    to the key of [v] only: afterwards [contains(key)] is what it was
    before, or true when [key] equals the key of [v]. *)
Theorem contains_after_emplace fuel t v key :
  lawful_keys -> table_inv t -> bucket_count t < 2 ^ 23 ->
  (2 * length (data_ t) < fuel)%nat ->
  exists t' pos inserted (before : bool),
    emplace fuel t v = Done (t', (pos, inserted)) /\
    contains fuel t key = Done before /\
    contains fuel t' key
    = Done (equal_ (key_from_value_ v) key || before).
Proof.
  intros Hlaw Hinv Hbig Hfuel.
  destruct (emplace_inv hash_ equal_ key_from_value_ fuel t v
              Hlaw Hinv Hbig Hfuel) as
    (pos & ins & t1 & t' & Hcheck & Hemp & Hinv1 & Hperm1 & Hsz1 & Hcap &
     Hinv' & Hbc' & (n & Hn & Hst) & Hcase).
  assert (Hlen' : (length (data_ t') <= fuel)%nat).
  { destruct Hcap as [[-> _] | (Hd & _)]; unfold bucket_count in *; lia. }
  destruct (contains_inv fuel t key Hlaw Hinv ltac:(lia)) as [_ Hc].
  destruct (contains_inv fuel t' key Hlaw Hinv' Hlen') as [_ Hc'].
  exists t', pos, ins. eexists. split; [done |]. split; [exact Hc |].
  rewrite Hc'. f_equal.
  destruct Hcase as [(_ & _ & _ & _ & Hperm) | (_ & ->)].
  - rewrite (has_key_perm _ _ key Hperm). simpl.
    by rewrite (has_key_perm _ _ key Hperm1).
  - rewrite (has_key_perm _ _ key Hperm1).
    destruct (equal_ (key_from_value_ v) key) eqn:Hvk; [| done]. simpl.
    apply has_key_spec.
    apply (stopped_equal_slot equal_ key_from_value_) in Hst
      as (e & u & Hpos & Hl & Ht & Hp & Heq).
    pose proof Hlaw as (_ & _ & Htrans & _).
    exists u. split.
    + apply (Permutation_in _ Hperm1). by apply (live_In _ (Z.to_nat pos) e).
    + by apply (Htrans _ _ _ Heq).
Qed.

(** The scan of [operator++] and of [find_begin]: it stops at the first
    Occupied slot of [l], or behind [l]. *)
Lemma skip_to_data_spec (l : list (Element Value)) (i0 : Z) :
  i0 <= skip_to_data l i0 <= i0 + Z.of_nat (length l) /\
  (skip_to_data l i0 < i0 + Z.of_nat (length l) ->
   exists e, l !! Z.to_nat (skip_to_data l i0 - i0) = Some e /\
             type e = DATA) /\
  (forall (j : nat) e,
     Z.of_nat j < skip_to_data l i0 - i0 ->
     l !! j = Some e -> type e <> DATA).
Proof.
  revert i0. induction l as [| e l IH]; intros i0; simpl.
  { split; [lia |]. split; [lia |]. intros j e Hj. lia. }
  destruct (type e) eqn:Ht.
  - destruct (IH (i0 + 1)) as (Hr & Hd & Hn).
    split; [lia |]. split.
    + intros Hlt. destruct Hd as (e' & Hl & Ht'); [lia |].
      exists e'. split; [| done].
      replace (Z.to_nat (skip_to_data l (i0 + 1) - i0))
        with (S (Z.to_nat (skip_to_data l (i0 + 1) - (i0 + 1)))) by lia.
      done.
    + intros [| j] e' Hj Hl.
      * simpl in Hl. injection Hl as <-. by rewrite Ht.
      * simpl in Hl. apply (Hn j e'); [lia | done].
  - destruct (IH (i0 + 1)) as (Hr & Hd & Hn).
    split; [lia |]. split.
    + intros Hlt. destruct Hd as (e' & Hl & Ht'); [lia |].
      exists e'. split; [| done].
      replace (Z.to_nat (skip_to_data l (i0 + 1) - i0))
        with (S (Z.to_nat (skip_to_data l (i0 + 1) - (i0 + 1)))) by lia.
      done.
    + intros [| j] e' Hj Hl.
      * simpl in Hl. injection Hl as <-. by rewrite Ht.
      * simpl in Hl. apply (Hn j e'); [lia | done].
  - split; [lia |]. split.
    + intros _. exists e. rewrite Z.sub_diag. done.
    + intros j e' Hj. lia.
Qed.

(** One [operator++] from a position inside the array: the next Occupied
    position, or the end. *)
Lemma iterator_next_spec data (i : nat) (next : Z) :
  (i < length data)%nat ->
  iterator_next data (Z.of_nat i) = Done next ->
  Z.of_nat i < next <= Z.of_nat (length data) /\
  (next < Z.of_nat (length data) ->
   exists e, data !! Z.to_nat next = Some e /\ type e = DATA) /\
  (forall (j : nat) e,
     Z.of_nat i < Z.of_nat j < next -> data !! j = Some e ->
     type e <> DATA).
Proof.
  intros Hi. unfold iterator_next.
  destruct (Z.leb_spec 0 (Z.of_nat i)); [| lia].
  destruct (Z.ltb_spec (Z.of_nat i) (Z.of_nat (length data))); [| lia].
  simpl. rewrite Nat2Z.id. intros [= <-].
  destruct (skip_to_data_spec (drop (S i) data) (Z.of_nat i + 1))
    as (Hr & Hd & Hn).
  rewrite length_drop in Hr, Hd.
  split; [lia |]. split.
  - intros Hlt. destruct Hd as (e & Hl & Ht); [lia |].
    exists e. split; [| done]. rewrite lookup_drop in Hl.
    rewrite <- Hl. f_equal. lia.
  - intros j e Hj Hl. apply (Hn (j - S i)%nat e); [lia |].
    rewrite lookup_drop. rewrite <- Hl. f_equal. lia.
Qed.

(** X7: [erase(pos)] at an Occupied position: the slot becomes a
    Tombstone, [size()] drops by one while the used-slot counter and the
    capacity stay, the value of that slot leaves the stored values and no
    other, and the invariants are kept. The iterator returned is the next
    Occupied position behind [pos], or [end()]. *)
Theorem erase_occupied_position t (i : nat) e u :
  lawful_keys -> table_inv t ->
  data_ t !! i = Some e -> type e = DATA -> ptr e = Some u ->
  exists t' next,
    erase t (Z.of_nat i) = Done (t', next) /\
    table_inv t' /\
    data_ t' = <[i := {| type := DELETED; ptr := None |}]> (data_ t) /\
    size t' = size t - 1 /\
    cells_cnt_ t' = cells_cnt_ t /\
    Permutation (live (data_ t)) (u :: live (data_ t')) /\
    Z.of_nat i < next <= end_ t /\
    (next < end_ t ->
     exists e', data_ t !! Z.to_nat next = Some e' /\ type e' = DATA) /\
    (forall (j : nat) e',
       Z.of_nat i < Z.of_nat j < next -> data_ t !! j = Some e' ->
       type e' <> DATA).
Proof.
  intros Hlaw Hinv Hl Ht Hp.
  destruct (erase_inv hash_ equal_ key_from_value_ t i e u Hlaw Hinv Hl Ht Hp)
    as (t' & Herase & Ht' & Hinv' & Hperm & Hfresh).
  assert (Hi : (i < length (data_ t))%nat) by (by apply lookup_lt_Some with e).
  assert (Hnext : iterator_next (data_ t) (Z.of_nat i)
                  = Done (skip_to_data (drop (S i) (data_ t))
                                       (Z.of_nat i + 1))).
  { unfold iterator_next.
    destruct (Z.leb_spec 0 (Z.of_nat i)); [| lia].
    destruct (Z.ltb_spec (Z.of_nat i) (Z.of_nat (length (data_ t)))); [| lia].
    simpl. by rewrite Nat2Z.id. }
  apply iterator_next_spec in Hnext as (Hr & Hd & Hn); [| done].
  eexists _, _. split; [exact Herase |]. split; [done |].
  rewrite Ht'. simpl. split; [done |]. split; [done |]. split; [done |].
  split; [by rewrite Ht' in Hperm |]. done.
Qed.

(** X8: after [erase] of the slot of a stored value [u], [find] returns
    [end()] for every key equal to the key of [u], and for every other
    key what it returned before: the other values stay where they are and
    stay reachable across the Tombstone. *)
Theorem find_after_erase fuel t (i : nat) e u key :
  lawful_keys -> table_inv t -> (length (data_ t) <= fuel)%nat ->
  data_ t !! i = Some e -> type e = DATA -> ptr e = Some u ->
  exists t' next,
    erase t (Z.of_nat i) = Done (t', next) /\
    end_ t' = end_ t /\
    find fuel t' key
    = (if equal_ (key_from_value_ u) key then Done (end_ t')
       else find fuel t key).
Proof.
  intros Hlaw Hinv Hfuel Hl Ht Hp.
  destruct (erase_inv hash_ equal_ key_from_value_ t i e u Hlaw Hinv Hl Ht Hp)
    as (t' & Herase & Ht' & Hinv' & Hperm & Hfresh).
  assert (Hlen' : length (data_ t') = length (data_ t)).
  { rewrite Ht'. simpl. by rewrite length_insert. }
  assert (Hend : end_ t' = end_ t).
  { unfold end_, bucket_count. by rewrite Hlen'. }
  eexists _, _. split; [exact Herase |]. split; [done |].
  destruct (equal_ (key_from_value_ u) key) eqn:Heq.
  - apply (find_erased hash_ equal_ key_from_value_ fuel t' u key);
      try done. lia.
  - destruct (find_inv hash_ equal_ key_from_value_ fuel t key
                Hlaw Hinv Hfuel)
      as [(pos & e1 & w & Hfind & Hpos & Hl1 & Ht1 & Hp1 & Hw) | [Hfind Hnone]].
    + rewrite Hfind.
      assert (Hne : Z.to_nat pos <> i).
      { intros Hsame. rewrite Hsame, Hl in Hl1. injection Hl1 as <-.
        rewrite Hp in Hp1. injection Hp1 as <-. congruence. }
      rewrite <- (Z2Nat.id pos) by lia.
      apply (find_stored hash_ equal_ key_from_value_ fuel t'
               (Z.to_nat pos) e1 w key); try done; [lia |].
      rewrite Ht'. simpl. by rewrite list_lookup_insert_ne.
    + rewrite Hfind, <- Hend.
      destruct (find_inv hash_ equal_ key_from_value_ fuel t' key
                  Hlaw Hinv' ltac:(lia))
        as [(pos & e1 & w & Hfind' & Hpos & Hl1 & Ht1 & Hp1 & Hw)
           | [Hfind' _]]; [| done].
      exfalso.
      assert (Hin : In w (live (data_ t))).
      { apply (Permutation_in _ (Permutation_sym Hperm)). right.
        by apply (live_In _ (Z.to_nat pos) e1). }
      by rewrite (Hnone w Hin) in Hw.
Qed.


(** X10: [rehash] to a power-of-two capacity that has room for the
    stored values builds a table that keeps all the invariants, whatever
    the layout of the old one was: afterwards every stored value is found
    by [find] under its key. *)
Theorem rehash_to_power_of_two_finds_all fuel (m : Z) t :
  lawful_keys -> table_ok t ->
  2 <= m <= 23 -> 2 * size t <= 2 ^ m -> 2 ^ m <> bucket_count t ->
  (Z.to_nat (2 ^ m) < fuel)%nat ->
  exists t',
    rehash fuel (2 ^ m) t = Done t' /\
    table_inv t' /\
    bucket_count t' = 2 ^ m /\
    forall u, In u (live (data_ t)) ->
      exists pos,
        find fuel t' (key_from_value_ u) = Done pos /\
        data_ t' !! Z.to_nat pos = Some (Element_of u).
Proof.
  intros Hlaw Hok Hm Hroom Hne Hfuel.
  destruct (rehash_inv hash_ equal_ key_from_value_ fuel m t
              Hlaw Hok Hm Hroom Hne Hfuel)
    as (t' & Hre & Hinv' & Hbc' & Hperm & _).
  exists t'. split; [done |]. split; [done |]. split; [done |].
  intros u Hu. apply (Permutation_in _ (Permutation_sym Hperm)) in Hu.
  apply (In_live (Value := Value)) in Hu as (i & e & Hl & Ht & Hp).
  pose proof Hlaw as (Hrefl & _).
  exists (Z.of_nat i). split.
  - apply (find_stored hash_ equal_ key_from_value_ fuel t' i e u); try done.
    unfold bucket_count in Hbc'. lia.
  - rewrite Nat2Z.id, Hl. f_equal. destruct e; simpl in *; by subst.
Qed.

(** X11: [reserve(count)] for a count that is at least [size()]: the
    capacity becomes the power of two [2^(floor(log2 count) + 2)], more
    than twice [count]; the stored values and [size()] are unchanged and
    the invariants are kept. *)
Theorem reserve_keeps_content fuel (n : Z) t :
  lawful_keys -> table_inv t ->
  1 <= n < 2 ^ 21 -> size t <= n ->
  (64 <= fuel)%nat -> (4 * Z.to_nat n < fuel)%nat ->
  exists t',
    reserve fuel n t = Done t' /\
    table_inv t' /\
    bucket_count t' = 2 ^ (Z.log2 n + 2) /\
    2 * n < bucket_count t' /\
    Permutation (live (data_ t')) (live (data_ t)) /\
    size t' = size t.
Proof.
  intros Hlaw Hinv Hn Hsize Hfuel Hfuel2. unfold size in *.
  assert (Hlog : 0 <= Z.log2 n < 21).
  { split; [apply Z.log2_nonneg |]. apply Z.log2_lt_pow2; lia. }
  assert (Hspec : 2 ^ Z.log2 n <= n < 2 ^ Z.succ (Z.log2 n))
    by (apply Z.log2_spec; lia).
  assert (Hpow : 2 ^ (Z.log2 n + 2) = 4 * 2 ^ Z.log2 n).
  { rewrite Z.pow_add_r by lia. lia. }
  rewrite Z.pow_succ_r in Hspec by lia.
  unfold reserve.
  rewrite float_of_size_exact by lia.
  rewrite size_of_float_double by (unfold size_t_modulus; lia). simpl.
  rewrite optimal_size_spec by lia. simpl.
  rewrite Z.log2_double by lia.
  replace (Z.succ (Z.log2 n) + 1) with (Z.log2 n + 2) by lia.
  destruct (Z.eq_dec (2 ^ (Z.log2 n + 2)) (bucket_count t)) as [Heq | Hne].
  - exists t. split.
    { destruct fuel as [| fuel']; [lia |]. simpl.
      by destruct (Z.eqb_spec (2 ^ (Z.log2 n + 2)) (bucket_count t)). }
    split; [done |]. split; [done |]. split; [lia |]. done.
  - destruct (rehash_inv hash_ equal_ key_from_value_ fuel (Z.log2 n + 2) t
                Hlaw (proj1 Hinv))
      as (t' & Hre & Hinv' & Hbc' & Hperm & Hsz' & _);
      [lia | lia | done | lia |].
    exists t'. split; [done |]. split; [done |]. split; [done |].
    split; [lia |]. done.
Qed.

(** X12: the range constructor [HashTable(first, last, getKV, hint)]
    and [insert(first, last)], through all the rehashes on the way:
    the table keeps the invariants, every key of the range is contained,
    only values of the range are stored, and when the keys of the range
    are pairwise different every value is stored and [size()] is their
    number. *)
Theorem range_constructor_stores_the_range fuel (vs : list Value) (h : Z) :
  lawful_keys ->
  1 <= h < 2 ^ 21 -> Z.of_nat (length vs) < 2 ^ 21 ->
  (64 <= fuel)%nat ->
  (2 * Z.to_nat (Z.max (4 * h) (4 * Z.of_nat (length vs))) < fuel)%nat ->
  exists t,
    HashTable_of_range fuel vs h = Done t /\
    table_inv t /\
    (forall v, In v vs -> contains fuel t (key_from_value_ v) = Done true) /\
    (forall u, In u (live (data_ t)) -> In u vs) /\
    (unique_keys vs ->
     Permutation (live (data_ t)) vs /\ size t = Z.of_nat (length vs)).
Proof.
  intros Hlaw Hh Hlen Hfuel Hfuel2.
  assert (Hlog : 0 <= Z.log2 h < 21).
  { split; [apply Z.log2_nonneg |]. apply Z.log2_lt_pow2; lia. }
  assert (Hspec : 2 ^ Z.log2 h <= h < 2 ^ Z.succ (Z.log2 h))
    by (apply Z.log2_spec; lia).
  assert (Hpow : 2 ^ (Z.log2 h + 2) = 4 * 2 ^ Z.log2 h).
  { rewrite Z.pow_add_r by lia. lia. }
  unfold HashTable_of_range.
  rewrite HashTable_new_spec by lia. simpl.
  set (t0 := {| data_ := fresh_slots (2 ^ (Z.log2 h + 2));
                size_ := 0; cells_cnt_ := 0 |}).
  assert (Hinv0 : table_inv t0) by (apply fresh_table_inv; lia).
  assert (Hbc0 : bucket_count t0 = 2 ^ (Z.log2 h + 2)).
  { unfold bucket_count, t0, fresh_slots. simpl.
    rewrite length_replicate. lia. }
  assert (Hlive0 : live (data_ t0) = []).
  { unfold t0, fresh_slots. simpl. apply live_replicate_free. }
  set (B := Z.max (4 * h) (4 * Z.of_nat (length vs))).
  destruct (insert_range_inv hash_ equal_ key_from_value_ fuel B vs t0
              Hlaw Hinv0)
    as (t & Hins & Hinv & Hbc & Hcells & Hsub & _ & Hall & Hperm);
    [unfold B; lia | done | unfold B; lia | unfold B, t0; simpl; lia |].
  exists t. split; [done |]. split; [done |].
  assert (Hlent : (length (data_ t) <= fuel)%nat).
  { unfold bucket_count, B in *. lia. }
  split; [| split].
  - intros v Hv. destruct (Hall v Hv) as (u & Hu & Heq).
    destruct (contains_inv fuel t (key_from_value_ v) Hlaw Hinv Hlent)
      as [_ ->].
    f_equal. apply has_key_spec. by exists u.
  - intros u Hu. destruct (Hsub u Hu) as [Hu' | Hu']; [| done].
    rewrite Hlive0 in Hu'. destruct Hu'.
  - intros Huniq.
    assert (Hp : Permutation (live (data_ t)) vs).
    { rewrite Hperm; [| done |].
      - rewrite Hlive0, app_nil_r. symmetry. apply Permutation_rev.
      - intros w _. rewrite Hlive0. by intros u []. }
    split; [done |].
    destruct Hinv as ((_ & Hsz & _) & _). unfold size.
    by rewrite Hsz, (Permutation_length Hp).
Qed.

(** X13: a table built by [HashTable(getKV, hint)] keeps the invariants
    and is empty: [size()] is 0, [begin()] is [end()], and [find] returns
    [end()] for every key. *)
Theorem constructed_table_is_empty (fuel : nat) (h : Z) key :
  1 <= h < 2 ^ 22 -> (64 <= fuel)%nat ->
  exists t0 : HashTable Value,
    HashTable_new fuel h = Done t0 /\
    table_inv t0 /\
    size t0 = 0 /\
    begin t0 = end_ t0 /\
    find fuel t0 key = Done (end_ t0).
Proof.
  intros Hh Hfuel.
  assert (Hlog : 0 <= Z.log2 h < 22).
  { split; [apply Z.log2_nonneg |]. apply Z.log2_lt_pow2; lia. }
  rewrite HashTable_new_spec by lia.
  set (c := 2 ^ (Z.log2 h + 2)).
  assert (Hc : 4 <= c).
  { unfold c. change 4 with (2 ^ 2). apply Z.pow_le_mono_r; lia. }
  eexists. split; [reflexivity |].
  split; [apply fresh_table_inv; lia |]. split; [done |]. fold c.
  unfold begin, end_, bucket_count, fresh_slots. simpl.
  rewrite length_replicate. split.
  - assert (Hskip : forall (n : nat) i0,
              skip_to_data (replicate n (Element_default : Element Value)) i0
              = i0 + Z.of_nat n).
    { induction n as [| n IH]; intros i0; simpl; [lia |].
      rewrite IH. lia. }
    rewrite Hskip. lia.
  - set (data := replicate (Z.to_nat c) (Element_default : Element Value)).
    assert (Hlen : 0 < Z.of_nat (length data)).
    { unfold data. rewrite length_replicate. lia. }
    destruct (linear_slot_at data (hash_of hash_ key) 0 Hlen)
      as (e & Hs & Hl).
    apply lookup_replicate in Hl as [-> _].
    rewrite (find_stopped (P := LinearProbing) hash_ equal_ key_from_value_
               fuel {| data_ := data; size_ := 0; cells_cnt_ := 0 |} key 0
               (AtFree (wrap (hash_of hash_ key + Z.of_nat 0)
                        mod Z.of_nat (length data)))).
    + unfold end_, bucket_count, data. simpl. by rewrite length_replicate.
    + split; [intros j Hj; lia |].
      eexists _, _. split; [exact Hs |]. by right.
    + lia.
Qed.

Lemma occupied_from_skip (l : list (Element Value)) (i0 : Z) :
  occupied_from l i0
  = if skip_to_data l i0 <? i0 + Z.of_nat (length l)
    then skip_to_data l i0
         :: occupied_from (drop (S (Z.to_nat (skip_to_data l i0 - i0))) l)
                          (skip_to_data l i0 + 1)
    else [].
Proof.
  revert i0. induction l as [| e l IH]; intros i0.
  { simpl. destruct (_ <? _) eqn:Hlt; [| done].
    apply Z.ltb_lt in Hlt. simpl in Hlt. lia. }
  pose proof (skip_to_data_spec l (i0 + 1)) as (Hr & _).
  assert (Hlen : i0 + Z.of_nat (length (e :: l))
                 = i0 + 1 + Z.of_nat (length l)) by (simpl length; lia).
  rewrite Hlen. cbn [occupied_from skip_to_data].
  assert (Hstep : forall r, i0 + 1 <= r ->
            drop (S (Z.to_nat (r - i0))) (e :: l)
            = drop (S (Z.to_nat (r - (i0 + 1)))) l).
  { intros r Hle.
    replace (Z.to_nat (r - i0)) with (S (Z.to_nat (r - (i0 + 1)))) by lia.
    done. }
  destruct (type e) eqn:Ht.
  - rewrite IH, Hstep by lia. done.
  - rewrite IH, Hstep by lia. done.
  - destruct (Z.ltb_spec i0 (i0 + 1 + Z.of_nat (length l))); [| lia].
    rewrite Z.sub_diag. simpl. by rewrite drop_0.
Qed.

(** The iteration from the first Occupied position at or behind [i]. *)
Lemma positions_from_spec data : forall (fuel i : nat),
  (i <= length data)%nat -> (length data - i < fuel)%nat ->
  positions_from fuel data (skip_to_data (drop i data) (Z.of_nat i))
  = Done (occupied_from (drop i data) (Z.of_nat i)).
Proof.
  induction fuel as [| fuel IH]; intros i Hi Hfuel; [lia |].
  pose proof (skip_to_data_spec (drop i data) (Z.of_nat i)) as (Hr & _).
  rewrite length_drop in Hr.
  rewrite (occupied_from_skip (drop i data)). rewrite length_drop.
  set (r := skip_to_data (drop i data) (Z.of_nat i)) in *.
  simpl.
  destruct (Z.eqb_spec r (Z.of_nat (length data))) as [Hend | Hin].
  { destruct (Z.ltb_spec r (Z.of_nat i + Z.of_nat (length data - i)));
      [lia | done]. }
  destruct (Z.ltb_spec r (Z.of_nat i + Z.of_nat (length data - i)));
    [| lia].
  unfold iterator_next.
  destruct (Z.leb_spec 0 r); [| lia].
  destruct (Z.ltb_spec r (Z.of_nat (length data))); [| lia]. simpl.
  rewrite drop_drop.
  replace (i + S (Z.to_nat (r - Z.of_nat i)))%nat with (S (Z.to_nat r))
    by lia.
  replace (r + 1) with (Z.of_nat (S (Z.to_nat r))) by lia.
  rewrite IH by lia. done.
Qed.

Lemma occupied_from_In (l : list (Element Value)) : forall (i0 i : Z),
  In i (occupied_from l i0) <->
  i0 <= i /\ exists e, l !! Z.to_nat (i - i0) = Some e /\ type e = DATA.
Proof.
  induction l as [| e l IH]; intros i0 i; simpl.
  { split; [done |]. by intros (_ & e & [=] & _). }
  assert (Htail : In i (occupied_from l (i0 + 1)) <->
                  i0 < i /\ exists e', (e :: l) !! Z.to_nat (i - i0) = Some e'
                                       /\ type e' = DATA).
  { rewrite IH. split.
    - intros (Hle & e' & Hl & Ht). split; [lia |]. exists e'.
      split; [| done].
      replace (Z.to_nat (i - i0)) with (S (Z.to_nat (i - (i0 + 1)))) by lia.
      done.
    - intros (Hlt & e' & Hl & Ht). split; [lia |]. exists e'.
      split; [| done].
      replace (Z.to_nat (i - i0)) with (S (Z.to_nat (i - (i0 + 1))))
        in Hl by lia.
      done. }
  assert (Hhead : forall e', i0 <= i ->
            (e :: l) !! Z.to_nat (i - i0) = Some e' -> type e' = DATA ->
            type e <> DATA -> i0 < i).
  { intros e' Hle Hl Ht Hne.
    destruct (Z.eq_dec i i0) as [-> | ?]; [| lia].
    rewrite Z.sub_diag in Hl. simpl in Hl. injection Hl as <-. done. }
  destruct (type e) eqn:Ht; simpl; rewrite ?Htail.
  - split; [intros (? & ?); split; [lia | done] |].
    intros (Hle & e' & Hl & Ht'). split; [| by exists e'].
    apply (Hhead e'); done.
  - split; [intros (? & ?); split; [lia | done] |].
    intros (Hle & e' & Hl & Ht'). split; [| by exists e'].
    apply (Hhead e'); done.
  - split.
    + intros [<- | (? & ?)]; [| split; [lia | done]].
      split; [lia |]. exists e. rewrite Z.sub_diag. done.
    + intros (Hle & e' & Hl & Ht').
      destruct (Z.eq_dec i i0) as [-> | ?]; [by left | right].
      split; [lia | by exists e'].
Qed.

Lemma occupied_from_sorted (l : list (Element Value)) : forall (i0 : Z),
  StronglySorted Z.lt (occupied_from l i0).
Proof.
  induction l as [| e l IH]; intros i0; simpl; [constructor |].
  destruct (type e); try apply IH.
  constructor; [apply IH |].
  apply Forall_forall. intros i Hi. apply list_elem_of_In in Hi.
  apply occupied_from_In in Hi. lia.
Qed.

Lemma data_at_occupied (pre l : list (Element Value)) :
  Forall owned l ->
  data_at (pre ++ l) (occupied_from l (Z.of_nat (length pre)))
  = Done (live l).
Proof.
  revert pre. induction l as [| e l IH]; intros pre Ho; [done |].
  apply Forall_cons in Ho as [Ho1 Ho].
  assert (Hmove : pre ++ e :: l = (pre ++ [e]) ++ l)
    by (by rewrite <- app_assoc).
  assert (Hnext : Z.of_nat (length pre) + 1 = Z.of_nat (length (pre ++ [e]))).
  { rewrite length_app. simpl. lia. }
  change (live (e :: l))
    with (match live_value e with
          | Some v => v :: live l
          | None => live l
          end).
  simpl. unfold live_value.
  destruct (type e) eqn:Ht.
  - rewrite Hnext, Hmove. by apply IH.
  - rewrite Hnext, Hmove. by apply IH.
  - destruct (ptr e) as [v |] eqn:Hp; [| by destruct (Ho1 Ht)].
    simpl.
    assert (Hat : at_ (pre ++ e :: l) (Z.of_nat (length pre)) = Done e).
    { apply at_Done_lookup. split; [lia |]. rewrite Nat2Z.id.
      by rewrite list_lookup_middle. }
    rewrite Hat. simpl. unfold Element_data. rewrite Hp. simpl.
    rewrite Hnext, Hmove, IH by done. done.
Qed.

Lemma occupied_from_length (l : list (Element Value)) (i0 : Z) :
  Forall owned l -> length (occupied_from l i0) = length (live l).
Proof.
  revert i0. induction l as [| e l IH]; intros i0 Ho; [done |].
  apply Forall_cons in Ho as [Ho1 Ho].
  change (live (e :: l))
    with (match live_value e with
          | Some v => v :: live l
          | None => live l
          end).
  simpl. unfold live_value.
  destruct (type e) eqn:Ht; try by apply IH.
  destruct (ptr e) as [v |] eqn:Hp; [| by destruct (Ho1 Ht)].
  simpl. f_equal. by apply IH.
Qed.

(** X14: the loop [for (it = begin(); it != end(); ++it)] visits the
    Occupied slots and only them, each once, in ascending order of
    position; it yields the stored values in array order, [size()] of
    them, and ends after at most [capacity] steps. *)
Theorem iteration_visits_occupied_slots fuel t :
  table_ok t -> (length (data_ t) < fuel)%nat ->
  exists ps,
    positions fuel t = Done ps /\
    StronglySorted Z.lt ps /\
    (forall i, In i ps <->
       0 <= i /\ exists e, data_ t !! Z.to_nat i = Some e /\ type e = DATA) /\
    elements fuel t = Done (live (data_ t)) /\
    Z.of_nat (length ps) = size t.
Proof.
  intros (Ho & Hsz & _) Hfuel.
  pose proof (positions_from_spec (data_ t) fuel 0 ltac:(lia) ltac:(lia))
    as Hpos.
  rewrite drop_0 in Hpos. change (Z.of_nat 0) with 0 in Hpos.
  exists (occupied_from (data_ t) 0).
  split; [exact Hpos |]. split; [apply occupied_from_sorted |].
  split; [| split].
  - intros i. rewrite occupied_from_In. by rewrite Z.sub_0_r.
  - unfold elements, positions, begin. rewrite Hpos. simpl.
    apply (data_at_occupied [] (data_ t) Ho).
  - unfold size. by rewrite Hsz, occupied_from_length.
Qed.

(** X15: [equal_range(key)] on a table that keeps the invariants: for a
    key that is not stored both iterators are [end()]; for a stored key
    the first is the slot of that key and the second the next Occupied
    position behind it (an Occupied slot with no Occupied slot in
    between) or [end()], so that the range holds that one value. *)
Theorem equal_range_holds_the_key fuel t key :
  lawful_keys -> table_inv t -> (length (data_ t) <= fuel)%nat ->
  exists a b,
    equal_range fuel t key = Done (a, b) /\
    (((forall u, In u (live (data_ t)) ->
         equal_ (key_from_value_ u) key = false) /\
      a = end_ t /\ b = end_ t) \/
     (exists u,
        0 <= a /\ data_ t !! Z.to_nat a = Some (Element_of u) /\
        equal_ (key_from_value_ u) key = true /\
        a < b <= end_ t /\
        (b < end_ t ->
         exists e', data_ t !! Z.to_nat b = Some e' /\ type e' = DATA) /\
        (forall (j : nat) e',
           a < Z.of_nat j < b -> data_ t !! j = Some e' ->
           type e' <> DATA))).
Proof.
  intros Hlaw Hinv Hfuel. unfold equal_range.
  destruct (find_inv hash_ equal_ key_from_value_ fuel t key Hlaw Hinv Hfuel)
    as [(pos & e & u & Hfind & Hpos & Hl & Ht & Hp & Heq) | [Hfind Hnone]].
  - rewrite Hfind. simpl. unfold end_.
    destruct (Z.eqb_spec pos (bucket_count t)); [lia |].
    assert (Hlt : (Z.to_nat pos < length (data_ t))%nat)
      by (by apply lookup_lt_Some with e).
    destruct (iterator_next (data_ t) pos) as [next | |] eqn:Hnext.
    + rewrite <- (Z2Nat.id pos) in Hnext by lia.
      apply iterator_next_spec in Hnext as (Hr & Hd & Hn); [| done].
      rewrite Z2Nat.id in Hr, Hn by lia.
      exists pos, next. split; [done |]. right. exists u.
      split; [lia |]. split.
      { rewrite Hl. f_equal. destruct e; simpl in *; by subst. }
      split; [done |]. split; [unfold bucket_count; lia |].
      split; [| done]. intros Hb. apply Hd. unfold bucket_count in Hb. lia.
    + exfalso. unfold iterator_next, bucket_count in *.
      destruct (Z.leb_spec 0 pos); [| lia].
      destruct (Z.ltb_spec pos (Z.of_nat (length (data_ t)))); [| lia].
      done.
    + exfalso. unfold iterator_next, bucket_count in *.
      destruct (Z.leb_spec 0 pos); [| lia].
      destruct (Z.ltb_spec pos (Z.of_nat (length (data_ t)))); [| lia].
      done.
  - rewrite Hfind. simpl. rewrite Z.eqb_refl.
    exists (end_ t), (end_ t). split; [done |]. by left.
Qed.

(** X16: [erase(first, last)] with [last == end()], as in
    [erase(begin(), end())], is undefined whatever the table and [first]:
    the result [iterator(last) + 1] is computed before the loop, and it
    steps the end iterator past the array. *)
Theorem erase_range_to_end_undefined (fuel : nat) t (first : Z) :
  erase_range fuel t first (end_ t) = Undefined.
Proof.
  unfold erase_range, iterator_next, end_, bucket_count.
  destruct (Z.ltb_spec (Z.of_nat (length (data_ t)))
                       (Z.of_nat (length (data_ t)))); [lia |].
  by rewrite andb_false_r.
Qed.

Lemma erase_between_lookup data (first last : Z) (j : nat) :
  erase_between data first last !! j
  = (fun e => if (first <=? Z.of_nat j) && (Z.of_nat j <? last)
                 && ElementType_eqb (type e) DATA
              then Element_free e else e) <$> data !! j.
Proof. unfold erase_between. by rewrite list_lookup_imap. Qed.

(** The loop of [erase(first, last)] between two Occupied positions. *)
Lemma erase_range_loop_inv : forall (fuel : nat) t (i last : nat),
  lawful_keys -> table_inv t ->
  (i <= last)%nat -> (last - i < fuel)%nat ->
  (exists e, data_ t !! i = Some e /\ type e = DATA) ->
  (exists e, data_ t !! last = Some e /\ type e = DATA) ->
  exists t',
    erase_range_loop fuel t (Z.of_nat i) (Z.of_nat last) = Done t' /\
    table_inv t' /\
    data_ t' = erase_between (data_ t) (Z.of_nat i) (Z.of_nat last) /\
    cells_cnt_ t' = cells_cnt_ t.
Proof.
  induction fuel as [| fuel IH]; intros t i last Hlaw Hinv Hle Hfuel Hi Hlast;
    [lia |].
  simpl.
  destruct (Z.eqb_spec (Z.of_nat i) (Z.of_nat last)) as [Heq | Hne].
  { exists t. split; [done |]. split; [done |]. split; [| done].
    apply list_eq. intros j. rewrite erase_between_lookup.
    destruct (data_ t !! j) as [e |]; [| done]. simpl.
    destruct (Z.leb_spec (Z.of_nat i) (Z.of_nat j));
      destruct (Z.ltb_spec (Z.of_nat j) (Z.of_nat last)); simpl; try done.
    lia. }
  destruct Hi as (e & Hl & Ht).
  pose proof Hinv as ((Ho & _) & _).
  destruct (ptr e) as [u |] eqn:Hp.
  2: { rewrite Forall_lookup in Ho. by destruct (Ho i e Hl Ht). }
  destruct (erase_inv hash_ equal_ key_from_value_ t i e u Hlaw Hinv Hl Ht Hp)
    as (t1 & Herase & Ht1 & Hinv1 & Hperm & Hfresh).
  rewrite Herase. simpl.
  assert (Hlen1 : length (data_ t1) = length (data_ t)).
  { rewrite Ht1. simpl. by rewrite length_insert. }
  assert (Hil : (i < length (data_ t))%nat) by (by apply lookup_lt_Some with e).
  destruct Hlast as (el & Hll & Htl).
  assert (Hlast1 : data_ t1 !! last = Some el).
  { rewrite Ht1. simpl. rewrite list_lookup_insert_ne by lia. done. }
  destruct (iterator_next (data_ t1) (Z.of_nat i)) as [next | |] eqn:Hnext;
    cycle 1.
  { exfalso. unfold iterator_next in Hnext.
    destruct (Z.leb_spec 0 (Z.of_nat i)); [| lia].
    destruct (Z.ltb_spec (Z.of_nat i) (Z.of_nat (length (data_ t1))));
      [done | lia]. }
  { exfalso. unfold iterator_next in Hnext.
    destruct (Z.leb_spec 0 (Z.of_nat i)); [| lia].
    destruct (Z.ltb_spec (Z.of_nat i) (Z.of_nat (length (data_ t1))));
      [done | lia]. }
  simpl.
  apply iterator_next_spec in Hnext as (Hr & Hd & Hn); [| lia].
  assert (Hnl : next <= Z.of_nat last).
  { destruct (Z.le_gt_cases next (Z.of_nat last)) as [| Hgt]; [done |].
    destruct (Hn last el ltac:(lia) Hlast1). done. }
  assert (Hlastlt : (last < length (data_ t))%nat)
    by (by apply lookup_lt_Some with el).
  destruct Hd as (en & Hln & Htn); [lia |].
  destruct (IH t1 (Z.to_nat next) last Hlaw Hinv1) as
    (t' & Hloop & Hinv' & Hdata' & Hcells'); [lia | lia | | |].
  { by exists en. }
  { by exists el. }
  rewrite Z2Nat.id in Hloop, Hdata' by lia.
  exists t'. split; [done |]. split; [done |]. split.
  - rewrite Hdata'. apply list_eq. intros j.
    rewrite !erase_between_lookup. rewrite Ht1. simpl.
    destruct (decide (j = i)) as [-> | Hji].
    + rewrite list_lookup_insert_eq by done. rewrite Hl. simpl.
      rewrite Ht. simpl.
      destruct (Z.leb_spec next (Z.of_nat i)); [lia |].
      destruct (Z.leb_spec (Z.of_nat i) (Z.of_nat i)); [| lia].
      destruct (Z.ltb_spec (Z.of_nat i) (Z.of_nat last)); [| lia].
      done.
    + rewrite list_lookup_insert_ne by done.
      destruct (data_ t !! j) as [ej |] eqn:Hlj; [| done]. simpl. f_equal.
      destruct (Z.leb_spec next (Z.of_nat j));
        destruct (Z.leb_spec (Z.of_nat i) (Z.of_nat j));
        destruct (Z.ltb_spec (Z.of_nat j) (Z.of_nat last));
        simpl; try done; try lia.
      destruct (type ej) eqn:Htj; simpl; try done.
      exfalso. apply (Hn j ej); [lia | | done].
      rewrite Ht1. simpl. by rewrite list_lookup_insert_ne.
  - rewrite Hcells', Ht1. done.
Qed.

(** X17: [erase(first, last)] between two Occupied positions,
    [first <= last]: every Occupied slot from [first] up to, not
    including, [last] becomes a Tombstone and no other slot changes; the
    used-slot counter stays, the invariants are kept, and the iterator
    returned is the next Occupied position behind [last] (a slot that is
    Occupied before and after the call, with no Occupied slot in
    between), or [end()]. *)
Theorem erase_range_erases_between fuel t (first last : nat) :
  lawful_keys -> table_inv t ->
  (first <= last)%nat -> (last - first < fuel)%nat ->
  (exists e, data_ t !! first = Some e /\ type e = DATA) ->
  (exists e, data_ t !! last = Some e /\ type e = DATA) ->
  exists t' next,
    erase_range fuel t (Z.of_nat first) (Z.of_nat last) = Done (t', next) /\
    table_inv t' /\
    data_ t' = erase_between (data_ t) (Z.of_nat first) (Z.of_nat last) /\
    cells_cnt_ t' = cells_cnt_ t /\
    size t' = Z.of_nat (length (live (data_ t'))) /\
    Z.of_nat last < next <= end_ t /\
    (next < end_ t ->
     exists e', data_ t !! Z.to_nat next = Some e' /\ type e' = DATA /\
                data_ t' !! Z.to_nat next = Some e') /\
    (forall (j : nat) e',
       Z.of_nat last < Z.of_nat j < next -> data_ t !! j = Some e' ->
       type e' <> DATA).
Proof.
  intros Hlaw Hinv Hle Hfuel Hfirst Hlast.
  destruct (erase_range_loop_inv fuel t first last Hlaw Hinv Hle Hfuel
              Hfirst Hlast) as (t' & Hloop & Hinv' & Hdata' & Hcells').
  destruct Hlast as (el & Hll & Htl).
  assert (Hlastlt : (last < length (data_ t))%nat)
    by (by apply lookup_lt_Some with el).
  unfold erase_range.
  destruct (iterator_next (data_ t) (Z.of_nat last)) as [next | |] eqn:Hnext;
    cycle 1.
  { exfalso. unfold iterator_next in Hnext.
    destruct (Z.leb_spec 0 (Z.of_nat last)); [| lia].
    destruct (Z.ltb_spec (Z.of_nat last) (Z.of_nat (length (data_ t))));
      [done | lia]. }
  { exfalso. unfold iterator_next in Hnext.
    destruct (Z.leb_spec 0 (Z.of_nat last)); [| lia].
    destruct (Z.ltb_spec (Z.of_nat last) (Z.of_nat (length (data_ t))));
      [done | lia]. }
  simpl. rewrite Hloop. simpl.
  apply iterator_next_spec in Hnext as (Hr & Hd & Hn); [| done].
  exists t', next. split; [done |]. split; [done |]. split; [done |].
  split; [done |]. split.
  { by destruct Hinv' as ((_ & Hsz & _) & _). }
  split; [unfold end_, bucket_count; lia |]. split; [| done].
  intros Hnext. destruct Hd as (e' & Hl' & Ht').
  { unfold end_, bucket_count in Hnext. lia. }
  exists e'. split; [done |]. split; [done |].
  rewrite Hdata', erase_between_lookup, Hl'. simpl.
  destruct (Z.ltb_spec (Z.of_nat (Z.to_nat next)) (Z.of_nat last)); [lia |].
  by rewrite andb_false_r.
Qed.

Local Abbreviation all_contained :=
  (@all_contained Key Value LinearProbing _ hash_ equal_ key_from_value_).
Local Abbreviation table_eq :=
  (@table_eq Key Value LinearProbing _ hash_ equal_ key_from_value_).

(** The loop of [operator==] over the slots of the left table. *)
Lemma all_contained_inv fuel rhs : forall els,
  lawful_keys -> table_inv rhs -> (length (data_ rhs) <= fuel)%nat ->
  Forall owned els ->
  all_contained fuel rhs els
  = Done (forallb (fun u =>
                     existsb (fun w => equal_ (key_from_value_ w)
                                              (key_from_value_ u))
                             (live (data_ rhs)))
                  (live els)).
Proof.
  intros els Hlaw Hinv Hfuel. induction els as [| el els IH]; intros Ho;
    [done |].
  apply Forall_cons in Ho as [Ho1 Ho].
  change (live (el :: els))
    with (match live_value el with
          | Some v => v :: live els
          | None => live els
          end).
  cbn [all_contained]. unfold live_value.
  destruct (type el) eqn:Ht; try by apply IH.
  destruct (ptr el) as [v |] eqn:Hp; [| by destruct (Ho1 Ht)].
  unfold Element_data. rewrite Hp. cbn [rbind].
  destruct (contains_inv fuel rhs (key_from_value_ v) Hlaw Hinv Hfuel)
    as [_ Hc].
  rewrite Hc. cbn [rbind forallb].
  destruct (existsb _ (live (data_ rhs))); simpl; [by apply IH | done].
Qed.

(** X18: what [operator==] computes on tables that keep the invariants:
    it is true exactly when the sizes are equal and every key of the left
    table is stored in the right one; the values stored under the keys
    play no part. In particular a table equals itself. *)
Theorem table_eq_compares_sizes_and_keys fuel lhs rhs :
  lawful_keys -> table_inv lhs -> table_inv rhs ->
  (length (data_ lhs) <= fuel)%nat -> (length (data_ rhs) <= fuel)%nat ->
  table_eq fuel lhs rhs
  = Done ((size lhs =? size rhs) &&
          forallb (fun u =>
                     existsb (fun w => equal_ (key_from_value_ w)
                                              (key_from_value_ u))
                             (live (data_ rhs)))
                  (live (data_ lhs))) /\
  table_eq fuel lhs lhs = Done true.
Proof.
  intros Hlaw Hl Hr Hfl Hfr.
  assert (Hgen : forall a b, table_inv a -> table_inv b ->
            (length (data_ b) <= fuel)%nat ->
            table_eq fuel a b
            = Done ((size a =? size b) &&
                    forallb (fun u =>
                               existsb (fun w => equal_ (key_from_value_ w)
                                                        (key_from_value_ u))
                                       (live (data_ b)))
                            (live (data_ a)))).
  { intros a b Ha Hb Hfb. unfold table_eq.
    destruct (size a =? size b); simpl; [| done].
    apply all_contained_inv; try done. by destruct Ha as ((? & _) & _). }
  split; [by apply Hgen |].
  rewrite Hgen by done. rewrite Z.eqb_refl. simpl. f_equal.
  apply forallb_forall. intros u Hu. apply has_key_spec.
  exists u. split; [done |]. by destruct Hlaw as (Hrefl & _).
Qed.

(** X19: the load after an insertion. On a table that keeps the
    invariants, after [emplace] at most half of the slots plus one are
    Occupied: [2 * size() <= bucket_count() + 2], so that [load_factor()]
    is at most [3/4]; it may exceed [max_load_factor()]. *)
Theorem load_factor_after_emplace fuel t v :
  lawful_keys -> table_inv t -> bucket_count t < 2 ^ 23 ->
  (2 * length (data_ t) < fuel)%nat ->
  exists t' pos inserted,
    emplace fuel t v = Done (t', (pos, inserted)) /\
    0 <= size t' <= cells_cnt_ t' /\
    2 * cells_cnt_ t' <= bucket_count t' + 2 /\
    (load_factor t' <= 3 # 4)%Q.
Proof.
  intros Hlaw Hinv Hbig Hfuel.
  destruct (emplace_inv hash_ equal_ key_from_value_ fuel t v
              Hlaw Hinv Hbig Hfuel) as
    (pos & ins & t1 & t' & Hcheck & Hemp & Hinv1 & Hperm1 & Hsz1 & Hcap &
     Hinv' & _).
  exists t', pos, ins. split; [done |].
  pose proof (inv_capacity hash_ equal_ key_from_value_ t' Hinv') as [Hbc _].
  destruct Hinv' as ((_ & Hsz & _) & Hcells & _ & Hload & _).
  pose proof (live_le_used (data_ t')) as Hlu.
  unfold size. split; [lia |]. split; [done |].
  unfold load_factor, size.
  apply Qle_shift_div_r.
  - change 0%Q with (inject_Z 0). rewrite <- Zlt_Qlt. lia.
  - unfold Qle, Qmult, inject_Z. simpl. lia.
Qed.

End EngineProperties.

(** ** The two policies (policy.h) *)

Lemma quadratic_iter (s start : Z) (j : nat) :
  Nat.iter j policy_next (policy_make s start : QuadraticProbing)
  = {| quad_size := s; currentBase := wrap (Z.of_nat j); quad_start := start |}.
Proof.
  induction j as [| j IH]; [reflexivity |].
  rewrite Nat.iter_succ, IH. simpl. f_equal.
  rewrite wrap_add_l. f_equal. lia.
Qed.

(** X20: linear probing started below the capacity examines every slot
    exactly once in its first [size] steps: step [j] is slot
    [(start + j) mod size], every slot is the candidate of some step
    below [size], and no two such steps give the same slot. *)
Theorem linear_probing_visits_every_slot_once (size start : Z) :
  0 < size -> 0 <= start -> start + size <= size_t_modulus ->
  (forall j : nat, (j < Z.to_nat size)%nat ->
     policy_deref (Nat.iter j policy_next
                     (policy_make size start : LinearProbing))
     = Done ((start + Z.of_nat j) mod size)) /\
  (forall i, 0 <= i < size ->
     exists j : nat, (j < Z.to_nat size)%nat /\
       policy_deref (Nat.iter j policy_next
                       (policy_make size start : LinearProbing))
       = Done i) /\
  (forall j j' : nat,
     (j < Z.to_nat size)%nat -> (j' < Z.to_nat size)%nat ->
     policy_deref (Nat.iter j policy_next
                     (policy_make size start : LinearProbing))
     = policy_deref (Nat.iter j' policy_next
                       (policy_make size start : LinearProbing)) ->
     j = j').
Proof.
  intros Hsize Hstart Hsum.
  assert (Hstep : forall j : nat, (j < Z.to_nat size)%nat ->
            policy_deref (Nat.iter j policy_next
                            (policy_make size start : LinearProbing))
            = Done ((start + Z.of_nat j) mod size)).
  { intros j Hj. rewrite linear_deref by lia. by rewrite wrap_small by lia. }
  split; [exact Hstep |]. split.
  - intros i Hi.
    destruct (linear_reaches_within size start i) as (j & Hj & Heq);
      [lia | lia | lia | lia |].
    exists j. split; [done |]. by rewrite linear_deref, Heq by lia.
  - intros j j' Hj Hj'. rewrite !Hstep by done. intros [= Heq].
    assert (Hdiv : (size | (start + Z.of_nat j) - (start + Z.of_nat j'))).
    { apply Z.mod_divide; [lia |].
      rewrite Zminus_mod, Heq, Z.sub_diag. apply Z.mod_0_l. lia. }
    destruct Hdiv as [c Hc].
    assert (c = 0) by nia. lia.
Qed.

Lemma linear_probing_visits_every_slot_once_witness :
  0 < 8 /\ 0 <= 5 /\ 5 + 8 <= size_t_modulus /\
  (forall j : nat, (j < Z.to_nat 8)%nat ->
     policy_deref (Nat.iter j policy_next
                     (policy_make 8 5 : LinearProbing))
     = Done ((5 + Z.of_nat j) mod 8)) /\
  (forall i, 0 <= i < 8 ->
     exists j : nat, (j < Z.to_nat 8)%nat /\
       policy_deref (Nat.iter j policy_next
                       (policy_make 8 5 : LinearProbing))
       = Done i) /\
  (forall j j' : nat,
     (j < Z.to_nat 8)%nat -> (j' < Z.to_nat 8)%nat ->
     policy_deref (Nat.iter j policy_next
                     (policy_make 8 5 : LinearProbing))
     = policy_deref (Nat.iter j' policy_next
                       (policy_make 8 5 : LinearProbing)) ->
     j = j').
Proof.
  assert (H1 : 0 < 8) by lia.
  assert (H2 : 0 <= 5) by lia.
  assert (H3 : 5 + 8 <= size_t_modulus) by (vm_compute; discriminate).
  split; [exact H1 |]. split; [exact H2 |]. split; [exact H3 |].
  exact (linear_probing_visits_every_slot_once 8 5 H1 H2 H3).
Defined.

(** X21: quadratic probing on a capacity that is a multiple of 8 (every
    power-of-two capacity from 8 on) only ever examines the slots at the
    offsets 0, 1 and 4 modulo 8 from its start, at every step: five
    slots of every eight are never probed. *)
Theorem quadratic_probing_misses_slots (size start : Z) (j : nat) :
  0 < size -> (8 | size) ->
  exists i,
    policy_deref (Nat.iter j policy_next
                    (policy_make size start : QuadraticProbing))
    = Done i /\
    0 <= i < size /\
    ((i - start) mod 8 = 0 \/ (i - start) mod 8 = 1 \/
     (i - start) mod 8 = 4).
Proof.
  intros Hsize Hdiv. rewrite quadratic_iter. simpl. unfold umod.
  destruct (Z.eqb_spec size 0); [lia |].
  eexists. split; [reflexivity |].
  split; [apply Z.mod_pos_bound; lia |].
  set (b := wrap (Z.of_nat j)).
  assert (H8 : (8 | size_t_modulus)) by (exists (2 ^ 61); reflexivity).
  assert (Heq : (wrap (start + wrap (b * b)) mod size - start) mod 8
                = wrap (0 + wrap (b * b)) mod 8).
  { unfold wrap. set (X := (b * b) mod size_t_modulus).
    rewrite Zminus_mod. rewrite !Z.mod_mod_divide by done.
    rewrite <- Zminus_mod. f_equal. lia. }
  rewrite Heq. apply quadratic_candidates_of_eight. done.
Qed.

Lemma quadratic_probing_misses_slots_witness :
  0 < 16 /\ (8 | 16) /\
  exists i,
    policy_deref (Nat.iter 3 policy_next
                    (policy_make 16 5 : QuadraticProbing))
    = Done i /\
    0 <= i < 16 /\
    ((i - 5) mod 8 = 0 \/ (i - 5) mod 8 = 1 \/ (i - 5) mod 8 = 4).
Proof.
  assert (H1 : 0 < 16) by lia.
  assert (H2 : (8 | 16)) by (exists 2; reflexivity).
  split; [exact H1 |]. split; [exact H2 |].
  exact (quadratic_probing_misses_slots 16 5 3 H1 H2).
Defined.

(** X22: a constructor hint whose double reaches [2^63] makes
    [optimal_size] overflow to 0: [optimal_size] returns 0 for every
    argument from [2^63] on, the hint [2^62] builds a table without
    slots, and on that table [emplace] (which divides by the capacity)
    and [find] (whose policy does) are undefined for every value and
    key. *)
Theorem hint_overflow_gives_no_slots {Key Value : Type}
        (hash_ : Key -> Z) (equal_ : Key -> Key -> bool)
        (key_from_value_ : Value -> Key) :
  let t0 : HashTable Value := {| data_ := []; size_ := 0; cells_cnt_ := 0 |} in
  (forall (fuel : nat) (sz : Z),
     (1 <= fuel)%nat -> 2 ^ 63 <= sz < 2 ^ 64 ->
     optimal_size fuel sz = Done 0) /\
  (forall fuel : nat, (1 <= fuel)%nat ->
     HashTable_new fuel (2 ^ 62) = Done t0) /\
  (forall (fuel : nat) (v : Value),
     @emplace Key Value LinearProbing _ hash_ equal_ key_from_value_
              fuel t0 v = Undefined) /\
  (forall (fuel : nat) (key : Key), (1 <= fuel)%nat ->
     @find Key Value LinearProbing _ hash_ equal_ key_from_value_
           fuel t0 key = Undefined).
Proof.
  intros t0.
  assert (Hopt : forall (fuel : nat) (sz : Z),
            (1 <= fuel)%nat -> 2 ^ 63 <= sz < 2 ^ 64 ->
            optimal_size fuel sz = Done 0).
  { intros fuel sz Hfuel Hsz. destruct fuel as [| fuel]; [lia |].
    unfold optimal_size. simpl optimal_size_loop.
    change (Z.shiftl 1 63) with (2 ^ 63).
    rewrite land_pow2 by lia.
    assert (Hbit : Z.testbit sz 63 = true).
    { replace 63 with (Z.log2 sz); [apply Z.bit_log2; lia |].
      apply Z.log2_unique; [lia |]. simpl. lia. }
    rewrite Hbit. change (2 ^ 63 =? 0) with false. cbv iota. simpl rbind.
    reflexivity. }
  split; [exact Hopt |]. split; [| split].
  - intros fuel Hfuel. unfold HashTable_new.
    replace (size_of_float (float_of_size (2 ^ 62) / max_load_factor_))
      with (Done (2 ^ 63)) by (vm_compute; reflexivity).
    simpl rbind. rewrite Hopt by lia. reflexivity.
  - intros fuel v. reflexivity.
  - intros fuel key Hfuel. destruct fuel as [| fuel]; [lia |]. reflexivity.
Qed.


(** ** The map adapter (hash_map.h) *)

Section HashMapProperties.

Context {Key T : Type}.
Variable hash_ : Key -> Z.
Variable equal_ : Key -> Key -> bool.

Local Abbreviation first := (@HashMap.first Key T).
Local Abbreviation stopped :=
  (@stopped Key (Key * T) LinearProbing _ equal_ first).
Local Abbreviation slot_equal := (slot_equal equal_ first).
Local Abbreviation slot_passed := (slot_passed equal_ first).
Local Abbreviation fresh_key := (fresh_key equal_ first).
Local Abbreviation unique_keys := (unique_keys equal_ first).
Local Abbreviation table_inv :=
  (@table_inv Key (Key * T) LinearProbing _ hash_ equal_ first).
Local Abbreviation lawful_keys := (lawful_keys hash_ equal_).
Local Abbreviation find := (@HashMap.find Key T LinearProbing _ hash_ equal_).
Local Abbreviation emplace :=
  (@HashMap.emplace Key T LinearProbing _ hash_ equal_).
Local Abbreviation try_emplace :=
  (@HashMap.try_emplace Key T LinearProbing _ hash_ equal_).
Local Abbreviation insert_or_assign :=
  (@HashMap.insert_or_assign Key T LinearProbing _ hash_ equal_).
Local Abbreviation at_key :=
  (@HashMap.at_key Key T LinearProbing _ hash_ equal_).
Local Abbreviation subscript :=
  (@HashMap.subscript Key T LinearProbing _ hash_ equal_).

Implicit Types (data : list (Element (Key * T))) (key : Key)
         (e : Element (Key * T)) (t : HashTable (Key * T))
         (u v : Key * T) (x : T).

(** Replacing the value of a slot by one with the same key leaves every
    walk as it was. *)
Lemma stopped_same_key data key' (it : LinearProbing) (n p : nat)
      (r : probe_stop) e u x :
  data !! p = Some e -> type e = DATA -> ptr e = Some u ->
  stopped data key' it n r ->
  stopped (<[p := Element_of (fst u, x)]> data) key' it n r.
Proof.
  intros Hl Ht Hp (Hpass & i & e1 & Hs & Hr).
  assert (Hsame_p : slot_passed key' (Element_of (fst u, x))
                    = slot_passed key' e).
  { unfold slot_passed. rewrite Ht, Hp. done. }
  assert (Hsame_e : slot_equal key' (Element_of (fst u, x))
                    = slot_equal key' e).
  { unfold slot_equal. rewrite Ht, Hp. done. }
  assert (Hsame_f : slot_free (Element_of (fst u, x)) = slot_free e).
  { unfold slot_free. rewrite Ht. done. }
  split.
  - intros j Hj. destruct (Hpass j Hj) as (i0 & e0 & Hs0 & Hp0).
    eexists i0, _. split; [apply (slot_at_insert _ _ _ p _ _ _ Hs0) |].
    destruct (decide (Z.to_nat i0 = p)) as [Heq | _]; [| done].
    apply slot_at_lookup in Hs0 as [_ Hl0]. rewrite Heq, Hl in Hl0.
    injection Hl0 as <-. by rewrite Hsame_p.
  - eexists i, _. split; [apply (slot_at_insert _ _ _ p _ _ _ Hs) |].
    destruct (decide (Z.to_nat i = p)) as [Heq | _]; [| done].
    apply slot_at_lookup in Hs as [_ Hl0]. rewrite Heq, Hl in Hl0.
    injection Hl0 as <-. by rewrite Hsame_e, Hsame_f.
Qed.

(** The assignment [it->second = value] at an Occupied position keeps the
    invariants: the key of the slot does not change. *)
Lemma assign_second_inv t (i : nat) e u x :
  table_inv t ->
  data_ t !! i = Some e -> type e = DATA -> ptr e = Some u ->
  exists t' rest,
    HashMap.assign_second t (Z.of_nat i) x = Done t' /\
    data_ t' = <[i := Element_of (fst u, x)]> (data_ t) /\
    size_ t' = size_ t /\ cells_cnt_ t' = cells_cnt_ t /\
    table_inv t' /\
    Permutation (live (data_ t)) (u :: rest) /\
    Permutation (live (data_ t')) ((fst u, x) :: rest).
Proof.
  intros Hinv Hl Ht Hp.
  pose proof Hinv as ((Ho & Hsz & Huniq) & Hcells & Hcap & Hload & Hch).
  assert (Hi : (i < length (data_ t))%nat) by (by apply lookup_lt_Some with e).
  set (rest := live (<[i := Element_default]> (data_ t))).
  assert (Hperm : Permutation (live (data_ t)) (u :: rest)).
  { by apply (live_insert_erased _ _ e). }
  assert (Hperm' : Permutation
                     (live (<[i := Element_of (fst u, x)]> (data_ t)))
                     ((fst u, x) :: rest)).
  { rewrite <- (list_insert_insert_eq (data_ t) i (Element_of (fst u, x))
                  Element_default).
    apply (live_insert_free _ _ Element_default); [| done].
    by apply list_lookup_insert_eq. }
  exists {| data_ := <[i := Element_of (fst u, x)]> (data_ t);
            size_ := size_ t; cells_cnt_ := cells_cnt_ t |}, rest. split.
  { unfold HashMap.assign_second.
    assert (Hat : at_ (data_ t) (Z.of_nat i) = Done e).
    { apply at_Done_lookup. split; [lia |]. by rewrite Nat2Z.id. }
    rewrite Hat. simpl. unfold Element_data. rewrite Hp. simpl.
    rewrite Nat2Z.id, Ht. reflexivity. }
  simpl. split; [done |]. split; [done |]. split; [done |].
  split; [| done].
  split; [split; [| split] | split; [| split; [| split]]]; simpl.
  - by apply owned_insert.
  - by rewrite Hsz, (Permutation_length Hperm), (Permutation_length Hperm').
  - apply (unique_keys_perm equal_ first _ _ (Permutation_sym Hperm')).
    apply (unique_keys_perm equal_ first _ _ Hperm) in Huniq as [Hu Hrest].
    split; [exact Hu | exact Hrest].
  - rewrite Hcells. f_equal.
    pose proof (used_insert (data_ t) i e (Element_of (fst u, x)) Hl) as Hus.
    unfold slot_free in Hus. rewrite Ht in Hus. simpl in Hus. lia.
  - unfold bucket_count in *. simpl. by rewrite length_insert.
  - unfold bucket_count in *. simpl. by rewrite length_insert.
  - intros i' e' v' Hl' Ht' Hp'. unfold bucket_count. simpl in *.
    rewrite length_insert.
    destruct (decide (i' = i)) as [-> | Hne].
    + rewrite list_lookup_insert_eq in Hl' by done.
      injection Hl' as <-. simpl in Hp'. injection Hp' as <-.
      destruct (Hch i e u Hl Ht Hp) as (n & Hn & Hst).
      exists n. split; [done |].
      by apply (stopped_same_key _ _ _ _ _ _ e).
    + rewrite list_lookup_insert_ne in Hl' by done.
      destruct (Hch i' e' v' Hl' Ht' Hp') as (n & Hn & Hst).
      exists n. split; [done |].
      by apply (stopped_same_key _ _ _ _ _ _ e).
Qed.

(** [try_emplace] on a table that keeps the invariants. *)
Lemma try_emplace_inv fuel t key x :
  lawful_keys -> table_inv t -> bucket_count t < 2 ^ 23 ->
  (2 * length (data_ t) < fuel)%nat ->
  exists t' (pos : nat) inserted,
    try_emplace fuel t key x = Done (t', (Z.of_nat pos, inserted)) /\
    table_inv t' /\ (length (data_ t') <= fuel)%nat /\
    ((inserted = false /\ t' = t /\
      exists u, data_ t !! pos = Some (Element_of u) /\
                In u (live (data_ t)) /\ equal_ (fst u) key = true) \/
     (inserted = true /\
      (forall u, In u (live (data_ t)) -> equal_ (fst u) key = false) /\
      Permutation (live (data_ t')) ((key, x) :: live (data_ t)) /\
      data_ t' !! pos = Some (Element_of (key, x)))).
Proof.
  intros Hlaw Hinv Hbig Hfuel. unfold HashMap.try_emplace, HashMap.find.
  destruct (find_inv hash_ equal_ first fuel t key Hlaw Hinv ltac:(lia))
    as [(pos & e & u & Hfind & Hpos & Hl & Ht & Hp & Heq) | [Hfind Hnone]].
  - rewrite Hfind. simpl. unfold end_.
    destruct (Z.eqb_spec pos (bucket_count t)); [lia |]. simpl.
    exists t, (Z.to_nat pos), false. rewrite Z2Nat.id by lia.
    split; [done |]. split; [done |]. split; [lia |]. left.
    split; [done |]. split; [done |]. exists u.
    assert (He : e = Element_of u) by (destruct e; simpl in *; by subst).
    subst e. split; [done |]. split; [| done].
    by apply (live_In _ (Z.to_nat pos) (Element_of u)).
  - rewrite Hfind. simpl. rewrite Z.eqb_refl. simpl.
    destruct (emplace_inv hash_ equal_ first fuel t (key, x)
                Hlaw Hinv Hbig Hfuel) as
      (pos & ins & t1 & t' & Hcheck & Hemp & Hinv1 & Hperm1 & Hsz1 & Hcap &
       Hinv' & Hbc' & (n & Hn & Hst) & Hcase).
    assert (Hlen' : (length (data_ t') <= fuel)%nat).
    { destruct Hcap as [[-> _] | (Hd & _)]; unfold bucket_count in *; lia. }
    apply (stopped_equal_slot equal_ first) in Hst
      as (e & u & Hpos & Hl & Ht & Hp & Heq).
    exists t', (Z.to_nat pos), ins. rewrite Z2Nat.id by lia.
    split; [exact Hemp |]. split; [done |]. split; [done |].
    destruct Hcase as [(-> & Ht' & _ & _ & Hperm) | (-> & ->)].
    + right. split; [done |]. split; [done |].
      split; [by rewrite Hperm, Hperm1 |].
      rewrite Ht'. unfold store. simpl.
      apply list_lookup_insert_eq.
      rewrite Ht' in Hl. unfold store in Hl. simpl in Hl.
      apply lookup_lt_Some in Hl. by rewrite length_insert in Hl.
    + exfalso.
      assert (Hin : In u (live (data_ t))).
      { apply (Permutation_in _ Hperm1).
        by apply (live_In _ (Z.to_nat pos) e). }
      simpl in Heq. by rewrite (Hnone u Hin) in Heq.
Qed.

(** X23: [try_emplace(key, value)] never replaces and never rehashes for
    nothing: when a stored key equals [key] the table is left exactly as
    it was, however full, and the position of that key is returned with
    [inserted] false; otherwise the pair [(key, value)] is added as
    [emplace] adds it. The invariants are kept. *)
Theorem try_emplace_keeps_stored_value fuel t key x :
  lawful_keys -> table_inv t -> bucket_count t < 2 ^ 23 ->
  (2 * length (data_ t) < fuel)%nat ->
  exists t' pos inserted,
    try_emplace fuel t key x = Done (t', (pos, inserted)) /\
    table_inv t' /\
    ((inserted = false /\ t' = t /\
      exists u, data_ t !! Z.to_nat pos = Some (Element_of u) /\
                equal_ (fst u) key = true) \/
     (inserted = true /\
      (forall u, In u (live (data_ t)) -> equal_ (fst u) key = false) /\
      Permutation (live (data_ t')) ((key, x) :: live (data_ t)) /\
      data_ t' !! Z.to_nat pos = Some (Element_of (key, x)))).
Proof.
  intros Hlaw Hinv Hbig Hfuel.
  destruct (try_emplace_inv fuel t key x Hlaw Hinv Hbig Hfuel)
    as (t' & pos & ins & Htry & Hinv' & _ & Hcase).
  exists t', (Z.of_nat pos), ins. rewrite Nat2Z.id.
  split; [done |]. split; [done |].
  destruct Hcase as [(-> & -> & u & Hl & _ & Heq) | Hins].
  - left. split; [done |]. split; [done |]. by exists u.
  - by right.
Qed.

(** X24: [insert_or_assign(key, value)] followed by [at(key)] returns
    [value]. When no stored key equals [key] the pair is added; otherwise
    only the mapped value under that key changes: the stored key object
    stays, no other pair changes, and neither [size()] nor the capacity
    does. The invariants are kept. *)
Theorem insert_or_assign_then_at fuel t key x :
  lawful_keys -> table_inv t -> bucket_count t < 2 ^ 23 ->
  (2 * length (data_ t) < fuel)%nat ->
  exists t' pos inserted,
    insert_or_assign fuel t key x = Done (t', (pos, inserted)) /\
    table_inv t' /\
    at_key fuel t' key = Done (Returned x) /\
    ((inserted = true /\
      (forall u, In u (live (data_ t)) -> equal_ (fst u) key = false) /\
      Permutation (live (data_ t')) ((key, x) :: live (data_ t))) \/
     (inserted = false /\
      exists u rest,
        equal_ (fst u) key = true /\
        Permutation (live (data_ t)) (u :: rest) /\
        Permutation (live (data_ t')) ((fst u, x) :: rest) /\
        size t' = size t /\ bucket_count t' = bucket_count t)).
Proof.
  intros Hlaw Hinv Hbig Hfuel.
  pose proof Hlaw as (Hrefl & _).
  destruct (try_emplace_inv fuel t key x Hlaw Hinv Hbig Hfuel)
    as (t1 & pos & ins & Htry & Hinv1 & Hlen1 & Hcase).
  assert (Hat : forall t' w,
            table_inv t' -> (length (data_ t') <= fuel)%nat ->
            data_ t' !! pos = Some (Element_of w) ->
            equal_ (fst w) key = true ->
            at_key fuel t' key = Done (Returned (snd w))).
  { intros t' w Hinv' Hlen' Hl Heq. unfold HashMap.at_key, HashMap.find.
    rewrite (find_stored hash_ equal_ first fuel t' pos (Element_of w) w key
               Hlaw Hinv' Hlen' Hl eq_refl eq_refl Heq). simpl.
    pose proof (lookup_lt_Some _ _ _ Hl) as Hlt. unfold end_, bucket_count.
    destruct (Z.eqb_spec (Z.of_nat pos) (Z.of_nat (length (data_ t'))));
      [lia |].
    unfold HashMap.second.
    assert (Ha : at_ (data_ t') (Z.of_nat pos) = Done (Element_of w)).
    { apply at_Done_lookup. split; [lia |]. by rewrite Nat2Z.id. }
    rewrite Ha. done. }
  unfold HashMap.insert_or_assign. fold try_emplace. rewrite Htry. simpl.
  destruct Hcase as [(-> & -> & u & Hl & Hin & Heq)
                    | (-> & Hnone & Hperm & Hl)]; simpl.
  - destruct (assign_second_inv t pos (Element_of u) u x Hinv Hl
                eq_refl eq_refl)
      as (t' & rest & Hassign & Hdata' & Hsz' & Hcells' & Hinv' & Hp & Hp').
    rewrite Hassign. simpl.
    assert (Hlen' : length (data_ t') = length (data_ t)).
    { rewrite Hdata'. by rewrite length_insert. }
    exists t', (Z.of_nat pos), false. split; [done |]. split; [done |].
    split.
    { apply (Hat t' (fst u, x)); [done | lia | | done].
      rewrite Hdata'. apply list_lookup_insert_eq.
      by apply lookup_lt_Some with (Element_of u). }
    right. split; [done |]. exists u, rest.
    split; [done |]. split; [done |]. split; [done |].
    split; [done |]. unfold bucket_count. by rewrite Hlen'.
  - exists t1, (Z.of_nat pos), true. split; [done |]. split; [done |].
    split; [by apply (Hat t1 (key, x)) |].
    left. done.
Qed.

(** X25: [at(key)] throws [std::out_of_range("No such key")] exactly
    when no stored key equals [key]; otherwise it returns the mapped value
    stored under that key. *)
Theorem at_throws_exactly_when_absent fuel t key :
  lawful_keys -> table_inv t -> (length (data_ t) <= fuel)%nat ->
  ((forall u, In u (live (data_ t)) -> equal_ (fst u) key = false) /\
   at_key fuel t key = Done (Thrown (out_of_range "No such key"))) \/
  (exists u, In u (live (data_ t)) /\ equal_ (fst u) key = true /\
             at_key fuel t key = Done (Returned (snd u))).
Proof.
  intros Hlaw Hinv Hfuel. unfold HashMap.at_key, HashMap.find.
  destruct (find_inv hash_ equal_ first fuel t key Hlaw Hinv Hfuel)
    as [(pos & e & u & Hfind & Hpos & Hl & Ht & Hp & Heq) | [Hfind Hnone]].
  - right. exists u. split; [by apply (live_In _ (Z.to_nat pos) e) |].
    split; [done |]. rewrite Hfind. simpl. unfold end_.
    destruct (Z.eqb_spec pos (bucket_count t)); [lia |].
    unfold HashMap.second.
    assert (Ha : at_ (data_ t) pos = Done e).
    { apply at_Done_lookup. split; [lia | done]. }
    rewrite Ha. simpl. unfold Element_data. by rewrite Hp.
  - left. split; [done |]. rewrite Hfind. simpl. by rewrite Z.eqb_refl.
Qed.

(** X26: [operator[](key)]: when no stored key equals [key], the pair of
    [key] and a value-initialised mapped value is inserted and that value
    is returned, [size()] growing by one; otherwise the mapped value
    stored under the key is returned and the table is left exactly as it
    was. *)
Theorem subscript_inserts_default fuel t key (init : T) :
  lawful_keys -> table_inv t -> bucket_count t < 2 ^ 23 ->
  (2 * length (data_ t) < fuel)%nat ->
  exists t' x,
    subscript fuel t key init = Done (t', x) /\
    table_inv t' /\
    (((forall u, In u (live (data_ t)) -> equal_ (fst u) key = false) /\
      x = init /\
      Permutation (live (data_ t')) ((key, init) :: live (data_ t)) /\
      size t' = size t + 1) \/
     (exists u, In u (live (data_ t)) /\ equal_ (fst u) key = true /\
                x = snd u /\ t' = t)).
Proof.
  intros Hlaw Hinv Hbig Hfuel.
  destruct (try_emplace_inv fuel t key init Hlaw Hinv Hbig Hfuel)
    as (t1 & pos & ins & Htry & Hinv1 & Hlen1 & Hcase).
  assert (Hsecond : forall t' w,
            data_ t' !! pos = Some (Element_of w) ->
            HashMap.second t' (Z.of_nat pos) = Done (snd w)).
  { intros t' w Hl. unfold HashMap.second.
    assert (Ha : at_ (data_ t') (Z.of_nat pos) = Done (Element_of w)).
    { apply at_Done_lookup. split; [lia |]. by rewrite Nat2Z.id. }
    rewrite Ha. done. }
  unfold HashMap.subscript. fold try_emplace. rewrite Htry. simpl.
  destruct Hcase as [(-> & -> & u & Hl & Hin & Heq)
                    | (-> & Hnone & Hperm & Hl)].
  - rewrite (Hsecond t u Hl). simpl.
    exists t, (snd u). split; [done |]. split; [done |].
    right. by exists u.
  - rewrite (Hsecond t1 (key, init) Hl). simpl.
    exists t1, init. split; [done |]. split; [done |]. left.
    split; [done |]. split; [done |]. split; [done |].
    pose proof Hinv as ((_ & Hsz & _) & _).
    pose proof Hinv1 as ((_ & Hsz1 & _) & _).
    unfold size. rewrite Hsz1, Hsz, (Permutation_length Hperm).
    simpl length. lia.
Qed.

End HashMapProperties.

(** ** The randomized queue (randomized_queue.h) *)

Section QueueProperties.

Context {T : Type}.

Implicit Types (data : list T) (x y : T).

Lemma at_Done_lt data (i : Z) :
  0 <= i < Z.of_nat (length data) ->
  exists x, at_ data i = Done x /\ data !! Z.to_nat i = Some x.
Proof.
  intros Hi.
  destruct (lookup_lt_is_Some_2 data (Z.to_nat i) ltac:(lia)) as [x Hx].
  exists x. split; [| done]. apply at_Done_lookup. split; [lia | done].
Qed.

(** X27: [dequeue()] with the draw [rnd] removes the element at index
    [rnd % size()] and returns it: the elements left, together with the
    one returned, are the elements before the call, and the size drops by
    one. On an empty queue [dequeue()] and [sample()] divide by zero:
    undefined behaviour. *)
Theorem dequeue_removes_the_drawn_element (rnd : Z) data :
  0 <= rnd ->
  (data = [] ->
   RandomizedQueue.dequeue rnd data = Undefined /\
   RandomizedQueue.sample rnd data = Undefined) /\
  (data <> [] ->
   exists data' x,
     RandomizedQueue.dequeue rnd data = Done (data', x) /\
     RandomizedQueue.sample rnd data = Done x /\
     data !! Z.to_nat (rnd mod Z.of_nat (length data)) = Some x /\
     Permutation (x :: data') data /\
     length data' = (length data - 1)%nat).
Proof.
  intros Hrnd. split; [by intros -> |]. intros Hne.
  assert (Hlen : (0 < length data)%nat) by (destruct data; [done | simpl; lia]).
  set (n := length data) in *.
  set (i := rnd mod Z.of_nat n).
  assert (Hi : 0 <= i < Z.of_nat n) by (apply Z.mod_pos_bound; lia).
  destruct (at_Done_lt data i Hi) as (x & Hax & Hlx).
  destruct (at_Done_lt data (Z.of_nat n - 1) ltac:(lia)) as (y & Hay & Hly).
  replace (Z.to_nat (Z.of_nat n - 1)) with (n - 1)%nat in Hly by lia.
  set (swapped := <[(n - 1)%nat := x]> (<[Z.to_nat i := y]> data)).
  assert (Hlens : length swapped = n).
  { unfold swapped. by rewrite !length_insert. }
  assert (Hres : at_ swapped (Z.of_nat (length swapped) - 1) = Done x).
  { apply at_Done_lookup. split; [lia |]. rewrite Hlens.
    replace (Z.to_nat (Z.of_nat n - 1)) with (n - 1)%nat by lia.
    unfold swapped. apply list_lookup_insert_eq.
    rewrite length_insert. fold n. lia. }
  exists (take (n - 1) (<[Z.to_nat i := y]> data)), x.
  split; [| split; [| split; [done | split]]].
  - unfold RandomizedQueue.dequeue, umod. fold n.
    destruct (Z.eqb_spec (Z.of_nat n) 0); [lia |]. simpl.
    fold i. rewrite Hax. simpl. rewrite Hay. simpl.
    replace (Z.to_nat (Z.of_nat n - 1)) with (n - 1)%nat by lia.
    fold swapped. rewrite Hres. simpl. rewrite Hlens.
    unfold swapped. by rewrite take_insert_ge by lia.
  - unfold RandomizedQueue.sample, umod. fold n.
    destruct (Z.eqb_spec (Z.of_nat n) 0); [lia |]. simpl. done.
  - assert (Hdata : data = take (n - 1) data ++ [y]).
    { rewrite <- (take_drop (n - 1) data) at 1. f_equal.
      rewrite <- (take_drop_middle data (n - 1) y Hly) at 1.
      rewrite drop_app_length'
        by (rewrite length_take_le; unfold n; lia).
      f_equal. apply nil_length_inv. rewrite length_drop. unfold n. lia. }
    destruct (decide (Z.to_nat i = (n - 1)%nat)) as [Heq | Hneq].
    + rewrite Heq in *. rewrite Hly in Hlx. injection Hlx as <-.
      rewrite (list_insert_id data (n - 1) y Hly).
      rewrite Hdata at 2. apply Permutation_cons_append.
    + assert (Hit : (Z.to_nat i < n - 1)%nat) by lia.
      rewrite take_insert_lt by lia.
      set (d := take (n - 1) data) in *.
      assert (Hdx : d !! Z.to_nat i = Some x).
      { unfold d. rewrite lookup_take_lt by lia. done. }
      assert (Hdl : (Z.to_nat i < length d)%nat)
        by (by apply lookup_lt_Some with x).
      set (r := take (Z.to_nat i) d ++ drop (S (Z.to_nat i)) d).
      assert (H1 : Permutation d (x :: r)).
      { rewrite <- (take_drop_middle d (Z.to_nat i) x Hdx) at 1.
        symmetry. apply Permutation_middle. }
      assert (H2 : Permutation (<[Z.to_nat i := y]> d) (y :: r)).
      { rewrite insert_take_drop by done. symmetry. apply Permutation_middle. }
      rewrite Hdata.
      etransitivity; [apply perm_skip, H2 |].
      etransitivity; [apply perm_swap |].
      etransitivity; [apply perm_skip; symmetry; exact H1 |].
      apply Permutation_cons_append.
  - rewrite length_take_le; [done |]. rewrite length_insert. unfold n. lia.
Qed.

(** The elements the iteration yields from position [k] on. *)
Lemma traverse_from_spec data (shuffled : list Z)
      (last : RandomizedQueue.random_iterator) :
  length shuffled = length data ->
  RandomizedQueue.cur_pos last = Z.of_nat (length data) ->
  Forall (fun i => 0 <= i < Z.of_nat (length data)) shuffled ->
  forall (fuel k : nat),
    (k <= length data)%nat -> (length data - k < fuel)%nat ->
    RandomizedQueue.traverse_from fuel data
      {| RandomizedQueue.order := shuffled;
         RandomizedQueue.cur_pos := Z.of_nat k |} last
    = Done (omap (fun i => data !! Z.to_nat i) (drop k shuffled)).
Proof.
  intros Hlen Hlast Hrange.
  induction fuel as [| fuel IH]; intros k Hk Hfuel; [lia |].
  simpl. unfold RandomizedQueue.iterator_eqb. simpl. rewrite Hlast, Hlen.
  destruct (Z.eqb_spec (Z.of_nat k) (Z.of_nat (length data))) as [Hend | Hin].
  { simpl. rewrite drop_ge by lia. done. }
  simpl.
  destruct (lookup_lt_is_Some_2 shuffled k ltac:(lia)) as [i Hi].
  assert (Hir : 0 <= i < Z.of_nat (length data)).
  { rewrite Forall_lookup in Hrange. by apply (Hrange k). }
  destruct (at_Done_lt data i Hir) as (x & Hax & Hlx).
  unfold RandomizedQueue.deref. simpl.
  assert (Hao : at_ shuffled (Z.of_nat k) = Done i).
  { apply at_Done_lookup. split; [lia |]. by rewrite Nat2Z.id. }
  rewrite Hao. simpl. rewrite Hax. simpl.
  unfold RandomizedQueue.next. simpl.
  replace (Z.of_nat k + 1) with (Z.of_nat (S k)) by lia.
  rewrite IH by lia. simpl.
  rewrite (drop_S shuffled i k Hi). simpl. by rewrite Hlx.
Qed.

Lemma pick_all (pre data : list T) :
  omap (fun i => (pre ++ data) !! Z.to_nat i)
       (map Z.of_nat (seq (length pre) (length data)))
  = data.
Proof.
  revert pre. induction data as [| x data IH]; intros pre; [done |].
  simpl. rewrite Nat2Z.id, list_lookup_middle by done. f_equal.
  replace (pre ++ x :: data) with ((pre ++ [x]) ++ data)
    by (by rewrite <- app_assoc).
  replace (S (length pre)) with (length (pre ++ [x]))
    by (rewrite length_app; simpl; lia).
  apply IH.
Qed.

(** X28: the loop [for (it = begin(); it != end(); ++it)] over the
    queue, when the shuffle of [begin()] left a permutation of the
    indices: it yields every element of the queue exactly once, in the
    shuffled order, and ends after [size()] steps, whatever order the
    shuffle of [end()] left. *)
Theorem traverse_yields_each_element_once
        (fuel : nat) data (shuffled shuffled_end : list Z) :
  Permutation shuffled (map Z.of_nat (seq 0 (length data))) ->
  (length data < fuel)%nat ->
  exists xs,
    RandomizedQueue.traverse fuel data shuffled shuffled_end = Done xs /\
    Permutation xs data /\
    (forall (k : nat) i,
       shuffled !! k = Some i -> xs !! k = data !! Z.to_nat i).
Proof.
  intros Hperm Hfuel.
  assert (Hlen : length shuffled = length data).
  { rewrite (Permutation_length Hperm), length_map. apply length_seq. }
  assert (Hrange : Forall (fun i => 0 <= i < Z.of_nat (length data)) shuffled).
  { apply Forall_forall. intros i Hi. apply list_elem_of_In in Hi.
    apply (Permutation_in _ Hperm) in Hi.
    apply in_map_iff in Hi as (j & <- & Hj). apply in_seq in Hj. lia. }
  exists (omap (fun i => data !! Z.to_nat i) shuffled).
  split; [| split].
  - unfold RandomizedQueue.traverse, RandomizedQueue.begin.
    change 0 with (Z.of_nat 0).
    rewrite (traverse_from_spec data shuffled
               (RandomizedQueue.end_it shuffled_end data) Hlen eq_refl
               Hrange fuel 0) by lia.
    by rewrite drop_0.
  - rewrite Hperm. pose proof (pick_all [] data) as Hall. simpl in Hall.
    by rewrite Hall.
  - intros k i Hk.
    assert (Hir : 0 <= i < Z.of_nat (length data)).
    { rewrite Forall_lookup in Hrange. by apply (Hrange k). }
    destruct (lookup_lt_is_Some_2 data (Z.to_nat i) ltac:(lia)) as [x Hx].
    rewrite Hx.
    assert (Hall : forall l (k : nat) i x,
              Forall (fun i => 0 <= i < Z.of_nat (length data)) l ->
              l !! k = Some i -> data !! Z.to_nat i = Some x ->
              omap (fun i => data !! Z.to_nat i) l !! k = Some x).
    { induction l as [| j l IHl]; intros k' i' x' Hr Hl Hd; [done |].
      apply Forall_cons in Hr as [Hj Hr].
      destruct (lookup_lt_is_Some_2 data (Z.to_nat j) ltac:(lia)) as [z Hz].
      simpl. rewrite Hz. destruct k' as [| k'].
      - simpl in *. injection Hl as ->. congruence.
      - simpl in *. by apply (IHl k' i'). }
    by apply (Hall shuffled k i x).
Qed.

End QueueProperties.

Lemma dequeue_removes_the_drawn_element_witness :
  0 <= 7 /\
  (([10; 20; 30] : list Z) = [] ->
   RandomizedQueue.dequeue 7 [10; 20; 30] = Undefined /\
   RandomizedQueue.sample 7 [10; 20; 30] = Undefined) /\
  (([10; 20; 30] : list Z) <> [] ->
   exists data' x,
     RandomizedQueue.dequeue 7 [10; 20; 30] = Done (data', x) /\
     RandomizedQueue.sample 7 [10; 20; 30] = Done x /\
     [10; 20; 30] !! Z.to_nat (7 mod Z.of_nat (length [10; 20; 30]))
     = Some x /\
     Permutation (x :: data') [10; 20; 30] /\
     length data' = (length [10; 20; 30] - 1)%nat).
Proof.
  assert (H0 : 0 <= 7) by lia.
  split; [exact H0 |].
  exact (dequeue_removes_the_drawn_element 7 [10; 20; 30] H0).
Defined.

Lemma traverse_yields_each_element_once_witness :
  Permutation [2; 0; 1] (map Z.of_nat (seq 0 (length [10; 20; 30]))) /\
  (length [10; 20; 30] < 4)%nat /\
  exists xs,
    RandomizedQueue.traverse 4 [10; 20; 30] [2; 0; 1] [1; 2; 0] = Done xs /\
    Permutation xs [10; 20; 30] /\
    (forall (k : nat) i,
       [2; 0; 1] !! k = Some i -> xs !! k = [10; 20; 30] !! Z.to_nat i).
Proof.
  assert (Hperm : Permutation [2; 0; 1]
                    (map Z.of_nat (seq 0 (length [10; 20; 30])))).
  { simpl. change [2; 0; 1] with ([2] ++ [0; 1]).
    rewrite Permutation_app_comm. reflexivity. }
  assert (Hfuel : (length [10; 20; 30] < 4)%nat) by (simpl; lia).
  split; [exact Hperm |]. split; [exact Hfuel |].
  exact (traverse_yields_each_element_once 4 [10; 20; 30] [2; 0; 1] [1; 2; 0]
           Hperm Hfuel).
Defined.
Lemma lawful_id_hash : lawful_keys Examples.id_hash Z.eqb.
Proof.
  split; [apply Z.eqb_refl |]. split; [apply Z.eqb_sym |]. split.
  - intros a b c Hab Hbc. apply Z.eqb_eq in Hab, Hbc. apply Z.eqb_eq. lia.
  - intros a b Hab. apply Z.eqb_eq in Hab. by subst.
Qed.

Lemma five_of_eight_inv :
  @table_inv Z Z LinearProbing _ Examples.id_hash Z.eqb Examples.set_key
             Examples.five_of_eight.
Proof.
  destruct (insert_range_inv Examples.id_hash Z.eqb Examples.set_key 64 20
              [9; 2; 3; 4; 5]
              {| data_ := fresh_slots (2 ^ 3); size_ := 0; cells_cnt_ := 0 |}
              lawful_id_hash)
    as (t' & Hins & Hinv & _).
  - apply fresh_table_inv. lia.
  - lia.
  - simpl. lia.
  - vm_compute. by intros [=].
  - vm_compute. by intros [=].
  - vm_compute in Hins. injection Hins as <-. exact Hinv.
Qed.

Lemma five_of_sixteen_inv :
  @table_inv Z Z LinearProbing _ Examples.id_hash Z.eqb Examples.set_key
             Examples.five_of_sixteen.
Proof.
  destruct (insert_range_inv Examples.id_hash Z.eqb Examples.set_key 64 20
              [2; 3; 4; 5; 9]
              {| data_ := fresh_slots (2 ^ 4); size_ := 0; cells_cnt_ := 0 |}
              lawful_id_hash)
    as (t' & Hins & Hinv & _).
  - apply fresh_table_inv. lia.
  - lia.
  - simpl. lia.
  - vm_compute. by intros [=].
  - vm_compute. by intros [=].
  - vm_compute in Hins. injection Hins as <-. exact Hinv.
Qed.

Lemma two_of_ten_ok :
  table_ok Z.eqb Examples.set_key Examples.two_of_ten.
Proof.
  split; [solve_owned |]. split; [reflexivity |]. solve_unique_keys.
Qed.

(** ** Instances of the engine's properties: a set of integers *)

Local Abbreviation zlawful := (lawful_keys Examples.id_hash Z.eqb).
Local Abbreviation zinv :=
  (@table_inv Z Z LinearProbing _ Examples.id_hash Z.eqb Examples.set_key).
Local Abbreviation zfind :=
  (@find Z Z LinearProbing _ Examples.id_hash Z.eqb Examples.set_key).
Local Abbreviation zcount :=
  (@count Z Z LinearProbing _ Examples.id_hash Z.eqb Examples.set_key).
Local Abbreviation zcontains :=
  (@contains Z Z LinearProbing _ Examples.id_hash Z.eqb Examples.set_key).
Local Abbreviation zemplace :=
  (@emplace Z Z LinearProbing _ Examples.id_hash Z.eqb Examples.set_key).
Local Abbreviation zrehash :=
  (@rehash Z Z LinearProbing _ Examples.id_hash Z.eqb Examples.set_key).
Local Abbreviation zreserve :=
  (@reserve Z Z LinearProbing _ Examples.id_hash Z.eqb Examples.set_key).
Local Abbreviation zerase_key :=
  (@erase_key Z Z LinearProbing _ Examples.id_hash Z.eqb Examples.set_key).
Local Abbreviation zof_range :=
  (@HashTable_of_range Z Z LinearProbing _ Examples.id_hash Z.eqb
                       Examples.set_key).
Local Abbreviation T8 := Examples.five_of_eight.
Local Abbreviation T16 := Examples.five_of_sixteen.

Lemma find_returns_the_slot_of_the_key_witness :
  zlawful /\ zinv T16 /\ (length (data_ T16) <= 16)%nat /\
  (exists pos, zfind 16 T16 9 = Done pos /\ 0 <= pos <= end_ T16) /\
  (forall (i : nat) e u,
     data_ T16 !! i = Some e -> type e = DATA -> ptr e = Some u ->
     Z.eqb (Examples.set_key u) 9 = true ->
     zfind 16 T16 9 = Done (Z.of_nat i)) /\
  ((forall u, In u (live (data_ T16)) ->
      Z.eqb (Examples.set_key u) 9 = false) <->
   zfind 16 T16 9 = Done (end_ T16)).
Proof.
  assert (Hlen : (length (data_ T16) <= 16)%nat) by (simpl; lia).
  split; [exact lawful_id_hash |]. split; [exact five_of_sixteen_inv |].
  split; [exact Hlen |].
  exact (find_returns_the_slot_of_the_key Examples.id_hash Z.eqb
           Examples.set_key 16 T16 9 lawful_id_hash five_of_sixteen_inv Hlen).
Defined.

Lemma contains_iff_key_stored_witness :
  zlawful /\ zinv T16 /\ (length (data_ T16) <= 16)%nat /\
  exists b : bool,
    zcontains 16 T16 7 = Done b /\
    zcount 16 T16 7 = Done (if b then 1 else 0) /\
    (b = true <->
     exists u, In u (live (data_ T16)) /\
               Z.eqb (Examples.set_key u) 7 = true).
Proof.
  assert (Hlen : (length (data_ T16) <= 16)%nat) by (simpl; lia).
  split; [exact lawful_id_hash |]. split; [exact five_of_sixteen_inv |].
  split; [exact Hlen |].
  exact (contains_iff_key_stored Examples.id_hash Z.eqb Examples.set_key
           16 T16 7 lawful_id_hash five_of_sixteen_inv Hlen).
Defined.

Lemma emplace_keeps_invariants_witness :
  zlawful /\ zinv T8 /\ bucket_count T8 < 2 ^ 23 /\
  (2 * length (data_ T8) < 40)%nat /\
  exists t' pos inserted,
    zemplace 40 T8 21 = Done (t', (pos, inserted)) /\
    zinv t' /\
    bucket_count t'
    = (if bucket_count T8 <? 2 * cells_cnt_ T8
       then 2 * bucket_count T8 else bucket_count T8).
Proof.
  assert (Hbig : bucket_count T8 < 2 ^ 23) by (vm_compute; reflexivity).
  assert (Hfuel : (2 * length (data_ T8) < 40)%nat) by (simpl; lia).
  split; [exact lawful_id_hash |]. split; [exact five_of_eight_inv |].
  split; [exact Hbig |]. split; [exact Hfuel |].
  exact (emplace_keeps_invariants Examples.id_hash Z.eqb Examples.set_key
           40 T8 21 lawful_id_hash five_of_eight_inv Hbig Hfuel).
Defined.

Lemma find_after_emplace_witness :
  zlawful /\ zinv T8 /\ bucket_count T8 < 2 ^ 23 /\
  (2 * length (data_ T8) < 40)%nat /\
  exists t' pos inserted u,
    zemplace 40 T8 21 = Done (t', (pos, inserted)) /\
    zfind 40 t' (Examples.set_key 21) = Done pos /\
    0 <= pos < bucket_count t' /\
    data_ t' !! Z.to_nat pos = Some (Element_of u) /\
    Z.eqb (Examples.set_key u) (Examples.set_key 21) = true /\
    (inserted = true -> u = 21).
Proof.
  assert (Hbig : bucket_count T8 < 2 ^ 23) by (vm_compute; reflexivity).
  assert (Hfuel : (2 * length (data_ T8) < 40)%nat) by (simpl; lia).
  split; [exact lawful_id_hash |]. split; [exact five_of_eight_inv |].
  split; [exact Hbig |]. split; [exact Hfuel |].
  exact (find_after_emplace Examples.id_hash Z.eqb Examples.set_key
           40 T8 21 lawful_id_hash five_of_eight_inv Hbig Hfuel).
Defined.

Lemma emplace_adds_or_keeps_witness :
  zlawful /\ zinv T16 /\ bucket_count T16 < 2 ^ 23 /\
  (2 * length (data_ T16) < 40)%nat /\
  exists t' pos inserted,
    zemplace 40 T16 9 = Done (t', (pos, inserted)) /\
    ((inserted = true /\
      fresh_key Z.eqb Examples.set_key (live (data_ T16)) 9 /\
      Permutation (live (data_ t')) (9 :: live (data_ T16)) /\
      size t' = size T16 + 1) \/
     (inserted = false /\
      (exists u, In u (live (data_ T16)) /\
         Z.eqb (Examples.set_key u) (Examples.set_key 9) = true) /\
      Permutation (live (data_ t')) (live (data_ T16)) /\
      size t' = size T16)).
Proof.
  assert (Hbig : bucket_count T16 < 2 ^ 23) by (vm_compute; reflexivity).
  assert (Hfuel : (2 * length (data_ T16) < 40)%nat) by (simpl; lia).
  split; [exact lawful_id_hash |]. split; [exact five_of_sixteen_inv |].
  split; [exact Hbig |]. split; [exact Hfuel |].
  exact (emplace_adds_or_keeps Examples.id_hash Z.eqb Examples.set_key
           40 T16 9 lawful_id_hash five_of_sixteen_inv Hbig Hfuel).
Defined.

Lemma contains_after_emplace_witness :
  zlawful /\ zinv T16 /\ bucket_count T16 < 2 ^ 23 /\
  (2 * length (data_ T16) < 40)%nat /\
  exists t' pos inserted (before : bool),
    zemplace 40 T16 21 = Done (t', (pos, inserted)) /\
    zcontains 40 T16 21 = Done before /\
    zcontains 40 t' 21
    = Done (Z.eqb (Examples.set_key 21) 21 || before).
Proof.
  assert (Hbig : bucket_count T16 < 2 ^ 23) by (vm_compute; reflexivity).
  assert (Hfuel : (2 * length (data_ T16) < 40)%nat) by (simpl; lia).
  split; [exact lawful_id_hash |]. split; [exact five_of_sixteen_inv |].
  split; [exact Hbig |]. split; [exact Hfuel |].
  exact (contains_after_emplace Examples.id_hash Z.eqb Examples.set_key
           40 T16 21 21 lawful_id_hash five_of_sixteen_inv Hbig Hfuel).
Defined.

Lemma erase_occupied_position_witness :
  zlawful /\ zinv T16 /\
  data_ T16 !! 3%nat = Some (Examples.D 3) /\
  exists t' next,
    erase T16 (Z.of_nat 3) = Done (t', next) /\
    zinv t' /\
    data_ t' = <[3%nat := {| type := DELETED; ptr := None |}]> (data_ T16) /\
    size t' = size T16 - 1 /\
    cells_cnt_ t' = cells_cnt_ T16 /\
    Permutation (live (data_ T16)) (3 :: live (data_ t')) /\
    Z.of_nat 3 < next <= end_ T16 /\
    (next < end_ T16 ->
     exists e', data_ T16 !! Z.to_nat next = Some e' /\ type e' = DATA) /\
    (forall (j : nat) e',
       Z.of_nat 3 < Z.of_nat j < next -> data_ T16 !! j = Some e' ->
       type e' <> DATA).
Proof.
  split; [exact lawful_id_hash |]. split; [exact five_of_sixteen_inv |].
  split; [reflexivity |].
  exact (erase_occupied_position Examples.id_hash Z.eqb Examples.set_key
           T16 3 (Examples.D 3) 3 lawful_id_hash five_of_sixteen_inv
           eq_refl eq_refl eq_refl).
Defined.

Lemma find_after_erase_witness :
  zlawful /\ zinv T16 /\ (length (data_ T16) <= 16)%nat /\
  data_ T16 !! 3%nat = Some (Examples.D 3) /\
  exists t' next,
    erase T16 (Z.of_nat 3) = Done (t', next) /\
    end_ t' = end_ T16 /\
    zfind 16 t' 4
    = (if Z.eqb (Examples.set_key 3) 4 then Done (end_ t')
       else zfind 16 T16 4).
Proof.
  assert (Hlen : (length (data_ T16) <= 16)%nat) by (simpl; lia).
  split; [exact lawful_id_hash |]. split; [exact five_of_sixteen_inv |].
  split; [exact Hlen |]. split; [reflexivity |].
  exact (find_after_erase Examples.id_hash Z.eqb Examples.set_key
           16 T16 3 (Examples.D 3) 3 4 lawful_id_hash five_of_sixteen_inv
           Hlen eq_refl eq_refl eq_refl).
Defined.


Lemma rehash_to_power_of_two_finds_all_witness :
  zlawful /\ table_ok Z.eqb Examples.set_key Examples.two_of_ten /\
  2 <= 5 <= 23 /\ 2 * size Examples.two_of_ten <= 2 ^ 5 /\
  2 ^ 5 <> bucket_count Examples.two_of_ten /\
  (Z.to_nat (2 ^ 5) < 40)%nat /\
  exists t',
    zrehash 40 (2 ^ 5) Examples.two_of_ten = Done t' /\
    zinv t' /\
    bucket_count t' = 2 ^ 5 /\
    forall u, In u (live (data_ Examples.two_of_ten)) ->
      exists pos,
        zfind 40 t' (Examples.set_key u) = Done pos /\
        data_ t' !! Z.to_nat pos = Some (Element_of u).
Proof.
  assert (Hm : 2 <= 5 <= 23) by lia.
  assert (Hroom : 2 * size Examples.two_of_ten <= 2 ^ 5)
    by (vm_compute; discriminate).
  assert (Hne : 2 ^ 5 <> bucket_count Examples.two_of_ten)
    by (vm_compute; discriminate).
  assert (Hfuel : (Z.to_nat (2 ^ 5) < 40)%nat) by (simpl; lia).
  split; [exact lawful_id_hash |]. split; [exact two_of_ten_ok |].
  split; [exact Hm |]. split; [exact Hroom |]. split; [exact Hne |].
  split; [exact Hfuel |].
  exact (rehash_to_power_of_two_finds_all Examples.id_hash Z.eqb
           Examples.set_key 40 5 Examples.two_of_ten lawful_id_hash
           two_of_ten_ok Hm Hroom Hne Hfuel).
Defined.

Lemma reserve_keeps_content_witness :
  zlawful /\ zinv T16 /\ 1 <= 10 < 2 ^ 21 /\ size T16 <= 10 /\
  (64 <= 64)%nat /\ (4 * Z.to_nat 10 < 64)%nat /\
  exists t',
    zreserve 64 10 T16 = Done t' /\
    zinv t' /\
    bucket_count t' = 2 ^ (Z.log2 10 + 2) /\
    2 * 10 < bucket_count t' /\
    Permutation (live (data_ t')) (live (data_ T16)) /\
    size t' = size T16.
Proof.
  assert (Hn : 1 <= 10 < 2 ^ 21) by lia.
  assert (Hsize : size T16 <= 10) by (vm_compute; discriminate).
  assert (Hfuel : (64 <= 64)%nat) by lia.
  assert (Hfuel2 : (4 * Z.to_nat 10 < 64)%nat) by (simpl; lia).
  split; [exact lawful_id_hash |]. split; [exact five_of_sixteen_inv |].
  split; [exact Hn |]. split; [exact Hsize |]. split; [exact Hfuel |].
  split; [exact Hfuel2 |].
  exact (reserve_keeps_content Examples.id_hash Z.eqb Examples.set_key
           64 10 T16 lawful_id_hash five_of_sixteen_inv Hn Hsize Hfuel Hfuel2).
Defined.

Lemma range_constructor_stores_the_range_witness :
  zlawful /\ 1 <= 1 < 2 ^ 21 /\
  Z.of_nat (length [1; 2; 3; 1]) < 2 ^ 21 /\ (64 <= 64)%nat /\
  (2 * Z.to_nat (Z.max (4 * 1) (4 * Z.of_nat (length [1; 2; 3; 1])))
   < 64)%nat /\
  exists t,
    zof_range 64 [1; 2; 3; 1] 1 = Done t /\
    zinv t /\
    (forall v, In v [1; 2; 3; 1] ->
       zcontains 64 t (Examples.set_key v) = Done true) /\
    (forall u, In u (live (data_ t)) -> In u [1; 2; 3; 1]) /\
    (unique_keys Z.eqb Examples.set_key [1; 2; 3; 1] ->
     Permutation (live (data_ t)) [1; 2; 3; 1] /\
     size t = Z.of_nat (length [1; 2; 3; 1])).
Proof.
  assert (Hh : 1 <= 1 < 2 ^ 21) by lia.
  assert (Hlen : Z.of_nat (length [1; 2; 3; 1]) < 2 ^ 21) by (simpl; lia).
  assert (Hfuel : (64 <= 64)%nat) by lia.
  assert (Hfuel2 :
    (2 * Z.to_nat (Z.max (4 * 1) (4 * Z.of_nat (length [1; 2; 3; 1])))
     < 64)%nat)
    by (simpl; lia).
  split; [exact lawful_id_hash |]. split; [exact Hh |].
  split; [exact Hlen |]. split; [exact Hfuel |]. split; [exact Hfuel2 |].
  exact (range_constructor_stores_the_range Examples.id_hash Z.eqb
           Examples.set_key 64 [1; 2; 3; 1] 1 lawful_id_hash Hh Hlen
           Hfuel Hfuel2).
Defined.

Lemma constructed_table_is_empty_witness :
  1 <= 4 < 2 ^ 22 /\ (64 <= 64)%nat /\
  exists t0 : HashTable Z,
    HashTable_new 64 4 = Done t0 /\
    zinv t0 /\
    size t0 = 0 /\
    begin t0 = end_ t0 /\
    zfind 64 t0 7 = Done (end_ t0).
Proof.
  assert (Hh : 1 <= 4 < 2 ^ 22) by lia.
  assert (Hfuel : (64 <= 64)%nat) by lia.
  split; [exact Hh |]. split; [exact Hfuel |].
  exact (constructed_table_is_empty Examples.id_hash Z.eqb Examples.set_key
           64 4 7 Hh Hfuel).
Defined.

Lemma iteration_visits_occupied_slots_witness :
  table_ok Z.eqb Examples.set_key T16 /\ (length (data_ T16) < 17)%nat /\
  exists ps,
    positions 17 T16 = Done ps /\
    StronglySorted Z.lt ps /\
    (forall i, In i ps <->
       0 <= i /\ exists e, data_ T16 !! Z.to_nat i = Some e /\ type e = DATA) /\
    elements 17 T16 = Done (live (data_ T16)) /\
    Z.of_nat (length ps) = size T16.
Proof.
  assert (Hfuel : (length (data_ T16) < 17)%nat) by (simpl; lia).
  split; [exact (proj1 five_of_sixteen_inv) |]. split; [exact Hfuel |].
  exact (iteration_visits_occupied_slots Z.eqb Examples.set_key 17 T16
           (proj1 five_of_sixteen_inv) Hfuel).
Defined.

Local Abbreviation zequal_range :=
  (@equal_range Z Z LinearProbing _ Examples.id_hash Z.eqb Examples.set_key).
Local Abbreviation ztable_eq :=
  (@table_eq Z Z LinearProbing _ Examples.id_hash Z.eqb Examples.set_key).

Lemma equal_range_holds_the_key_witness :
  zlawful /\ zinv T16 /\ (length (data_ T16) <= 16)%nat /\
  exists a b,
    zequal_range 16 T16 5 = Done (a, b) /\
    (((forall u, In u (live (data_ T16)) ->
         Z.eqb (Examples.set_key u) 5 = false) /\
      a = end_ T16 /\ b = end_ T16) \/
     (exists u,
        0 <= a /\ data_ T16 !! Z.to_nat a = Some (Element_of u) /\
        Z.eqb (Examples.set_key u) 5 = true /\
        a < b <= end_ T16 /\
        (b < end_ T16 ->
         exists e', data_ T16 !! Z.to_nat b = Some e' /\ type e' = DATA) /\
        (forall (j : nat) e',
           a < Z.of_nat j < b -> data_ T16 !! j = Some e' ->
           type e' <> DATA))).
Proof.
  assert (Hlen : (length (data_ T16) <= 16)%nat) by (simpl; lia).
  split; [exact lawful_id_hash |]. split; [exact five_of_sixteen_inv |].
  split; [exact Hlen |].
  exact (equal_range_holds_the_key Examples.id_hash Z.eqb Examples.set_key
           16 T16 5 lawful_id_hash five_of_sixteen_inv Hlen).
Defined.

Lemma erase_range_erases_between_witness :
  zlawful /\ zinv T16 /\ (2 <= 5)%nat /\ (5 - 2 < 7)%nat /\
  (exists e, data_ T16 !! 2%nat = Some e /\ type e = DATA) /\
  (exists e, data_ T16 !! 5%nat = Some e /\ type e = DATA) /\
  exists t' next,
    erase_range 7 T16 (Z.of_nat 2) (Z.of_nat 5) = Done (t', next) /\
    zinv t' /\
    data_ t' = erase_between (data_ T16) (Z.of_nat 2) (Z.of_nat 5) /\
    cells_cnt_ t' = cells_cnt_ T16 /\
    size t' = Z.of_nat (length (live (data_ t'))) /\
    Z.of_nat 5 < next <= end_ T16 /\
    (next < end_ T16 ->
     exists e', data_ T16 !! Z.to_nat next = Some e' /\ type e' = DATA /\
                data_ t' !! Z.to_nat next = Some e') /\
    (forall (j : nat) e',
       Z.of_nat 5 < Z.of_nat j < next -> data_ T16 !! j = Some e' ->
       type e' <> DATA).
Proof.
  assert (Hle : (2 <= 5)%nat) by lia.
  assert (Hfuel : (5 - 2 < 7)%nat) by (simpl; lia).
  assert (Hfirst : exists e, data_ T16 !! 2%nat = Some e /\ type e = DATA)
    by (exists (Examples.D 2); split; reflexivity).
  assert (Hlast : exists e, data_ T16 !! 5%nat = Some e /\ type e = DATA)
    by (exists (Examples.D 5); split; reflexivity).
  split; [exact lawful_id_hash |]. split; [exact five_of_sixteen_inv |].
  split; [exact Hle |]. split; [exact Hfuel |]. split; [exact Hfirst |].
  split; [exact Hlast |].
  exact (erase_range_erases_between Examples.id_hash Z.eqb Examples.set_key
           7 T16 2 5 lawful_id_hash five_of_sixteen_inv Hle Hfuel
           Hfirst Hlast).
Defined.

Lemma table_eq_compares_sizes_and_keys_witness :
  zlawful /\ zinv T8 /\ zinv T16 /\
  (length (data_ T8) <= 16)%nat /\ (length (data_ T16) <= 16)%nat /\
  ztable_eq 16 T8 T16
  = Done ((size T8 =? size T16) &&
          forallb (fun u =>
                     existsb (fun w => Z.eqb (Examples.set_key w)
                                             (Examples.set_key u))
                             (live (data_ T16)))
                  (live (data_ T8))) /\
  ztable_eq 16 T8 T8 = Done true.
Proof.
  assert (Hl : (length (data_ T8) <= 16)%nat) by (simpl; lia).
  assert (Hr : (length (data_ T16) <= 16)%nat) by (simpl; lia).
  split; [exact lawful_id_hash |]. split; [exact five_of_eight_inv |].
  split; [exact five_of_sixteen_inv |]. split; [exact Hl |].
  split; [exact Hr |].
  exact (table_eq_compares_sizes_and_keys Examples.id_hash Z.eqb
           Examples.set_key 16 T8 T16 lawful_id_hash five_of_eight_inv
           five_of_sixteen_inv Hl Hr).
Defined.

Lemma load_factor_after_emplace_witness :
  zlawful /\ zinv T8 /\ bucket_count T8 < 2 ^ 23 /\
  (2 * length (data_ T8) < 40)%nat /\
  exists t' pos inserted,
    zemplace 40 T8 21 = Done (t', (pos, inserted)) /\
    0 <= size t' <= cells_cnt_ t' /\
    2 * cells_cnt_ t' <= bucket_count t' + 2 /\
    (load_factor t' <= 3 # 4)%Q.
Proof.
  assert (Hbig : bucket_count T8 < 2 ^ 23) by (vm_compute; reflexivity).
  assert (Hfuel : (2 * length (data_ T8) < 40)%nat) by (simpl; lia).
  split; [exact lawful_id_hash |]. split; [exact five_of_eight_inv |].
  split; [exact Hbig |]. split; [exact Hfuel |].
  exact (load_factor_after_emplace Examples.id_hash Z.eqb Examples.set_key
           40 T8 21 lawful_id_hash five_of_eight_inv Hbig Hfuel).
Defined.

(** ** Instances of the map adapter's properties: integers to strings *)

Local Abbreviation mfirst := (@HashMap.first Z string).
Local Abbreviation minv :=
  (@table_inv Z (Z * string) LinearProbing _ Examples.id_hash Z.eqb mfirst).
Local Abbreviation mtry_emplace :=
  (@HashMap.try_emplace Z string LinearProbing _ Examples.id_hash Z.eqb).
Local Abbreviation minsert_or_assign :=
  (@HashMap.insert_or_assign Z string LinearProbing _ Examples.id_hash Z.eqb).
Local Abbreviation mat_key :=
  (@HashMap.at_key Z string LinearProbing _ Examples.id_hash Z.eqb).
Local Abbreviation msubscript :=
  (@HashMap.subscript Z string LinearProbing _ Examples.id_hash Z.eqb).
Local Abbreviation MX := Examples.map_x.

Lemma map_x_inv : minv MX.
Proof.
  destruct (insert_range_inv Examples.id_hash Z.eqb mfirst 64 16
              [(1, "x"%string)]
              {| data_ := fresh_slots (2 ^ 4); size_ := 0; cells_cnt_ := 0 |}
              lawful_id_hash)
    as (t' & Hins & Hinv & _).
  - apply fresh_table_inv. lia.
  - lia.
  - simpl. lia.
  - vm_compute. by intros [=].
  - vm_compute. by intros [=].
  - vm_compute in Hins. injection Hins as <-. exact Hinv.
Qed.

Lemma try_emplace_keeps_stored_value_witness :
  zlawful /\ minv MX /\ bucket_count MX < 2 ^ 23 /\
  (2 * length (data_ MX) < 40)%nat /\
  exists t' pos inserted,
    mtry_emplace 40 MX 1 "y"%string = Done (t', (pos, inserted)) /\
    minv t' /\
    ((inserted = false /\ t' = MX /\
      exists u, data_ MX !! Z.to_nat pos = Some (Element_of u) /\
                Z.eqb (fst u) 1 = true) \/
     (inserted = true /\
      (forall u, In u (live (data_ MX)) -> Z.eqb (fst u) 1 = false) /\
      Permutation (live (data_ t')) ((1, "y"%string) :: live (data_ MX)) /\
      data_ t' !! Z.to_nat pos = Some (Element_of (1, "y"%string)))).
Proof.
  assert (Hbig : bucket_count MX < 2 ^ 23) by (vm_compute; reflexivity).
  assert (Hfuel : (2 * length (data_ MX) < 40)%nat) by (simpl; lia).
  split; [exact lawful_id_hash |]. split; [exact map_x_inv |].
  split; [exact Hbig |]. split; [exact Hfuel |].
  exact (try_emplace_keeps_stored_value Examples.id_hash Z.eqb
           40 MX 1 "y"%string lawful_id_hash map_x_inv Hbig Hfuel).
Defined.

Lemma insert_or_assign_then_at_witness :
  zlawful /\ minv MX /\ bucket_count MX < 2 ^ 23 /\
  (2 * length (data_ MX) < 40)%nat /\
  exists t' pos inserted,
    minsert_or_assign 40 MX 1 "y"%string = Done (t', (pos, inserted)) /\
    minv t' /\
    mat_key 40 t' 1 = Done (Returned "y"%string) /\
    ((inserted = true /\
      (forall u, In u (live (data_ MX)) -> Z.eqb (fst u) 1 = false) /\
      Permutation (live (data_ t')) ((1, "y"%string) :: live (data_ MX))) \/
     (inserted = false /\
      exists u rest,
        Z.eqb (fst u) 1 = true /\
        Permutation (live (data_ MX)) (u :: rest) /\
        Permutation (live (data_ t')) ((fst u, "y"%string) :: rest) /\
        size t' = size MX /\ bucket_count t' = bucket_count MX)).
Proof.
  assert (Hbig : bucket_count MX < 2 ^ 23) by (vm_compute; reflexivity).
  assert (Hfuel : (2 * length (data_ MX) < 40)%nat) by (simpl; lia).
  split; [exact lawful_id_hash |]. split; [exact map_x_inv |].
  split; [exact Hbig |]. split; [exact Hfuel |].
  exact (insert_or_assign_then_at Examples.id_hash Z.eqb
           40 MX 1 "y"%string lawful_id_hash map_x_inv Hbig Hfuel).
Defined.

Lemma at_throws_exactly_when_absent_witness :
  zlawful /\ minv MX /\ (length (data_ MX) <= 16)%nat /\
  (((forall u, In u (live (data_ MX)) -> Z.eqb (fst u) 2 = false) /\
    mat_key 16 MX 2 = Done (Thrown (out_of_range "No such key"))) \/
   (exists u, In u (live (data_ MX)) /\ Z.eqb (fst u) 2 = true /\
              mat_key 16 MX 2 = Done (Returned (snd u)))).
Proof.
  assert (Hlen : (length (data_ MX) <= 16)%nat) by (simpl; lia).
  split; [exact lawful_id_hash |]. split; [exact map_x_inv |].
  split; [exact Hlen |].
  exact (at_throws_exactly_when_absent Examples.id_hash Z.eqb
           16 MX 2 lawful_id_hash map_x_inv Hlen).
Defined.

Lemma subscript_inserts_default_witness :
  zlawful /\ minv MX /\ bucket_count MX < 2 ^ 23 /\
  (2 * length (data_ MX) < 40)%nat /\
  exists t' x,
    msubscript 40 MX 2 EmptyString = Done (t', x) /\
    minv t' /\
    (((forall u, In u (live (data_ MX)) -> Z.eqb (fst u) 2 = false) /\
      x = EmptyString /\
      Permutation (live (data_ t')) ((2, EmptyString) :: live (data_ MX)) /\
      size t' = size MX + 1) \/
     (exists u, In u (live (data_ MX)) /\ Z.eqb (fst u) 2 = true /\
                x = snd u /\ t' = MX)).
Proof.
  assert (Hbig : bucket_count MX < 2 ^ 23) by (vm_compute; reflexivity).
  assert (Hfuel : (2 * length (data_ MX) < 40)%nat) by (simpl; lia).
  split; [exact lawful_id_hash |]. split; [exact map_x_inv |].
  split; [exact Hbig |]. split; [exact Hfuel |].
  exact (subscript_inserts_default Examples.id_hash Z.eqb
           40 MX 2 EmptyString lawful_id_hash map_x_inv Hbig Hfuel).
Defined.

(** ** Instances of the statement on [emplace] *)

Local Abbreviation zcheck_size :=
  (@check_size Z Z LinearProbing _ Examples.id_hash Z.eqb Examples.set_key).
Local Abbreviation zstopped :=
  (@stopped Z Z LinearProbing _ Z.eqb Examples.set_key).


(** ** The fifth insert of the keys 1 to 5 into eight slots *)

Local Abbreviation zemplace_with :=
  (@emplace_with Z Z LinearProbing _ Examples.id_hash Z.eqb
                 Examples.set_key).
Local Abbreviation zinsert_range :=
  (@insert_range Z Z LinearProbing _ Examples.id_hash Z.eqb
                 Examples.set_key).
Local Abbreviation zof_list :=
  (@HashTable_of_list Z Z LinearProbing _ Examples.id_hash Z.eqb
                      Examples.set_key).

Lemma fifth_insert_into_eight_slots_does_not_rehash_witness :
  (64 <= 64)%nat /\
  unique_keys Z.eqb Examples.set_key [1; 2; 3; 4; 5] /\
  (exists t0 t4 t5 (pos : Z),
     zof_list 64 [] 4 = Done t0 /\
     bucket_count t0 = 8 /\
     zinsert_range 64 t0 [1; 2; 3; 4] = Done t4 /\
     bucket_count t4 = 8 /\ size t4 = 4 /\ cells_cnt_ t4 = 4 /\
     zcheck_size 64 t4 = Done t4 /\
     (forall rec, zemplace_with rec 64 t4 5 = Done (t5, (pos, true))) /\
     zemplace 64 t4 5 = Done (t5, (pos, true)) /\
     zinsert_range 64 t0 [1; 2; 3; 4; 5] = Done t5 /\
     zof_list 64 [1; 2; 3; 4; 5] 4 = Done t5 /\
     bucket_count t5 = 8 /\ size t5 = 5 /\ cells_cnt_ t5 = 5 /\
     Permutation (live (data_ t5)) [1; 2; 3; 4; 5] /\
     (load_factor t5 == 5 # 8)%Q) /\
  (exists t0 t5 : HashTable Z,
     HashTable_new 64 4 = Done t0 /\
     bucket_count t0 = 16 /\
     zinsert_range 64 t0 [1; 2; 3; 4; 5] = Done t5 /\
     bucket_count t5 = 16 /\ size t5 = 5).
Proof.
  assert (Hfuel : (64 <= 64)%nat) by lia.
  assert (Huniq : unique_keys Z.eqb Examples.set_key [1; 2; 3; 4; 5])
    by solve_unique_keys.
  split; [exact Hfuel |]. split; [exact Huniq |].
  exact (fifth_insert_into_eight_slots_does_not_rehash Examples.id_hash
           Z.eqb Examples.set_key 64 1 2 3 4 5 Hfuel Huniq).
Defined.
